(** * FirstRaytracer: a shallow embedding of [raytracer.cpp]

    Every C++ [double] is a binary64 value of Rocq's primitive [float]
    type: each arithmetic operation below rounds to nearest-even, overflows
    to an infinity and produces NaN as the program does when its [double]
    expressions are evaluated in binary64 without contraction (the x86-64
    baseline).  C++ classes become records inside a module of the same
    name ([Vec3.normalize] is [Vec3::normalize]); a [bool] method with a
    [double&] out-parameter returns an [option]; loops over a
    [std::vector] are recursions over a list.  An [int] is an integer [Z]:
    the one narrowing conversion of the program, from [size_t] to [int], is
    written out, and the loop counters and pixel indices stay within [int]
    for the images the properties are stated for ([Image.wf]).  The only
    function of the C library the program calls besides [sqrt] is [tan],
    which is a section variable of [Camera] and [Renderer].  A file written
    by [Image::savePPM] is the text sent to its stream ([PPM.savePPM]).
    Where a property speaks of the exact value of a double, that value is a
    rational number ([Dyadic.value]). *)

From Stdlib Require Import QArith Qpower Lqa.
From Stdlib Require Import Bool ZArith List Lia ZifyBool Uint63 Floats Ascii String.
From stdpp Require Import base list strings pretty.

Set Warnings "-inexact-float".
Set Default Proof Using "Type".

Local Open Scope Z_scope.
Local Open Scope float_scope.

(** ** Scalars *)

(** [x > y] and [x >= y] on doubles, as the comparisons they abbreviate. *)
Definition gtb (x y : float) : bool := y <? x.
Definition geb (x y : float) : bool := y <=? x.

(** [std::max(a, b)] is [(a < b) ? b : a]; [std::min(a, b)] is
    [(b < a) ? b : a]. *)
Definition fmax (a b : float) : float := if a <? b then b else a.
Definition fmin (a b : float) : float := if b <? a then b else a.

(** Conversion of an [int] to [double] (exact for every 32-bit value). *)
Definition double_of_int (z : Z) : float :=
  if (z <? 0)%Z then - of_uint63 (Uint63.of_Z (- z)) else of_uint63 (Uint63.of_Z z).

(** Conversion of a [size_t] to a 32-bit [int]: reduction modulo [2^32] into
    the signed range. *)
Definition int_of_size_t (n : nat) : Z :=
  (Z.of_nat n + 2 ^ 31) mod 2 ^ 32 - 2 ^ 31.

(** Conversion of an [int] to a 64-bit [size_t], as done by
    [spheres[sphereIdx]]. *)
Definition size_t_of_int (z : Z) : nat := Z.to_nat (z mod 2 ^ 64).

(** [M_PI]. *)
Definition M_PI : float := 0x1.921fb54442d18p+1.

(** ** Vec3 *)
Module Vec3.

Record t : Set := mk { x : float; y : float; z : float }.

Definition zero : t := mk 0 0 0.

Definition add (u v : t) : t := mk (x u + x v) (y u + y v) (z u + z v).
Definition sub (u v : t) : t := mk (x u - x v) (y u - y v) (z u - z v).
Definition scale (u : t) (k : float) : t := mk (x u * k) (y u * k) (z u * k).
Definition div (u : t) (k : float) : t := mk (x u / k) (y u / k) (z u / k).

(** Component-wise multiplication (for colors). *)
Definition mul (u v : t) : t := mk (x u * x v) (y u * y v) (z u * z v).

Definition dot (u v : t) : float := x u * x v + y u * y v + z u * z v.

Definition length (u : t) : float := sqrt (x u * x u + y u * y u + z u * z u).

Definition normalize (u : t) : t :=
  let len := length u in
  if gtb len 0 then div u len else mk 0 0 0.

End Vec3.

Declare Scope vec3_scope.
Delimit Scope vec3_scope with vec3.
Bind Scope vec3_scope with Vec3.t.
Infix "+" := Vec3.add : vec3_scope.
Infix "-" := Vec3.sub : vec3_scope.
Infix "*" := Vec3.mul : vec3_scope.

(** ** Ray *)
Module Ray.

Record t : Set := mk { origin : Vec3.t; direction : Vec3.t }.

(** The constructor [Ray(origin, direction)]. *)
Definition new (origin direction : Vec3.t) : t :=
  mk origin (Vec3.normalize direction).

Definition at_ (r : t) (k : float) : Vec3.t :=
  (origin r + Vec3.scale (direction r) k)%vec3.

End Ray.

(** ** Material *)
Module Material.

Record t : Set := mk { color : Vec3.t }.

Definition default : t := mk (Vec3.mk 1 1 1).

End Material.

(** ** Sphere *)
Module Sphere.

Record t : Set := mk { center : Vec3.t; radius : float; material : Material.t }.

(** Default arguments of [intersect]. *)
Definition default_tMin : float := 0.001.
Definition default_tMax : float := infinity.

(** Ray-sphere intersection: [Some t] when the method returns [true]
    after writing [t], [None] when it returns [false]. *)
Definition intersect (s : t) (ray : Ray.t) (tMin tMax : float) : option float :=
  let oc := (Ray.origin ray - center s)%vec3 in
  let a := Vec3.dot (Ray.direction ray) (Ray.direction ray) in
  let b := 2.0 * Vec3.dot oc (Ray.direction ray) in
  let c := Vec3.dot oc oc - radius s * radius s in
  let discriminant := b * b - 4 * a * c in
  if discriminant <? 0 then None
  else
    let sqrtd := sqrt discriminant in
    let t0 := (- b - sqrtd) / (2.0 * a) in
    let t1 := (- b + sqrtd) / (2.0 * a) in
    if geb t0 tMin && (t0 <=? tMax) then Some t0
    else if geb t1 tMin && (t1 <=? tMax) then Some t1
    else None.

Definition getNormal (s : t) (point : Vec3.t) : Vec3.t :=
  Vec3.normalize (point - center s)%vec3.

End Sphere.

(** ** Light *)
Module Light.

Record t : Set := mk { position : Vec3.t; color : Vec3.t; intensity : float }.

End Light.

(** ** Scene *)
Module Scene.

Record t : Set :=
  mk { spheres : list Sphere.t; lights : list Light.t; ambientLight : Vec3.t }.

Definition new : t := mk [] [] (Vec3.mk 0.1 0.1 0.1).

Definition addSphere (sc : t) (s : Sphere.t) : t :=
  mk (spheres sc ++ [s]) (lights sc) (ambientLight sc).
Definition addLight (sc : t) (l : Light.t) : t :=
  mk (spheres sc) (lights sc ++ [l]) (ambientLight sc).

(** The body of the loop of [intersect], from index [i] on the remaining
    spheres [ss], with the current values of the two out-parameters. *)
Fixpoint intersect_loop (ray : Ray.t) (tMin : float) (ss : list Sphere.t)
    (i : nat) (tClosest : float) (sphereIndex : Z) : float * Z :=
  match ss with
  | [] => (tClosest, sphereIndex)
  | s :: rest =>
      match Sphere.intersect s ray tMin tClosest with
      | Some t => intersect_loop ray tMin rest (S i) t (int_of_size_t i)
      | None => intersect_loop ray tMin rest (S i) tClosest sphereIndex
      end
  end.

(** Default argument of [intersect]. *)
Definition default_tMin : float := 0.001.

(** Closest intersection with any sphere: the returned [bool] with the
    final values of [tClosest] and [sphereIndex]. *)
Definition intersect (sc : t) (ray : Ray.t) (tMin : float) : bool * float * Z :=
  let '(tClosest, sphereIndex) :=
    intersect_loop ray tMin (spheres sc) 0 infinity (-1) in
  (negb (sphereIndex =? -1)%Z, tClosest, sphereIndex).

Definition isInShadow (sc : t) (point lightPos : Vec3.t) : bool :=
  let toLight := (lightPos - point)%vec3 in
  let distToLight := Vec3.length toLight in
  let shadowRay := Ray.new point toLight in
  let '(hit, t, _) := intersect sc shadowRay 0.001 in
  if hit then t <? distToLight else false.

End Scene.

(** ** Camera *)
Module Camera.

Record t : Set := mk { position : Vec3.t; lookAt : Vec3.t; up : Vec3.t; fov : float }.

Section WithTan.
(** [std::tan]. *)
Variable tan : float -> float.

Definition getRay (c : t) (u v : float) (width height : Z) : Ray.t :=
  let forward := Vec3.normalize (lookAt c - position c)%vec3 in
  let right :=
    Vec3.normalize
      (Vec3.mk (Vec3.y forward * Vec3.z (up c) - Vec3.z forward * Vec3.y (up c))
               (Vec3.z forward * Vec3.x (up c) - Vec3.x forward * Vec3.z (up c))
               (Vec3.x forward * Vec3.y (up c) - Vec3.y forward * Vec3.x (up c))) in
  let upVec :=
    Vec3.mk (Vec3.y right * Vec3.z forward - Vec3.z right * Vec3.y forward)
            (Vec3.z right * Vec3.x forward - Vec3.x right * Vec3.z forward)
            (Vec3.x right * Vec3.y forward - Vec3.y right * Vec3.x forward) in
  let aspectRatio := double_of_int width / double_of_int height in
  let scale := tan (fov c * 0.5 * M_PI / 180.0) in
  let x := (2.0 * u / double_of_int width - 1.0) * aspectRatio * scale in
  let y := (1.0 - 2.0 * v / double_of_int height) * scale in
  let direction := Vec3.normalize (forward + Vec3.scale right x + Vec3.scale upVec y)%vec3 in
  Ray.new (position c) direction.

End WithTan.

End Camera.

(** ** Image *)
Module Image.

Record t : Set := mk { width : Z; height : Z; pixels : list Vec3.t }.

(** [Image(width, height)]: [pixels.resize(width * height)] fills the
    buffer with [Vec3()]. *)
Definition new (width height : Z) : t :=
  mk width height (replicate (Z.to_nat (width * height)) (Vec3.mk 0 0 0)).

Definition in_bounds (img : t) (x y : Z) : bool :=
  (0 <=? x)%Z && (x <? width img)%Z && (0 <=? y)%Z && (y <? height img)%Z.

(** An out-of-bounds write is a no-op.  The buffer is indexed row-major;
    the index is within the buffer whenever it has [width * height]
    entries ([wf] below). *)
Definition setPixel (img : t) (x y : Z) (color : Vec3.t) : t :=
  if in_bounds img x y
  then mk (width img) (height img)
          (<[Z.to_nat (y * width img + x) := color]> (pixels img))
  else img.

Definition getPixel (img : t) (x y : Z) : Vec3.t :=
  if in_bounds img x y
  then default (Vec3.mk 0 0 0) (pixels img !! Z.to_nat (y * width img + x))
  else Vec3.mk 0 0 0.

(** What the constructor establishes and [setPixel] preserves: [width],
    [height] and the product [width * height] are values of type [int] (an
    overflow of the product is undefined), and the buffer has
    [width * height] entries.  The index [y * width + x] of a pixel in
    bounds is then computed without overflow. *)
Definition wf (img : t) : Prop :=
  (0 <= width img < 2 ^ 31)%Z /\ (0 <= height img < 2 ^ 31)%Z /\
  (width img * height img < 2 ^ 31)%Z /\
  Z.of_nat (List.length (pixels img)) = (width img * height img)%Z.

End Image.

(** ** Renderer *)
Module Renderer.

(** [for (int i = lo; i < hi; ++i) body], the body acting on a state; an
    iteration that fails (an access outside a vector) ends the loop. *)
Fixpoint for_loop {S : Type} (n : nat) (i : Z) (body : Z -> S -> option S)
    (s : S) : option S :=
  match n with
  | O => Some s
  | Datatypes.S n' =>
      match body i s with
      | Some s' => for_loop n' (i + 1)%Z body s'
      | None => None
      end
  end.

Definition for_int {S : Type} (lo hi : Z) (body : Z -> S -> option S) (s : S)
    : option S :=
  for_loop (Z.to_nat (hi - lo)) lo body s.

Section WithTan.
Variable tan : float -> float.

(** Step b: distance to the closest sphere. *)
Definition renderDistance (img : Image.t) (camera : Camera.t) (scene : Scene.t)
    : option Image.t :=
  for_int 0 (Image.height img) (fun y img =>
    for_int 0 (Image.width img) (fun x img =>
      let ray := Camera.getRay tan camera (double_of_int x) (double_of_int y)
                   (Image.width img) (Image.height img) in
      let '(hit, t, sphereIdx) := Scene.intersect scene ray Scene.default_tMin in
      if hit then
        let normalizedDist := 1.0 - fmin 1.0 (t / 20.0) in
        Some (Image.setPixel img x y
                (Vec3.mk normalizedDist normalizedDist normalizedDist))
      else
        Some (Image.setPixel img x y (Vec3.mk 0.5 0.7 1.0))) img) img.

(** Step c: material colors. *)
Definition renderMaterials (img : Image.t) (camera : Camera.t) (scene : Scene.t)
    : option Image.t :=
  for_int 0 (Image.height img) (fun y img =>
    for_int 0 (Image.width img) (fun x img =>
      let ray := Camera.getRay tan camera (double_of_int x) (double_of_int y)
                   (Image.width img) (Image.height img) in
      let '(hit, t, sphereIdx) := Scene.intersect scene ray Scene.default_tMin in
      if hit then
        match Scene.spheres scene !! size_t_of_int sphereIdx with
        | Some sphere =>
            let color := Material.color (Sphere.material sphere) in
            Some (Image.setPixel img x y color)
        | None => None
        end
      else
        Some (Image.setPixel img x y (Vec3.mk 0.5 0.7 1.0))) img) img.

(** Step d: basic diffuse shading (N . L). *)
Definition renderDiffuse (img : Image.t) (camera : Camera.t) (scene : Scene.t)
    : option Image.t :=
  for_int 0 (Image.height img) (fun y img =>
    for_int 0 (Image.width img) (fun x img =>
      let ray := Camera.getRay tan camera (double_of_int x) (double_of_int y)
                   (Image.width img) (Image.height img) in
      let '(hit, t, sphereIdx) := Scene.intersect scene ray Scene.default_tMin in
      if hit then
        match Scene.spheres scene !! size_t_of_int sphereIdx with
        | Some sphere =>
            let hitPoint := Ray.at_ ray t in
            let normal := Sphere.getNormal sphere hitPoint in
            let materialColor := Material.color (Sphere.material sphere) in
            let finalColor :=
              fold_left (fun finalColor light =>
                let toLight :=
                  Vec3.normalize (Light.position light - hitPoint)%vec3 in
                let diffuse := fmax 0.0 (Vec3.dot normal toLight) in
                (finalColor
                 + Vec3.scale (materialColor * Light.color light)
                     (diffuse * Light.intensity light))%vec3)
                (Scene.lights scene)
                (Scene.ambientLight scene * materialColor)%vec3 in
            Some (Image.setPixel img x y finalColor)
        | None => None
        end
      else
        Some (Image.setPixel img x y (Vec3.mk 0.5 0.7 1.0))) img) img.

(** Step e: diffuse shading with shadows. *)
Definition renderWithShadows (img : Image.t) (camera : Camera.t) (scene : Scene.t)
    : option Image.t :=
  for_int 0 (Image.height img) (fun y img =>
    for_int 0 (Image.width img) (fun x img =>
      let ray := Camera.getRay tan camera (double_of_int x) (double_of_int y)
                   (Image.width img) (Image.height img) in
      let '(hit, t, sphereIdx) := Scene.intersect scene ray Scene.default_tMin in
      if hit then
        match Scene.spheres scene !! size_t_of_int sphereIdx with
        | Some sphere =>
            let hitPoint := Ray.at_ ray t in
            let normal := Sphere.getNormal sphere hitPoint in
            let materialColor := Material.color (Sphere.material sphere) in
            let finalColor :=
              fold_left (fun finalColor light =>
                if negb (Scene.isInShadow scene hitPoint (Light.position light))
                then
                  let toLight :=
                    Vec3.normalize (Light.position light - hitPoint)%vec3 in
                  let diffuse := fmax 0.0 (Vec3.dot normal toLight) in
                  (finalColor
                   + Vec3.scale (materialColor * Light.color light)
                       (diffuse * Light.intensity light))%vec3
                else finalColor)
                (Scene.lights scene)
                (Scene.ambientLight scene * materialColor)%vec3 in
            Some (Image.setPixel img x y finalColor)
        | None => None
        end
      else
        Some (Image.setPixel img x y (Vec3.mk 0.5 0.7 1.0))) img) img.

End WithTan.

End Renderer.

(** ** Image::savePPM

    The method is modelled by the characters it sends to the stream, in
    order.  A conversion [(int)d] is defined when the truncated value fits
    an [int]; the text is [None] when one of them is not. *)
Module PPM.

(** The conversion [(int)d] of a double: the value truncated towards zero;
    [None] where the conversion is undefined (NaN, an infinity, a truncated
    value outside [int]). *)
Definition int_of_double (d : float) : option Z :=
  match Prim2SF d with
  | S754_zero _ => Some 0%Z
  | S754_finite s m e =>
      let a := Z.shiftl (Zpos m) e in
      let z := if s then (- a)%Z else a in
      if ((- 2 ^ 31 <=? z) && (z <? 2 ^ 31))%Z then Some z else None
  | _ => None
  end.

(** [std::min(255, std::max(0, (int)(c * 255)))]. *)
Definition channel (c : float) : option Z :=
  match int_of_double (c * 255) with
  | Some i => Some (Z.min 255 (Z.max 0 i))
  | None => None
  end.

(** The line feed. *)
Definition nl : string := String (ascii_of_nat 10) EmptyString.

(** [file << r << " " << g << " " << b << " "]: integers are written in
    decimal. *)
Definition write_pixel (file : string) (r g b : Z) : string :=
  file +:+ pretty r +:+ " " +:+ pretty g +:+ " " +:+ pretty b +:+ " ".

(** The text sent to the file, [None] when a conversion to [int] is
    undefined. *)
Definition savePPM (img : Image.t) : option string :=
  let file :=
    "P3" +:+ nl +:+ pretty (Image.width img) +:+ " " +:+ pretty (Image.height img)
    +:+ nl +:+ "255" +:+ nl in
  Renderer.for_int 0 (Image.height img) (fun y file =>
    match
      Renderer.for_int 0 (Image.width img) (fun x file =>
        let color := Image.getPixel img x y in
        match channel (Vec3.x color) with
        | Some r =>
            match channel (Vec3.y color) with
            | Some g =>
                match channel (Vec3.z color) with
                | Some b => Some (write_pixel file r g b)
                | None => None
                end
            | None => None
            end
        | None => None
        end) file
    with
    | Some file => Some (file +:+ nl)
    | None => None
    end) file.

End PPM.

(** ** The scene and the camera built by [main] *)
Module Main.

Definition width : Z := 800.
Definition height : Z := 600.

Definition camera : Camera.t :=
  Camera.mk (Vec3.mk 0 0 5) (Vec3.mk 0 0 0) (Vec3.mk 0 1 0) 60.

Definition scene : Scene.t :=
  let scene := Scene.new in
  let scene := Scene.addSphere scene
    (Sphere.mk (Vec3.mk 0 0 0) 1.0 (Material.mk (Vec3.mk 1.0 0.3 0.3))) in
  let scene := Scene.addSphere scene
    (Sphere.mk (Vec3.mk (-2.5) 0 (-1)) 1.0 (Material.mk (Vec3.mk 0.3 1.0 0.3))) in
  let scene := Scene.addSphere scene
    (Sphere.mk (Vec3.mk 2.5 0 (-1)) 1.0 (Material.mk (Vec3.mk 0.3 0.3 1.0))) in
  let scene := Scene.addSphere scene
    (Sphere.mk (Vec3.mk 0 (-101) 0) 100 (Material.mk (Vec3.mk 0.8 0.8 0.8))) in
  let scene := Scene.addLight scene
    (Light.mk (Vec3.mk 5 5 5) (Vec3.mk 1 1 1) 0.8) in
  let scene := Scene.addLight scene
    (Light.mk (Vec3.mk (-5) 3 3) (Vec3.mk 1 0.9 0.8) 0.4) in
  scene.

End Main.

(** * Definitions used to state the properties *)

(** ** The order on doubles as an order on integer keys *)
Module FloatKey.

(** The order of [SFcompare], read off a key compared lexicographically. *)
Definition key (f : spec_float) : option (Z * Z * Z) :=
  match f with
  | S754_nan => None
  | S754_infinity true => Some (-2, 0, 0)%Z
  | S754_finite true m e => Some (-1, - e, - Zpos m)%Z
  | S754_zero _ => Some (0, 0, 0)%Z
  | S754_finite false m e => Some (1, e, Zpos m)%Z
  | S754_infinity false => Some (2, 0, 0)%Z
  end.

Definition key_lt (k1 k2 : Z * Z * Z) : Prop :=
  let '(a1, b1, c1) := k1 in
  let '(a2, b2, c2) := k2 in
  (a1 < a2 \/ (a1 = a2 /\ (b1 < b2 \/ (b1 = b2 /\ c1 < c2))))%Z.

Definition key_ltb (k1 k2 : Z * Z * Z) : bool :=
  let '(a1, b1, c1) := k1 in
  let '(a2, b2, c2) := k2 in
  ((a1 <? a2) || ((a1 =? a2) && ((b1 <? b2) || ((b1 =? b2) && (c1 <? c2)))))%Z.

Definition key_eqb (k1 k2 : Z * Z * Z) : bool :=
  let '(a1, b1, c1) := k1 in
  let '(a2, b2, c2) := k2 in
  ((a1 =? a2) && (b1 =? b2) && (c1 =? c2))%Z.

(** The key of a double; [None] for NaN. *)
Definition fkey (x : float) : option (Z * Z * Z) := key (Prim2SF x).
End FloatKey.

(** ** The quadratic solved by [Sphere::intersect]

    The local variables of [Sphere.intersect], as functions of the sphere and
    the ray. *)
Module Quadratic.

Definition a (ray : Ray.t) : float :=
  Vec3.dot (Ray.direction ray) (Ray.direction ray).

Definition b (s : Sphere.t) (ray : Ray.t) : float :=
  2.0 * Vec3.dot (Ray.origin ray - Sphere.center s)%vec3 (Ray.direction ray).

Definition c (s : Sphere.t) (ray : Ray.t) : float :=
  Vec3.dot (Ray.origin ray - Sphere.center s)%vec3 (Ray.origin ray - Sphere.center s)%vec3
  - Sphere.radius s * Sphere.radius s.

Definition discriminant (s : Sphere.t) (ray : Ray.t) : float :=
  b s ray * b s ray - 4 * a ray * c s ray.

Definition t0 (s : Sphere.t) (ray : Ray.t) : float :=
  (- b s ray - sqrt (discriminant s ray)) / (2.0 * a ray).

Definition t1 (s : Sphere.t) (ray : Ray.t) : float :=
  (- b s ray + sqrt (discriminant s ray)) / (2.0 * a ray).

(** [t] lies in the closed interval [[tMin, tMax]]. *)
Definition in_range (t tMin tMax : float) : bool := geb t tMin && (t <=? tMax).

(** The root with the minus sign is not above the root with the plus sign. *)
Definition roots_ordered (s : Sphere.t) (ray : Ray.t) : bool :=
  negb (t1 s ray <? t0 s ray).

(** The distance at which a sphere alone is hit: [intersect] with the
    default [tMax]. *)
Definition hitDistance (ray : Ray.t) (tMin : float) (s : Sphere.t) : option float :=
  Sphere.intersect s ray tMin Sphere.default_tMax.
End Quadratic.

(** ** The state of the loop of [Scene::intersect] *)
Module Closest.
Import Quadratic.

(** What [tClosest] and [sphereIndex] hold once the spheres [pre] have been
    tested: either nothing was hit, or [tClosest] is the distance at which
    the sphere at [sphereIndex] is hit, no sphere of [pre] is hit before
    [tClosest] and no later one at or before it. *)
Definition state (ray : Ray.t) (tMin : float) (pre : list Sphere.t)
    (tClosest : float) (sphereIndex : Z) : Prop :=
  (sphereIndex = (-1)%Z /\ tClosest = infinity /\
   forall s, s ∈ pre -> hitDistance ray tMin s = None)
  \/
  (exists (k : nat) (s : Sphere.t),
     sphereIndex = Z.of_nat k /\ pre !! k = Some s /\
     hitDistance ray tMin s = Some tClosest /\
     forall (j : nat) (s' : Sphere.t) (t' : float),
       pre !! j = Some s' -> hitDistance ray tMin s' = Some t' ->
       (tClosest <=? t') = true /\ ((k < j)%nat -> (tClosest <? t') = true)).
End Closest.

(** ** The basis and the device coordinates computed by [Camera::getRay]

    The local variables of [Camera.getRay], as functions of its arguments. *)
Module CameraBasis.

Definition cross (u v : Vec3.t) : Vec3.t :=
  Vec3.mk (Vec3.y u * Vec3.z v - Vec3.z u * Vec3.y v)
          (Vec3.z u * Vec3.x v - Vec3.x u * Vec3.z v)
          (Vec3.x u * Vec3.y v - Vec3.y u * Vec3.x v).

Definition forward (c : Camera.t) : Vec3.t :=
  Vec3.normalize (Camera.lookAt c - Camera.position c)%vec3.

Definition right (c : Camera.t) : Vec3.t :=
  Vec3.normalize (cross (forward c) (Camera.up c)).

Definition trueUp (c : Camera.t) : Vec3.t := cross (right c) (forward c).

Definition aspect (width height : Z) : float :=
  double_of_int width / double_of_int height.

(** [tan] of half the field of view, the field of view converted from
    degrees to radians. *)
Definition scale (tan : float -> float) (c : Camera.t) : float :=
  tan (Camera.fov c * 0.5 * M_PI / 180.0).

Definition ndcX (tan : float -> float) (c : Camera.t) (u : float) (width height : Z)
    : float :=
  (2.0 * u / double_of_int width - 1.0) * aspect width height * scale tan c.

Definition ndcY (tan : float -> float) (c : Camera.t) (v : float) (height : Z) : float :=
  (1.0 - 2.0 * v / double_of_int height) * scale tan c.

(** [forward + right * ndcX + trueUp * ndcY], before any normalization. *)
Definition through (tan : float -> float) (c : Camera.t) (u v : float)
    (width height : Z) : Vec3.t :=
  (forward c + Vec3.scale (right c) (ndcX tan c u width height)
   + Vec3.scale (trueUp c) (ndcY tan c v height))%vec3.
End CameraBasis.

(** ** The pixel loop shared by the four render modes *)
Module Paint.

(** One row, then all rows: the pixel [(x, y)] receives [shade x y]; a
    failing [shade] ends the loops. *)
Definition row (shade : Z -> Z -> option Vec3.t) (y : Z) (img : Image.t)
    : option Image.t :=
  Renderer.for_int 0 (Image.width img) (fun x img =>
    match shade x y with
    | Some color => Some (Image.setPixel img x y color)
    | None => None
    end) img.

Definition image (shade : Z -> Z -> option Vec3.t) (img : Image.t) : option Image.t :=
  Renderer.for_int 0 (Image.height img) (row shade) img.

(** What a state of the loops has in common with the image they started
    from. *)
Definition same_frame (img0 img : Image.t) : Prop :=
  Image.width img = Image.width img0 /\ Image.height img = Image.height img0 /\
  Image.wf img.

(** The dimensions of an image, which no write changes. *)
Definition same_size (img0 img : Image.t) : Prop :=
  Image.width img = Image.width img0 /\ Image.height img = Image.height img0.
End Paint.

(** ** The color of one pixel in each render mode

    The body of the inner loop of each [render...] function, without the
    write to the image. *)
Module Shading.

(** The camera ray of the pixel [(x, y)] of a [width] x [height] image. *)
Definition pixelRay (tan : float -> float) (camera : Camera.t) (width height x y : Z)
    : Ray.t :=
  Camera.getRay tan camera (double_of_int x) (double_of_int y) width height.

(** What one light adds to the color of a hit point. *)
Definition diffuseTerm (materialColor normal hitPoint : Vec3.t) (light : Light.t)
    : Vec3.t :=
  Vec3.scale (materialColor * Light.color light)
    (fmax 0.0 (Vec3.dot normal (Vec3.normalize (Light.position light - hitPoint)%vec3))
     * Light.intensity light).

(** Ambient term, then the term of every light, in the order of the scene. *)
Definition diffuseColor (scene : Scene.t) (sphere : Sphere.t) (hitPoint : Vec3.t)
    : Vec3.t :=
  let normal := Sphere.getNormal sphere hitPoint in
  let materialColor := Material.color (Sphere.material sphere) in
  fold_left (fun finalColor light =>
               (finalColor + diffuseTerm materialColor normal hitPoint light)%vec3)
    (Scene.lights scene) (Scene.ambientLight scene * materialColor)%vec3.

(** The same, a light adding its term only when the hit point is not in
    its shadow. *)
Definition shadowColor (scene : Scene.t) (sphere : Sphere.t) (hitPoint : Vec3.t)
    : Vec3.t :=
  let normal := Sphere.getNormal sphere hitPoint in
  let materialColor := Material.color (Sphere.material sphere) in
  fold_left (fun finalColor light =>
               if negb (Scene.isInShadow scene hitPoint (Light.position light))
               then (finalColor + diffuseTerm materialColor normal hitPoint light)%vec3
               else finalColor)
    (Scene.lights scene) (Scene.ambientLight scene * materialColor)%vec3.

Definition distanceColor (t : float) : Vec3.t :=
  let normalizedDist := 1.0 - fmin 1.0 (t / 20.0) in
  Vec3.mk normalizedDist normalizedDist normalizedDist.

Definition distancePixel (tan : float -> float) (camera : Camera.t) (scene : Scene.t)
    (width height x y : Z) : option Vec3.t :=
  let '(hit, t, sphereIdx) :=
    Scene.intersect scene (pixelRay tan camera width height x y) Scene.default_tMin in
  if hit then Some (distanceColor t) else Some (Vec3.mk 0.5 0.7 1.0).

(** The three modes that read the sphere that was hit; [None] is the access
    [spheres[sphereIdx]] outside the vector. *)
Definition spherePixel (color : Sphere.t -> Vec3.t -> Vec3.t)
    (tan : float -> float) (camera : Camera.t) (scene : Scene.t)
    (width height x y : Z) : option Vec3.t :=
  let ray := pixelRay tan camera width height x y in
  let '(hit, t, sphereIdx) := Scene.intersect scene ray Scene.default_tMin in
  if hit then
    match Scene.spheres scene !! size_t_of_int sphereIdx with
    | Some sphere => Some (color sphere (Ray.at_ ray t))
    | None => None
    end
  else Some (Vec3.mk 0.5 0.7 1.0).

Definition materialsPixel := spherePixel (fun sphere _ => Material.color (Sphere.material sphere)).
Definition diffusePixel tan camera scene := spherePixel (diffuseColor scene) tan camera scene.
Definition shadowPixel tan camera scene := spherePixel (shadowColor scene) tan camera scene.

(** Every component is a zero, resp. finite. *)
Definition isZeroVec (u : Vec3.t) : bool :=
  is_zero (Vec3.x u) && is_zero (Vec3.y u) && is_zero (Vec3.z u).
Definition isFiniteVec (u : Vec3.t) : bool :=
  is_finite (Vec3.x u) && is_finite (Vec3.y u) && is_finite (Vec3.z u).
End Shading.

(** ** Concrete scenes used as examples *)
Module Examples.

(** The ray of section 8 of the specification: from [(0,0,5)] towards
    [(0,0,-1)]. *)
Definition axisRay : Ray.t := Ray.new (Vec3.mk 0 0 5) (Vec3.mk 0 0 (-1)).

(** The unit sphere at the origin, and a sphere of radius 2 around
    [(0,0,-1)]: both surfaces pass through [(0,0,1)], at distance 4 from the
    origin of [axisRay]. *)
Definition unitSphere : Sphere.t :=
  Sphere.mk (Vec3.mk 0 0 0) 1 (Material.mk (Vec3.mk 1 0 0)).
Definition wideSphere : Sphere.t :=
  Sphere.mk (Vec3.mk 0 0 (-1)) 2 (Material.mk (Vec3.mk 0 1 0)).

(** A sphere whose squared radius overflows. *)
Definition hugeSphere : Sphere.t :=
  Sphere.mk (Vec3.mk 0 0 0) 0x1p600 (Material.mk (Vec3.mk 1 0 0)).

Definition sceneOf (ss : list Sphere.t) : Scene.t :=
  Scene.mk ss [] (Vec3.mk 0.1 0.1 0.1).

(** [tan] at the only argument [getRay] passes for the camera of [main],
    [60 * 0.5 * M_PI / 180.0 = 0x1.0c152382d7365p-1], where the C library
    returns the double nearest to the tangent of that angle. *)
Definition tan_fov60 (x : float) : float :=
  if PrimFloat.Leibniz.eqb x 0x1.0c152382d7365p-1 then 0x1.279a74590331cp-1 else nan.

(** The scene of item 6 of section 8 of the specification: one unit sphere
    of color [(1, 0, 0)] at the origin, one light at [(5, 5, 5)] of
    intensity 0.8. *)
Definition endToEndScene : Scene.t :=
  Scene.addLight
    (Scene.addSphere Scene.new
       (Sphere.mk (Vec3.mk 0 0 0) 1 (Material.mk (Vec3.mk 1 0 0))))
    (Light.mk (Vec3.mk 5 5 5) (Vec3.mk 1 1 1) 0.8).

(** A unit sphere and a light whose red channels multiply to more than the
    largest double; the light is at [(0, 0, -5)], behind the sphere for the
    camera of [main]. *)
Definition overflowScene : Scene.t :=
  Scene.addLight
    (Scene.addSphere Scene.new
       (Sphere.mk (Vec3.mk 0 0 0) 1 (Material.mk (Vec3.mk 0x1p600 0 0))))
    (Light.mk (Vec3.mk 0 0 (-5)) (Vec3.mk 0x1p600 1 1) 0.8).
End Examples.

(** ** Rounding in binary64

    The vocabulary in which the rounding done by the arithmetic of doubles
    ([binary_round_aux] of the specification of [PrimFloat]) is described:
    a mantissa with the position of the bits already discarded, shifted to
    the exponent of the format and rounded to nearest, ties to even. *)
Module Rounding.
Local Open Scope Z_scope.

(** Number of binary digits of a non-negative integer. *)
Definition dig (m : Z) : Z := Zdigits2 m.

(** The exponent of the format for a number of magnitude [2^k]. *)
Definition fexp (k : Z) : Z := SpecFloat.fexp prec emax k.

(** Position of the discarded bits: 0 exact, 1 below half, 2 half, 3 above. *)
Definition rank (R : shr_record) : Z :=
  match shr_r R, shr_s R with
  | false, false => 0
  | false, true => 1
  | true, false => 2
  | true, true => 3
  end.

(** Order of the values two records stand for. *)
Definition rle (R1 R2 : shr_record) : Prop :=
  shr_m R1 < shr_m R2 \/ (shr_m R1 = shr_m R2 /\ rank R1 <= rank R2).

(** [n] shifts to the right. *)
Definition shrn (n : nat) (R : shr_record) : shr_record := Nat.iter n shr_1 R.

(** Rounding to nearest, ties to even. *)
Definition rnd (R : shr_record) : Z :=
  round_nearest_even (shr_m R) (loc_of_shr_record R).

(** The record of a mantissa and the location of what was discarded. *)
Definition recl (m : Z) (l : location) : shr_record := shr_record_of_loc m l.

(** The last step of [binary_round_aux]. *)
Definition finish (sx : bool) (m e : Z) : spec_float :=
  match m with
  | Z0 => S754_zero sx
  | Zpos p => if e <=? emax - prec then S754_finite sx p e else S754_infinity sx
  | Zneg _ => S754_nan
  end.

(** The mantissa rounded at the canonical exponent of [(m, e)]. *)
Definition rounded (R : shr_record) (e : Z) : Z :=
  rnd (shrn (Z.to_nat (fexp (dig (shr_m R) + e) - e)) R).

(** What [binary_round_aux] returns for the record [R] at exponent [e]. *)
Definition result (sx : bool) (R : shr_record) (e : Z) : spec_float :=
  let E := fexp (dig (shr_m R) + e) in
  let r := rounded R e in
  if dig r <=? 53 then finish sx r E else finish sx (2 ^ 52) (E + 1).

(** [f1] is not above [f2]: their keys are in order, or one of them is NaN. *)
Definition ord (f1 f2 : spec_float) : Prop :=
  match FloatKey.key f1, FloatKey.key f2 with
  | Some k1, Some k2 => FloatKey.key_lt k1 k2 \/ k1 = k2
  | _, _ => True
  end.

(** The key of the opposite number. *)
Definition kopp (k : Z * Z * Z) : Z * Z * Z :=
  let '(a, b, c) := k in (- a, - b, - c).

(** The key of a number that is zero or above zero. *)
Definition key_nonneg (k : option (Z * Z * Z)) : Prop :=
  exists a b c, k = Some (a, b, c) /\ (0 < a \/ (a, b, c) = (0, 0, 0)).

(** The quotient of [N] by [M] with the position of the remainder. *)
Definition quot (N M : Z) : shr_record :=
  recl (N / M) (new_location M (N mod M)).

(** The exponent at which [SFdiv_core_binary] computes the quotient. *)
Definition div_exp (m1 e1 m2 e2 : Z) : Z :=
  Z.min (fexp (dig m1 + e1 - (dig m2 + e2))) (e1 - e2).

(** NaN, or a value of sign bit [s]. *)
Definition sign_is (s : bool) (f : spec_float) : Prop :=
  match f with
  | S754_nan => True
  | S754_zero s' | S754_infinity s' | S754_finite s' _ _ => s' = s
  end.

(** The values a square root takes: NaN, a zero, or a value of sign bit
    [false]. *)
Definition sqrt_range (f : spec_float) : Prop :=
  match f with
  | S754_zero _ => True
  | _ => sign_is false f
  end.

End Rounding.

(** ** Doubles that are a zero or NaN *)
Module FloatClass.
(** A zero or NaN. *)
Definition zero_or_nan (x : float) : bool := is_zero x || is_nan x.
Definition zeroOrNanVec (u : Vec3.t) : bool :=
  zero_or_nan (Vec3.x u) && zero_or_nan (Vec3.y u) && zero_or_nan (Vec3.z u).
End FloatClass.

(** ** The text of a PPM file, row by row *)
Module PPMText.

(** The three numbers written for a pixel. *)
Definition sample (img : Image.t) (x y : Z) : option (Z * Z * Z) :=
  let color := Image.getPixel img x y in
  match PPM.channel (Vec3.x color), PPM.channel (Vec3.y color), PPM.channel (Vec3.z color) with
  | Some r, Some g, Some b => Some (r, g, b)
  | _, _, _ => None
  end.

Definition header (width height : Z) : string :=
  "P3" +:+ PPM.nl +:+ pretty width +:+ " " +:+ pretty height +:+ PPM.nl +:+ "255" +:+ PPM.nl.

Definition pixel (s : Z * Z * Z) : string :=
  let '(r, g, b) := s in pretty r +:+ " " +:+ pretty g +:+ " " +:+ pretty b +:+ " ".

(** The file after one more line, and after all the lines, for the numbers
    [samples x y]. *)
Definition row (samples : Z -> Z -> Z * Z * Z) (width y : Z) (file : string) : string :=
  fold_left (fun file x => file +:+ pixel (samples x y)) (seqZ 0 width) file +:+ PPM.nl.

Definition text (samples : Z -> Z -> Z * Z * Z) (width height : Z) : string :=
  fold_left (fun file y => row samples width y file) (seqZ 0 height) (header width height).

(** Every component of a color lies in [[0, 1]]. *)
Definition unitVec (u : Vec3.t) : bool :=
  (0 <=? Vec3.x u) && (Vec3.x u <=? 1) && (0 <=? Vec3.y u) && (Vec3.y u <=? 1)
  && (0 <=? Vec3.z u) && (Vec3.z u <=? 1).

End PPMText.

(** ** The order on colors, component by component *)
Module ColorOrder.

(** No component is below zero (so none is NaN). *)
Definition nonnegVec (u : Vec3.t) : bool :=
  (0 <=? Vec3.x u) && (0 <=? Vec3.y u) && (0 <=? Vec3.z u).

(** Every component of [u] is at most that of [v]. *)
Definition leVec (u v : Vec3.t) : bool :=
  (Vec3.x u <=? Vec3.x v) && (Vec3.y u <=? Vec3.y v) && (Vec3.z u <=? Vec3.z v).

End ColorOrder.

(** ** The rational number a double stands for *)
Module Dyadic.

(** The value of a finite double; [0] for the infinities and NaN. *)
Definition SF2Q (f : spec_float) : Q :=
  match f with
  | S754_finite s m e =>
      let v := (inject_Z (Zpos m) * 2 ^ e)%Q in
      if s then (- v)%Q else v
  | _ => 0%Q
  end.

Definition value (x : float) : Q := SF2Q (Prim2SF x).

(** The square of the Euclidean length of a vector, computed exactly. *)
Definition norm2 (u : Vec3.t) : Q :=
  (value (Vec3.x u) * value (Vec3.x u) + value (Vec3.y u) * value (Vec3.y u)
   + value (Vec3.z u) * value (Vec3.z u))%Q.

(** A component whose square neither overflows nor underflows: a zero, or a
    double of magnitude between [2^-500] and [2^500]. *)
Definition regular (c : float) : bool :=
  is_zero c || ((0x1p-500 <=? abs c) && (abs c <=? 0x1p500)).

Definition regularVec (u : Vec3.t) : bool :=
  regular (Vec3.x u) && regular (Vec3.y u) && regular (Vec3.z u).

(** [+0], or a finite double above zero. *)
Definition nonneg_double (f : spec_float) : bool :=
  match f with
  | S754_zero false | S754_finite false _ _ => true
  | _ => false
  end.

End Dyadic.

(** * Properties *)

(** ** The order on doubles *)
Module FloatOrder.
Export FloatKey.

Lemma SFcompare_key x y :
  match SFcompare x y with
  | None => key x = None \/ key y = None
  | Some c =>
      exists kx ky, key x = Some kx /\ key y = Some ky /\
        match c with
        | Lt => key_lt kx ky
        | Eq => kx = ky
        | Gt => key_lt ky kx
        end
  end.
Proof.
  destruct x as [[]|[]| |[] mx ex], y as [[]|[]| |[] my ey]; simpl;
    try (left; reflexivity); try (right; reflexivity);
    try (eexists _, _; split; [reflexivity|split; [reflexivity|]]; simpl; first [reflexivity | lia]).
  all: eexists _, _; split; [reflexivity|split; [reflexivity|]].
  all: change (PosDef.Pos.compare_cont Eq mx my) with (Pos.compare mx my).
  all: destruct (Z.compare_spec ex ey); simpl; try lia.
  all: destruct (Pos.compare_spec mx my); simpl; subst; try reflexivity; try lia.
Qed.

Lemma ltb_key x y :
  (x <? y) =
  match fkey x, fkey y with
  | Some kx, Some ky => key_ltb kx ky
  | _, _ => false
  end.
Proof.
  rewrite FloatAxioms.ltb_spec. unfold SFltb, fkey.
  pose proof (SFcompare_key (Prim2SF x) (Prim2SF y)) as H.
  destruct (SFcompare (Prim2SF x) (Prim2SF y)) as [c|].
  - destruct H as ([[a1 b1] c1] & [[a2 b2] c2] & -> & -> & H).
    unfold key_lt, key_ltb in *. destruct c.
    + inversion H; subst. symmetry. lia.
    + symmetry. lia.
    + symmetry. lia.
  - destruct H as [-> | ->]; [reflexivity | now destruct (key (Prim2SF x))].
Qed.

Lemma leb_key x y :
  (x <=? y) =
  match fkey x, fkey y with
  | Some kx, Some ky => key_ltb kx ky || key_eqb kx ky
  | _, _ => false
  end.
Proof.
  rewrite FloatAxioms.leb_spec. unfold SFleb, fkey.
  pose proof (SFcompare_key (Prim2SF x) (Prim2SF y)) as H.
  destruct (SFcompare (Prim2SF x) (Prim2SF y)) as [c|].
  - destruct H as ([[a1 b1] c1] & [[a2 b2] c2] & -> & -> & H).
    unfold key_lt, key_ltb, key_eqb in *. destruct c.
    + inversion H; subst. symmetry. lia.
    + symmetry. lia.
    + symmetry. lia.
  - destruct H as [-> | ->]; [reflexivity | now destruct (key (Prim2SF x))].
Qed.

Lemma eqb_key x y :
  (x =? y) =
  match fkey x, fkey y with
  | Some kx, Some ky => key_eqb kx ky
  | _, _ => false
  end.
Proof.
  rewrite FloatAxioms.eqb_spec. unfold SFeqb, fkey.
  pose proof (SFcompare_key (Prim2SF x) (Prim2SF y)) as H.
  destruct (SFcompare (Prim2SF x) (Prim2SF y)) as [c|].
  - destruct H as ([[a1 b1] c1] & [[a2 b2] c2] & -> & -> & H).
    unfold key_lt, key_ltb, key_eqb in *. destruct c.
    + inversion H; subst. symmetry. lia.
    + symmetry. lia.
    + symmetry. lia.
  - destruct H as [-> | ->]; [reflexivity | now destruct (key (Prim2SF x))].
Qed.

Lemma fkey_zero : fkey 0 = Some (0, 0, 0)%Z.
Proof. reflexivity. Qed.

Lemma fkey_infinity : fkey infinity = Some (2, 0, 0)%Z.
Proof. reflexivity. Qed.

(** Rewrites every comparison of doubles into a comparison of keys, splits
    on the keys and leaves linear integer arithmetic. *)
Ltac by_keys :=
  unfold gtb, geb, is_nan, is_zero, PrimFloat.zero in *;
  rewrite ?ltb_key, ?leb_key, ?eqb_key in *;
  rewrite ?fkey_zero, ?fkey_infinity in *;
  cbv beta iota in *;
  repeat match goal with
    | |- context [match fkey ?x with Some _ => _ | None => _ end] =>
        destruct (fkey x) as [[[? ?] ?]|] eqn:?
    | H : context [match fkey ?x with Some _ => _ | None => _ end] |- _ =>
        destruct (fkey x) as [[[? ?] ?]|] eqn:?
    end;
  unfold key_ltb, key_eqb in *; cbv beta iota in *;
  try discriminate; try reflexivity; try lia.

Lemma leb_trans x y z : (x <=? y) = true -> (y <=? z) = true -> (x <=? z) = true.
Proof. intros. by_keys. Qed.

Lemma leb_ltb_trans x y z : (x <=? y) = true -> (y <? z) = true -> (x <? z) = true.
Proof. intros. by_keys. Qed.

Lemma ltb_leb_trans x y z : (x <? y) = true -> (y <=? z) = true -> (x <? z) = true.
Proof. intros. by_keys. Qed.

Lemma ltb_leb x y : (x <? y) = true -> (x <=? y) = true.
Proof. intros. by_keys. Qed.

Lemma leb_antisym x y : (x <=? y) = true -> (y <=? x) = true -> (x =? y) = true.
Proof. intros. by_keys. Qed.

Lemma eqb_leb x y : (x =? y) = true -> (x <=? y) = true.
Proof. intros. by_keys. Qed.

Lemma eqb_sym x y : (x =? y) = (y =? x).
Proof. by_keys. Qed.

Lemma leb_not_ltb x y : (x <=? y) = true -> (y <? x) = false.
Proof. intros. by_keys. Qed.

Lemma ltb_not_leb x y : (x <? y) = true -> (y <=? x) = false.
Proof. intros. by_keys. Qed.

(** Two doubles that are not NaN are comparable. *)
Lemma not_leb_ltb x y :
  is_nan x = false -> is_nan y = false -> (x <=? y) = false -> (y <? x) = true.
Proof. intros. by_keys. Qed.

Lemma leb_not_nan_l x y : (x <=? y) = true -> is_nan x = false.
Proof. intros. by_keys. Qed.

Lemma leb_not_nan_r x y : (x <=? y) = true -> is_nan y = false.
Proof. intros. by_keys. Qed.

Lemma leb_refl x : is_nan x = false -> (x <=? x) = true.
Proof. intros. by_keys. Qed.
End FloatOrder.

Module FloatFacts.
Import FloatOrder.

Lemma fkey_bound x a b c : fkey x = Some (a, b, c) -> (a < 2 \/ (a = 2 /\ b = 0 /\ c = 0))%Z.
Proof.
  unfold fkey. destruct (Prim2SF x) as [[]|[]| |[] m e]; simpl; intros H; inversion H; lia.
Qed.

Lemma leb_infinity x : is_nan x = false -> (x <=? infinity) = true.
Proof.
  intros H. unfold is_nan in H. rewrite eqb_key in H. rewrite leb_key, fkey_infinity.
  destruct (fkey x) as [[[a b] c]|] eqn:E; [|discriminate].
  apply fkey_bound in E. unfold key_ltb, key_eqb. lia.
Qed.

Lemma infinity_ltb x : (infinity <? x) = false.
Proof.
  rewrite ltb_key, fkey_infinity.
  destruct (fkey x) as [[[a b] c]|] eqn:E; [|reflexivity].
  apply fkey_bound in E. unfold key_ltb. lia.
Qed.

(** A double that compares equal to zero is one of the two zeros. *)
Lemma is_zero_cases x : is_zero x = true -> x = 0 \/ x = (-0).
Proof.
  unfold is_zero. rewrite FloatAxioms.eqb_spec. unfold SFeqb.
  intros H. destruct (Prim2SF x) as [[]|[]| |[] m e] eqn:E; simpl in H; try discriminate.
  - right. apply Prim2SF_inj. rewrite E. reflexivity.
  - left. apply Prim2SF_inj. rewrite E. reflexivity.
Qed.

Lemma is_finite_cases x :
  is_finite x = true ->
  (exists s, Prim2SF x = S754_zero s) \/ (exists s m e, Prim2SF x = S754_finite s m e).
Proof.
  unfold is_finite, is_nan, is_infinity.
  rewrite !FloatAxioms.eqb_spec, abs_spec. unfold SFeqb.
  destruct (Prim2SF x) as [s|[]| |s m e]; simpl; intros H; try discriminate; eauto.
Qed.

(** Zero times a finite double is a zero. *)
Lemma mul_zero_l x z : is_zero z = true -> is_finite x = true -> is_zero (z * x) = true.
Proof.
  intros Hz Hx. unfold is_zero in *. rewrite FloatAxioms.eqb_spec in *. rewrite mul_spec.
  unfold SFeqb in *.
  destruct (is_finite_cases x Hx) as [[s ->]|(s & m & e & ->)];
    destruct (Prim2SF z) as [[]|[]| |[] mz ez]; simpl in *; try discriminate; destruct s; reflexivity.
Qed.

Lemma mul_zero_r x z : is_zero z = true -> is_finite x = true -> is_zero (x * z) = true.
Proof.
  intros Hz Hx. unfold is_zero in *. rewrite FloatAxioms.eqb_spec in *. rewrite mul_spec.
  unfold SFeqb in *.
  destruct (is_finite_cases x Hx) as [[s ->]|(s & m & e & ->)];
    destruct (Prim2SF z) as [[]|[]| |[] mz ez]; simpl in *; try discriminate; destruct s; reflexivity.
Qed.

(** [std::max(0.0, d)] is [0.0] unless [d] is strictly positive. *)
Lemma fmax_zero d : (0 <? d) = false -> fmax 0 d = 0.
Proof. unfold fmax. now intros ->. Qed.

Lemma ltb_zero_not_pos d : (d <? 0) = true -> (0 <? d) = false.
Proof. intros. by_keys. Qed.
End FloatFacts.

(** ** Rounding is monotone: the two roots are computed in order

    [Sphere::intersect] computes [t0 = (-b - q) / d] and [t1 = (-b + q) / d]
    with [q] a square root and [d = 2.0 * a] twice a sum of squares.  In
    exact arithmetic [t0 <= t1]; the modules below show that the doubles
    computed are in the same order, because rounding to nearest is monotone:
    [-b - q] is not above [-b + q], and dividing both by the same [d] of
    sign bit [false] keeps the order. *)

(** *** Powers of two and numbers of digits *)
Module Digits.
Import Rounding.
Local Open Scope Z_scope.

Lemma pow2_pos k : 0 <= k -> 0 < 2 ^ k.
Proof. intros. apply Z.pow_pos_nonneg; lia. Qed.

Lemma pow2_succ k : 0 <= k -> 2 ^ (k + 1) = 2 * 2 ^ k.
Proof. intros. rewrite Z.pow_add_r by lia. lia. Qed.

Lemma pow2_le a b : 0 <= a <= b -> 2 ^ a <= 2 ^ b.
Proof. intros. apply Z.pow_le_mono_r; lia. Qed.

Lemma digits2_pos_bounds p :
  2 ^ (Zpos (digits2_pos p) - 1) <= Zpos p < 2 ^ Zpos (digits2_pos p).
Proof.
  induction p as [p IH|p IH|]; simpl digits2_pos.
  - rewrite Pos2Z.inj_succ.
    replace (Z.succ (Zpos (digits2_pos p)) - 1) with (Zpos (digits2_pos p) - 1 + 1) by lia.
    unfold Z.succ. rewrite !pow2_succ by lia. lia.
  - rewrite Pos2Z.inj_succ.
    replace (Z.succ (Zpos (digits2_pos p)) - 1) with (Zpos (digits2_pos p) - 1 + 1) by lia.
    unfold Z.succ. rewrite !pow2_succ by lia. lia.
  - simpl. lia.
Qed.

Lemma dig_0 : dig 0 = 0.
Proof. reflexivity. Qed.

Lemma dig_bounds m : 0 < m -> 0 < dig m /\ 2 ^ (dig m - 1) <= m < 2 ^ dig m.
Proof.
  destruct m as [|p|p]; try lia. intros _. unfold dig, Zdigits2.
  split; [lia|apply digits2_pos_bounds].
Qed.

Lemma dig_nonneg m : 0 <= dig m.
Proof. destruct m; unfold dig; simpl; lia. Qed.

Lemma dig_unique m d : 0 < m -> 2 ^ (d - 1) <= m < 2 ^ d -> dig m = d.
Proof.
  intros Hm [Hlo Hhi]. destruct (dig_bounds m Hm) as (Hd & Hlo' & Hhi').
  assert (0 < d) as Hdpos.
  { destruct (Z.lt_trichotomy d 0) as [H|[H|H]]; [|subst; simpl in Hhi; lia|assumption].
    rewrite Z.pow_neg_r in Hhi by assumption. lia. }
  destruct (Z.lt_trichotomy (dig m) d) as [H|[H|H]]; [|assumption|].
  - pose proof (pow2_le (dig m) (d - 1) ltac:(lia)). lia.
  - pose proof (pow2_le d (dig m - 1) ltac:(lia)). lia.
Qed.

Lemma dig_mono m1 m2 : 0 <= m1 <= m2 -> dig m1 <= dig m2.
Proof.
  intros [H1 H2]. destruct (Z.eq_dec m1 0) as [->|Hne]; [rewrite dig_0; apply dig_nonneg|].
  destruct (dig_bounds m1 ltac:(lia)) as (Hd1 & Hlo1 & Hhi1).
  destruct (dig_bounds m2 ltac:(lia)) as (Hd2 & Hlo2 & Hhi2).
  destruct (Z_lt_le_dec (dig m2) (dig m1)) as [H|H]; [|assumption].
  pose proof (pow2_le (dig m2) (dig m1 - 1) ltac:(lia)). lia.
Qed.

Lemma dig_lt_pow m k : 0 <= m -> 0 <= k -> m < 2 ^ k -> dig m <= k.
Proof.
  intros Hm Hk Hlt. destruct (Z.eq_dec m 0) as [->|Hne]; [rewrite dig_0; lia|].
  destruct (dig_bounds m ltac:(lia)) as (Hd & Hlo & Hhi).
  destruct (Z_lt_le_dec k (dig m)) as [H|H]; [|assumption].
  pose proof (pow2_le k (dig m - 1) ltac:(lia)). lia.
Qed.

Lemma dig_ge_pow m k : 0 <= k -> 2 ^ k <= m -> k + 1 <= dig m.
Proof.
  intros Hk Hle. pose proof (pow2_pos k Hk) as Hp.
  destruct (dig_bounds m ltac:(lia)) as (Hd & Hlo & Hhi).
  destruct (Z_lt_le_dec (dig m) (k + 1)) as [H|H]; [|assumption].
  pose proof (pow2_le (dig m) k ltac:(lia)). lia.
Qed.

Lemma dig_mul_pow2 m k : 0 < m -> 0 <= k -> dig (m * 2 ^ k) = dig m + k.
Proof.
  intros Hm Hk. destruct (dig_bounds m Hm) as (Hd & Hlo & Hhi).
  pose proof (pow2_pos k Hk) as Hp.
  apply dig_unique; [nia|].
  replace (dig m + k - 1) with (dig m - 1 + k) by lia.
  rewrite !Z.pow_add_r by lia. nia.
Qed.

Lemma div_pow2_bounds m n :
  0 < m -> 0 <= n < dig m ->
  2 ^ (dig m - n - 1) <= m / 2 ^ n < 2 ^ (dig m - n).
Proof.
  intros Hm Hn. destruct (dig_bounds m Hm) as (Hd & Hlo & Hhi).
  pose proof (pow2_pos n ltac:(lia)).
  split.
  - apply Z.div_le_lower_bound; [lia|].
    rewrite <- Z.pow_add_r by lia. now replace (n + (dig m - n - 1)) with (dig m - 1) by lia.
  - apply Z.div_lt_upper_bound; [lia|].
    rewrite <- Z.pow_add_r by lia. now replace (n + (dig m - n)) with (dig m) by lia.
Qed.

Lemma dig_div_pow2 m n : 0 < m -> 0 <= n < dig m -> dig (m / 2 ^ n) = dig m - n.
Proof.
  intros Hm Hn. pose proof (div_pow2_bounds m n Hm Hn) as [Hlo Hhi].
  pose proof (pow2_pos (dig m - n - 1) ltac:(lia)).
  apply dig_unique; [lia|]. split; assumption.
Qed.

Lemma div_pow2_zero m n : 0 <= m -> dig m <= n -> m / 2 ^ n = 0.
Proof.
  intros Hm Hn. pose proof (dig_nonneg m) as Hd0.
  pose proof (pow2_pos n ltac:(lia)) as Hp.
  destruct (Z.eq_dec m 0) as [->|Hne]; [apply Z.div_0_l; lia|].
  destruct (dig_bounds m ltac:(lia)) as (Hd & Hlo & Hhi).
  apply Z.div_small. split; [lia|].
  pose proof (pow2_le (dig m) n ltac:(lia)). lia.
Qed.

End Digits.

(** *** Shifting a mantissa to the right, and rounding it *)
Module Shift.
Import Rounding Digits.
Local Open Scope Z_scope.

Lemma shr_1_nonneg m r s :
  0 <= m ->
  shr_1 (Build_shr_record m r s) = Build_shr_record (m / 2) (Z.odd m) (r || s).
Proof.
  intros Hm. destruct m as [|p|p]; [reflexivity| |lia].
  destruct p as [p|p|]; simpl shr_1.
  - rewrite <- (Z.div_unique (Zpos p~1) 2 (Zpos p) 1) by lia. reflexivity.
  - rewrite <- (Z.div_unique (Zpos p~0) 2 (Zpos p) 0) by lia. reflexivity.
  - reflexivity.
Qed.

Lemma iter_pos_nat {A : Type} (f : A -> A) p : forall x,
  SpecFloat.iter_pos f p x = Nat.iter (Pos.to_nat p) f x.
Proof.
  induction p as [p IH|p IH|]; intros x; simpl SpecFloat.iter_pos.
  - rewrite !IH, Pos2Nat.inj_xI.
    replace (S (2 * Pos.to_nat p)) with (Pos.to_nat p + (Pos.to_nat p + 1))%nat by lia.
    rewrite !Nat.iter_add. simpl. reflexivity.
  - rewrite !IH, Pos2Nat.inj_xO.
    replace (2 * Pos.to_nat p)%nat with (Pos.to_nat p + Pos.to_nat p)%nat by lia.
    now rewrite Nat.iter_add.
  - reflexivity.
Qed.

Lemma shr_nonneg mrs e n :
  0 <= n -> shr mrs e n = (shrn (Z.to_nat n) mrs, e + n).
Proof.
  intros Hn. unfold shr, shrn. destruct n as [|p|p]; [|  |lia].
  - simpl. now rewrite Z.add_0_r.
  - now rewrite iter_pos_nat.
Qed.

Lemma shr_nonpos mrs e n : n <= 0 -> shr mrs e n = (mrs, e).
Proof. intros Hn. unfold shr. destruct n as [|p|p]; try reflexivity. lia. Qed.

Lemma shrn_S n R : shrn (S n) R = shr_1 (shrn n R).
Proof. reflexivity. Qed.

Lemma shrn_add a b R : shrn (a + b) R = shrn a (shrn b R).
Proof. unfold shrn. apply Nat.iter_add. Qed.

Lemma shrn_m n : forall m r s,
  0 <= m -> shr_m (shrn n (Build_shr_record m r s)) = m / 2 ^ Z.of_nat n.
Proof.
  induction n as [|n IH]; intros m r s Hm.
  - simpl. now rewrite Z.div_1_r.
  - rewrite shrn_S.
    specialize (IH m r s Hm).
    destruct (shrn n (Build_shr_record m r s)) as [m' r' s'] eqn:E. cbn [shr_m] in IH.
    assert (0 <= m') as Hm' by (subst m'; apply Z.div_pos; [lia|apply pow2_pos; lia]).
    rewrite shr_1_nonneg by assumption. cbn [shr_m]. subst m'.
    rewrite Nat2Z.inj_succ, Z.pow_succ_r by lia.
    rewrite Z.div_div by (try apply pow2_pos; lia). f_equal. lia.
Qed.

Lemma shrn_m_nonneg n R : 0 <= shr_m R -> 0 <= shr_m (shrn n R).
Proof.
  destruct R as [m r s]. simpl. intros Hm. rewrite shrn_m by assumption.
  apply Z.div_pos; [lia|apply pow2_pos; lia].
Qed.

Lemma shr_1_mono R1 R2 : 0 <= shr_m R1 -> rle R1 R2 -> rle (shr_1 R1) (shr_1 R2).
Proof.
  destruct R1 as [m1 r1 s1], R2 as [m2 r2 s2]. unfold rle. cbn [shr_m].
  intros Hm1 H.
  assert (0 <= m2) as Hm2 by lia.
  rewrite !shr_1_nonneg by assumption. unfold rank. cbn [shr_m shr_r shr_s].
  pose proof (Z.div2_odd m1) as D1. rewrite Z.div2_div in D1.
  pose proof (Z.div2_odd m2) as D2. rewrite Z.div2_div in D2.
  unfold rank in H. cbn [shr_r shr_s] in H.
  destruct (Z.odd m1), (Z.odd m2), r1, s1, r2, s2;
    cbv beta iota delta [Z.b2z orb] in *; lia.
Qed.

Lemma shrn_mono n : forall R1 R2,
  0 <= shr_m R1 -> rle R1 R2 -> rle (shrn n R1) (shrn n R2).
Proof.
  induction n as [|n IH]; intros R1 R2 Hm H; [assumption|].
  rewrite !shrn_S. apply shr_1_mono; [now apply shrn_m_nonneg|now apply IH].
Qed.

Lemma shrn_1 R : shrn 1 R = shr_1 R.
Proof. reflexivity. Qed.

(** Shifting out zeros is exact. *)
Lemma shrn_exact n : forall m,
  0 <= m ->
  shrn n (Build_shr_record (m * 2 ^ Z.of_nat n) false false) = Build_shr_record m false false.
Proof.
  induction n as [|n IH]; intros m Hm.
  - rewrite Z.pow_0_r, Z.mul_1_r. reflexivity.
  - replace (S n) with (n + 1)%nat at 1 by lia. rewrite shrn_add, shrn_1.
    pose proof (pow2_pos (Z.of_nat n) ltac:(lia)) as Hp.
    rewrite Nat2Z.inj_succ, Z.pow_succ_r by lia.
    rewrite shr_1_nonneg by nia.
    replace (m * (2 * 2 ^ Z.of_nat n)) with ((m * 2 ^ Z.of_nat n) * 2) by lia.
    rewrite Z.div_mul by lia. rewrite Z.odd_mul. cbn [Z.odd orb]. rewrite andb_false_r.
    now apply IH.
Qed.

Lemma rnd_bounds R : shr_m R <= rnd R <= shr_m R + 1.
Proof.
  destruct R as [m [] []]; unfold rnd; simpl; try lia.
  destruct (Z.even m); lia.
Qed.

Lemma rnd_mono R1 R2 : rle R1 R2 -> rnd R1 <= rnd R2.
Proof.
  intros [H|[H H']].
  - pose proof (rnd_bounds R1). pose proof (rnd_bounds R2). lia.
  - destruct R1 as [m1 r1 s1], R2 as [m2 r2 s2]. unfold rnd, rank in *. simpl in *. subst m2.
    destruct r1, s1, r2, s2; simpl in *; try lia; destruct (Z.even m1); lia.
Qed.

End Shift.

(** *** [binary_round_aux] as one shift and one rounding *)
Module Round.
Import Rounding Digits Shift.
Local Open Scope Z_scope.

Lemma fexp_spec k : fexp k = Z.max (k - 53) (-1074).
Proof. reflexivity. Qed.

Lemma fexp_mono a b : a <= b -> fexp a <= fexp b.
Proof. rewrite !fexp_spec. lia. Qed.

Lemma shr_m_recl m l : shr_m (recl m l) = m.
Proof. destruct l as [|[]]; reflexivity. Qed.

Lemma shr_fexp_spec m e l :
  0 <= m -> e <= fexp (dig m + e) ->
  shr_fexp prec emax m e l
  = (shrn (Z.to_nat (fexp (dig m + e) - e)) (recl m l), fexp (dig m + e)).
Proof.
  intros Hm He. unfold shr_fexp. fold (dig m). fold (fexp (dig m + e)). fold (recl m l).
  rewrite shr_nonneg by lia. f_equal. lia.
Qed.

Lemma shr_fexp_id m e :
  0 <= m -> fexp (dig m + e) <= e ->
  shr_fexp prec emax m e loc_Exact = (recl m loc_Exact, e).
Proof.
  intros Hm He. unfold shr_fexp. fold (dig m). fold (fexp (dig m + e)).
  now rewrite shr_nonpos by lia.
Qed.

Lemma rounded_facts R e :
  0 <= shr_m R -> e <= fexp (dig (shr_m R) + e) ->
  0 <= rounded R e /\ rounded R e <= 2 ^ 53 /\
  (rounded R e < 2 ^ 53 ->
   fexp (dig (rounded R e) + fexp (dig (shr_m R) + e)) <= fexp (dig (shr_m R) + e)).
Proof.
  intros Hm He. unfold rounded.
  set (E := fexp (dig (shr_m R) + e)) in *.
  set (n := Z.to_nat (E - e)).
  pose proof (rnd_bounds (shrn n R)) as [Hlo Hhi].
  assert (shr_m (shrn n R) = shr_m R / 2 ^ (E - e)) as Hq.
  { destruct R as [m r s]. cbn [shr_m] in *. unfold n. rewrite shrn_m by assumption.
    now rewrite Z2Nat.id by lia. }
  pose proof (pow2_pos (E - e) ltac:(lia)) as Hp.
  assert (0 <= shr_m (shrn n R)) as Hq0.
  { rewrite Hq. apply Z.div_pos; lia. }
  assert (dig (shr_m (shrn n R)) <= 53) as Hd53.
  { rewrite Hq. unfold E in *. rewrite fexp_spec in *.
    destruct (Z.eq_dec (shr_m R) 0) as [E0|E0].
    - rewrite E0 in *. rewrite Z.div_0_l by lia. rewrite dig_0 in *. lia.
    - destruct (Z_lt_le_dec (Z.max (dig (shr_m R) + e - 53) (-1074) - e) (dig (shr_m R)))
        as [Hlt|Hge].
      + rewrite dig_div_pow2 by lia. lia.
      + rewrite div_pow2_zero by lia. rewrite dig_0. lia. }
  assert (shr_m (shrn n R) < 2 ^ 53) as Hq53.
  { destruct (Z.eq_dec (shr_m (shrn n R)) 0) as [E0|E0]; [rewrite E0; reflexivity|].
    destruct (dig_bounds (shr_m (shrn n R)) ltac:(lia)) as (_ & _ & Hb).
    pose proof (pow2_le (dig (shr_m (shrn n R))) 53
                  ltac:(pose proof (dig_nonneg (shr_m (shrn n R))); lia)). lia. }
  split; [lia|]. split; [lia|].
  intros Hlt.
  set (r := rnd (shrn n R)) in *.
  assert (dig r <= 53) as Hr53 by (apply dig_lt_pow; lia).
  assert (-1074 <= E) as HE by (unfold E; rewrite fexp_spec; lia).
  rewrite fexp_spec. lia.
Qed.

Lemma rounded_carry R e :
  0 <= shr_m R -> e <= fexp (dig (shr_m R) + e) ->
  (dig (rounded R e) <=? 53) = false -> rounded R e = 2 ^ 53.
Proof.
  intros Hm He Hd. destruct (rounded_facts R e Hm He) as (H0 & H53 & _).
  destruct (Z.eq_dec (rounded R e) (2 ^ 53)) as [E|E]; [assumption|].
  pose proof (dig_lt_pow (rounded R e) 53 H0 ltac:(lia) ltac:(lia)). lia.
Qed.

(** [binary_round_aux] on a non-negative mantissa given at or below its
    canonical exponent. *)
Lemma binary_round_aux_result sx m e l :
  0 <= m -> e <= fexp (dig m + e) ->
  binary_round_aux prec emax sx m e l = result sx (recl m l) e.
Proof.
  intros Hm He. unfold binary_round_aux, result.
  rewrite shr_fexp_spec by assumption.
  rewrite shr_m_recl.
  set (E := fexp (dig m + e)).
  change (round_nearest_even (shr_m ?R) (loc_of_shr_record ?R)) with (rnd R).
  assert (rnd (shrn (Z.to_nat (E - e)) (recl m l)) = rounded (recl m l) e) as Hr
    by (unfold rounded; now rewrite shr_m_recl).
  rewrite Hr.
  pose proof (rounded_facts (recl m l) e) as Hf. rewrite !shr_m_recl in Hf.
  destruct (Hf Hm He) as (H0 & H53 & Hfe). fold E in Hfe.
  destruct (dig (rounded (recl m l) e) <=? 53) eqn:Hd.
  - assert (rounded (recl m l) e < 2 ^ 53) as Hlt.
    { destruct (Z.eq_dec (rounded (recl m l) e) (2 ^ 53)) as [E'|E']; [|lia].
      rewrite E' in Hd. vm_compute in Hd. discriminate. }
    rewrite shr_fexp_id by (try apply Hfe; assumption).
    rewrite shr_m_recl. reflexivity.
  - pose proof (rounded_carry (recl m l) e) as Hc. rewrite shr_m_recl in Hc.
    rewrite (Hc Hm He Hd).
    assert (-1074 <= E) as HE by (unfold E; rewrite fexp_spec; lia).
    rewrite shr_fexp_spec.
    + change (dig (2 ^ 53)) with 54.
      assert (fexp (54 + E) = E + 1) as -> by (rewrite fexp_spec; lia).
      replace (E + 1 - E) with 1 by lia. reflexivity.
    + vm_compute. discriminate.
    + change (dig (2 ^ 53)) with 54. rewrite fexp_spec. lia.
Qed.

End Round.

(** *** Rounding is monotone, and does not depend on the exponent at which
    the mantissa is given *)
Module Mono.
Import FloatKey Rounding Digits Shift Round.
Local Open Scope Z_scope.

Lemma key_le_intro a1 b1 c1 a2 b2 c2 :
  a1 < a2 \/ (a1 = a2 /\ (b1 < b2 \/ (b1 = b2 /\ c1 <= c2))) ->
  key_lt (a1, b1, c1) (a2, b2, c2) \/ (a1, b1, c1) = (a2, b2, c2).
Proof.
  intros H. unfold key_lt.
  destruct (Z.eq_dec a1 a2) as [->|]; [|left; lia].
  destruct (Z.eq_dec b1 b2) as [->|]; [|left; lia].
  destruct (Z.eq_dec c1 c2) as [->|]; [right; reflexivity|left; lia].
Qed.

Lemma key_finish_false r E :
  0 <= r ->
  key (finish false r E)
  = if r =? 0 then Some (0, 0, 0)
    else if E <=? 971 then Some (1, E, r) else Some (2, 0, 0).
Proof.
  intros Hr. destruct r as [|p|p]; [reflexivity| |lia].
  unfold finish. change (emax - prec) with 971.
  destruct (Z.eqb_spec (Zpos p) 0) as [H|H]; [discriminate|].
  destruct (E <=? 971); reflexivity.
Qed.

(** The key of a result, by the rounded mantissa. *)
Lemma key_result R e :
  0 <= shr_m R -> e <= fexp (dig (shr_m R) + e) ->
  key (result false R e)
  = let E := fexp (dig (shr_m R) + e) in
    let r := rounded R e in
    if r =? 0 then Some (0, 0, 0)
    else if r <? 2 ^ 53 then (if E <=? 971 then Some (1, E, r) else Some (2, 0, 0))
    else (if E + 1 <=? 971 then Some (1, E + 1, 2 ^ 52) else Some (2, 0, 0)).
Proof.
  intros Hm He. unfold result. cbv zeta.
  destruct (rounded_facts R e Hm He) as (H0 & H53 & _).
  destruct (dig (rounded R e) <=? 53) eqn:Hd.
  - rewrite key_finish_false by assumption.
    destruct (rounded R e =? 0) eqn:E0; [reflexivity|].
    assert (rounded R e < 2 ^ 53) as Hlt.
    { destruct (Z.eq_dec (rounded R e) (2 ^ 53)) as [E'|E']; [|lia].
      rewrite E' in Hd. vm_compute in Hd. discriminate. }
    destruct (Z.ltb_spec (rounded R e) (2 ^ 53)); [reflexivity|lia].
  - rewrite (rounded_carry R e Hm He Hd).
    rewrite key_finish_false by (vm_compute; discriminate).
    reflexivity.
Qed.

(** In the normal range the rounded mantissa has at least 53 digits. *)
Lemma rounded_normal R e :
  0 <= shr_m R -> e <= fexp (dig (shr_m R) + e) ->
  -1074 < fexp (dig (shr_m R) + e) ->
  2 ^ 52 <= rounded R e.
Proof.
  intros Hm He Hn. unfold rounded.
  set (E := fexp (dig (shr_m R) + e)) in *.
  pose proof (rnd_bounds (shrn (Z.to_nat (E - e)) R)) as [Hlo _].
  assert (shr_m (shrn (Z.to_nat (E - e)) R) = shr_m R / 2 ^ (E - e)) as Hq.
  { destruct R as [m r s]. cbn [shr_m] in *. rewrite shrn_m by assumption.
    now rewrite Z2Nat.id by lia. }
  assert (E = dig (shr_m R) + e - 53) as HE by (unfold E in *; rewrite fexp_spec in *; lia).
  assert (0 < shr_m R) as Hpos.
  { destruct (Z.eq_dec (shr_m R) 0) as [E0|E0]; [|lia].
    rewrite E0, dig_0 in HE. lia. }
  pose proof (div_pow2_bounds (shr_m R) (E - e) Hpos ltac:(lia)) as [Hb _].
  replace (dig (shr_m R) - (E - e) - 1) with 52 in Hb by lia. lia.
Qed.

(** Rounding at one exponent is monotone. *)
Lemma result_mono R1 R2 e :
  0 <= shr_m R1 -> rle R1 R2 ->
  e <= fexp (dig (shr_m R1) + e) ->
  ord (result false R1 e) (result false R2 e).
Proof.
  intros Hm1 Hle He1.
  assert (shr_m R1 <= shr_m R2) as Hm12 by (destruct Hle as [H|[H _]]; lia).
  assert (0 <= shr_m R2) as Hm2 by lia.
  pose proof (dig_mono (shr_m R1) (shr_m R2) ltac:(lia)) as Hdig.
  pose proof (fexp_mono (dig (shr_m R1) + e) (dig (shr_m R2) + e) ltac:(lia)) as HE.
  assert (e <= fexp (dig (shr_m R2) + e)) as He2 by lia.
  unfold ord. rewrite !key_result by assumption. cbv zeta.
  destruct (rounded_facts R1 e Hm1 He1) as (H10 & H153 & _).
  destruct (rounded_facts R2 e Hm2 He2) as (H20 & H253 & _).
  set (E1 := fexp (dig (shr_m R1) + e)) in *.
  set (E2 := fexp (dig (shr_m R2) + e)) in *.
  assert (-1074 <= E1) as HE1 by (unfold E1; rewrite fexp_spec; lia).
  change (2 ^ 52) with 4503599627370496 in *.
  change (2 ^ 53) with 9007199254740992 in *.
  destruct (Z.eq_dec E1 E2) as [Heq|Hne].
  - (* same exponent: the rounded mantissas are in order *)
    assert (rounded R1 e <= rounded R2 e) as Hr.
    { unfold rounded. fold E1 E2. rewrite <- Heq.
      apply rnd_mono. now apply shrn_mono. }
    rewrite <- Heq.
    destruct (Z.eqb_spec (rounded R1 e) 0), (Z.eqb_spec (rounded R2 e) 0),
      (Z.ltb_spec (rounded R1 e) 9007199254740992),
      (Z.ltb_spec (rounded R2 e) 9007199254740992),
      (Z.leb_spec E1 971), (Z.leb_spec (E1 + 1) 971);
      try lia; apply key_le_intro; lia.
  - (* the second is in the normal range, one exponent up at least *)
    assert (4503599627370496 <= rounded R2 e) as Hr2
      by (apply rounded_normal; [assumption|assumption|fold E2; lia]).
    destruct (Z.eqb_spec (rounded R1 e) 0), (Z.eqb_spec (rounded R2 e) 0),
      (Z.ltb_spec (rounded R1 e) 9007199254740992),
      (Z.ltb_spec (rounded R2 e) 9007199254740992),
      (Z.leb_spec E1 971), (Z.leb_spec (E1 + 1) 971),
      (Z.leb_spec E2 971), (Z.leb_spec (E2 + 1) 971);
      try lia; apply key_le_intro; lia.
Qed.

(** A mantissa given more precisely rounds to the same result. *)
Lemma result_shift sx R e k :
  0 <= shr_m R -> 0 <= k -> e + k <= fexp (dig (shr_m R) + e) ->
  result sx R e = result sx (shrn (Z.to_nat k) R) (e + k).
Proof.
  intros Hm Hk He.
  assert (shr_m (shrn (Z.to_nat k) R) = shr_m R / 2 ^ k) as Hq.
  { destruct R as [m r s]. cbn [shr_m] in *. rewrite shrn_m by assumption.
    now rewrite Z2Nat.id by lia. }
  assert (fexp (dig (shr_m (shrn (Z.to_nat k) R)) + (e + k)) = fexp (dig (shr_m R) + e)) as HE.
  { rewrite Hq. rewrite !fexp_spec in *.
    destruct (Z.eq_dec (shr_m R) 0) as [E0|E0].
    - rewrite E0 in *. rewrite Z.div_0_l by (pose proof (pow2_pos k Hk); lia).
      rewrite dig_0 in *. lia.
    - destruct (Z_lt_le_dec k (dig (shr_m R))) as [Hlt|Hge].
      + rewrite dig_div_pow2 by lia. lia.
      + rewrite div_pow2_zero by lia. rewrite dig_0. lia. }
  unfold result, rounded. rewrite HE.
  set (E := fexp (dig (shr_m R) + e)) in *.
  replace (Z.to_nat (E - e)) with (Z.to_nat (E - (e + k)) + Z.to_nat k)%nat by lia.
  now rewrite shrn_add.
Qed.

End Mono.

(** *** Opposites, and results that are not below zero *)
Module Signs.
Import FloatKey Rounding Digits Shift Round Mono.
Local Open Scope Z_scope.

(** Rounding commutes with taking the opposite. *)
Lemma binary_round_aux_opp m e l :
  binary_round_aux prec emax true m e l = SFopp (binary_round_aux prec emax false m e l).
Proof.
  unfold binary_round_aux.
  destruct (shr_fexp prec emax m e l) as [R' e'].
  destruct (shr_fexp prec emax _ e' loc_Exact) as [R'' e''].
  destruct (shr_m R''); try reflexivity.
  destruct (e'' <=? emax - prec); reflexivity.
Qed.

Lemma key_opp f : key (SFopp f) = option_map kopp (key f).
Proof.
  destruct f as [[]|[]| |[] m e]; simpl; try reflexivity.
  now rewrite !Z.opp_involutive.
Qed.

(** Taking opposites reverses the order. *)
Lemma ord_opp f1 f2 : ord f1 f2 -> ord (SFopp f2) (SFopp f1).
Proof.
  unfold ord. rewrite !key_opp.
  destruct (key f1) as [[[a1 b1] c1]|], (key f2) as [[[a2 b2] c2]|]; simpl; auto.
  intros [H|H].
  - left. unfold key_lt in *. lia.
  - right. congruence.
Qed.

Lemma ord_refl f : ord f f.
Proof. unfold ord. destruct (key f) as [[[a b] c]|]; auto. Qed.

(** A rounded result of sign bit [false] is zero or above zero. *)
Lemma key_result_nonneg R e :
  0 <= shr_m R -> e <= fexp (dig (shr_m R) + e) ->
  key_nonneg (key (result false R e)).
Proof.
  intros Hm He. unfold key_nonneg. rewrite key_result by assumption. cbv zeta.
  destruct (rounded R e =? 0); [eexists _, _, _; split; [reflexivity|now right]|].
  destruct (rounded R e <? 2 ^ 53).
  - destruct (_ <=? 971); eexists _, _, _; (split; [reflexivity|left; lia]).
  - destruct (_ <=? 971); eexists _, _, _; (split; [reflexivity|left; lia]).
Qed.

Lemma ord_zero_nonneg f : key_nonneg (key f) -> ord (S754_zero false) f.
Proof.
  intros (a & b & c & Hk & H). unfold ord. rewrite Hk. simpl.
  destruct H as [H|H]; [left; unfold key_lt; lia|right; congruence].
Qed.

Lemma ord_opp_nonneg f1 f2 :
  key_nonneg (key f1) -> key_nonneg (key f2) -> ord (SFopp f1) f2.
Proof.
  intros (a1 & b1 & c1 & Hk1 & H1) (a2 & b2 & c2 & Hk2 & H2).
  unfold ord. rewrite key_opp, Hk1, Hk2. simpl.
  destruct H1 as [H1|[= -> -> ->]], H2 as [H2|[= -> -> ->]];
    try (left; unfold key_lt; lia).
  now right.
Qed.

End Signs.

(** *** Addition and subtraction: rounding an integer multiple of [2^e] *)
Module Addition.
Import FloatKey Rounding Digits Shift Round Mono Signs.
Local Open Scope Z_scope.

Lemma iter_xO m d : Zpos (Pos.iter xO m d) = Zpos m * 2 ^ Zpos d.
Proof.
  induction d as [|d IH] using Pos.peano_ind.
  - simpl. lia.
  - rewrite Pos.iter_succ, Pos2Z.inj_succ, Z.pow_succ_r by lia.
    rewrite Pos2Z.inj_xO, IH. lia.
Qed.

(** [shl_align] multiplies the mantissa by a power of two to reach a lower
    exponent, and leaves it as it is otherwise. *)
Lemma shl_align_le mx ex ex' :
  ex' <= ex -> shl_align mx ex ex' = (Z.to_pos (Zpos mx * 2 ^ (ex - ex')), ex').
Proof.
  intros H. unfold shl_align.
  destruct (ex' - ex) as [|d|d] eqn:E; try lia.
  - assert (ex = ex') as -> by lia. rewrite Z.sub_diag. simpl.
    now rewrite Pos.mul_1_r.
  - replace (ex - ex') with (Zpos d) by lia. rewrite <- iter_xO. reflexivity.
Qed.

Lemma shl_align_ge mx ex ex' : ex <= ex' -> shl_align mx ex ex' = (mx, ex).
Proof.
  intros H. unfold shl_align.
  destruct (ex' - ex) as [|d|d] eqn:E; try lia; reflexivity.
Qed.

(** [binary_round] as a rounding of the mantissa given at any exponent [c]
    at or below the canonical one. *)
Lemma binary_round_at p e c :
  c <= e -> c <= fexp (dig (Zpos p) + e) ->
  binary_round prec emax false p e
  = result false (recl (Zpos p * 2 ^ (e - c)) loc_Exact) c.
Proof.
  intros Hce HcE. unfold binary_round.
  change (Z.pos (digits2_pos p)) with (dig (Z.pos p)).
  change (SpecFloat.fexp prec emax (dig (Z.pos p) + e)) with (fexp (dig (Z.pos p) + e)).
  set (E := fexp (dig (Zpos p) + e)) in *.
  set (e0 := Z.min e E).
  assert (shl_align p e E = (Z.to_pos (Zpos p * 2 ^ (e - e0)), e0)) as ->.
  { destruct (Z_le_gt_dec E e) as [H|H].
    - rewrite shl_align_le by assumption. now replace e0 with E by lia.
    - rewrite shl_align_ge by lia. replace e0 with e by lia.
      rewrite Z.sub_diag. simpl. now rewrite Pos.mul_1_r. }
  pose proof (pow2_pos (e - e0) ltac:(lia)) as Hp0.
  rewrite Z2Pos.id by nia.
  assert (dig (Zpos p * 2 ^ (e - e0)) + e0 = dig (Zpos p) + e) as Hd0
    by (rewrite dig_mul_pow2 by lia; lia).
  rewrite binary_round_aux_result by (try nia; rewrite Hd0; fold E; lia).
  (* from [e0] down to [c] *)
  pose proof (pow2_pos (e - c) ltac:(lia)) as Hpc.
  assert (dig (Zpos p * 2 ^ (e - c)) + c = dig (Zpos p) + e) as Hdc
    by (rewrite dig_mul_pow2 by lia; lia).
  rewrite (result_shift false (recl (Zpos p * 2 ^ (e - c)) loc_Exact) c (e0 - c)).
  - replace (c + (e0 - c)) with e0 by lia. f_equal.
    unfold recl. cbn [shr_record_of_loc].
    replace (Zpos p * 2 ^ (e - c)) with (Zpos p * 2 ^ (e - e0) * 2 ^ Z.of_nat (Z.to_nat (e0 - c))).
    + now rewrite shrn_exact by nia.
    + rewrite Z2Nat.id by lia. rewrite <- Z.mul_assoc, <- Z.pow_add_r by lia.
      f_equal. f_equal. lia.
  - rewrite shr_m_recl. nia.
  - lia.
  - rewrite shr_m_recl, Hdc. fold E. lia.
Qed.

Lemma binary_round_mono p1 p2 e :
  (p1 <= p2)%positive ->
  ord (binary_round prec emax false p1 e) (binary_round prec emax false p2 e).
Proof.
  intros Hp.
  pose proof (dig_mono (Zpos p1) (Zpos p2) ltac:(lia)) as Hd.
  pose proof (fexp_mono (dig (Zpos p1) + e) (dig (Zpos p2) + e) ltac:(lia)) as HE.
  set (c := Z.min e (fexp (dig (Zpos p1) + e))).
  rewrite (binary_round_at p1 e c) by lia.
  rewrite (binary_round_at p2 e c) by lia.
  pose proof (pow2_pos (e - c) ltac:(lia)) as Hpc.
  apply result_mono.
  - rewrite shr_m_recl. nia.
  - unfold rle, recl. cbn [shr_record_of_loc shr_m rank shr_r shr_s].
    destruct (Z.eq_dec (Zpos p1) (Zpos p2)) as [->|Hne]; [right; split; lia|left; nia].
  - rewrite shr_m_recl, dig_mul_pow2 by lia.
    replace (dig (Zpos p1) + (e - c) + c) with (dig (Zpos p1) + e) by lia. lia.
Qed.

Lemma binary_round_opp p e :
  binary_round prec emax true p e = SFopp (binary_round prec emax false p e).
Proof.
  unfold binary_round. destruct (shl_align p e _) as [mz ez].
  apply binary_round_aux_opp.
Qed.

Lemma binary_round_nonneg p e :
  key_nonneg (key (binary_round prec emax false p e)).
Proof.
  set (c := Z.min e (fexp (dig (Zpos p) + e))).
  rewrite (binary_round_at p e c) by lia.
  pose proof (pow2_pos (e - c) ltac:(lia)) as Hpc.
  apply key_result_nonneg.
  - rewrite shr_m_recl. nia.
  - rewrite shr_m_recl, dig_mul_pow2 by lia.
    replace (dig (Zpos p) + (e - c) + c) with (dig (Zpos p) + e) by lia. lia.
Qed.

(** Rounding an integer multiple of [2^e] is monotone. *)
Lemma binary_normalize_mono m1 m2 e :
  m1 <= m2 ->
  ord (binary_normalize prec emax m1 e false) (binary_normalize prec emax m2 e false).
Proof.
  intros Hm. unfold binary_normalize.
  destruct m1 as [|p1|p1], m2 as [|p2|p2]; try lia.
  - apply ord_refl.
  - apply ord_zero_nonneg, binary_round_nonneg.
  - apply binary_round_mono. lia.
  - rewrite binary_round_opp.
    apply (ord_opp_nonneg _ (S754_zero false)); [apply binary_round_nonneg|].
    eexists _, _, _; split; [reflexivity|now right].
  - rewrite binary_round_opp. apply ord_opp_nonneg; apply binary_round_nonneg.
  - rewrite !binary_round_opp. apply ord_opp. apply binary_round_mono. lia.
Qed.

End Addition.

(** *** Division: rounding a quotient with the position of its remainder *)
Module Division.
Import FloatKey Rounding Digits Shift Round Mono Signs Addition.
Local Open Scope Z_scope.

(** The round and sticky bits of a quotient, by the remainder. *)
Lemma quot_unfold N M :
  0 <= N -> 0 < M ->
  quot N M = Build_shr_record (N / M) (M <=? 2 * (N mod M))
               (negb (N mod M =? 0) && negb (2 * (N mod M) =? M)).
Proof.
  intros HN HM. unfold quot, recl, new_location, new_location_even, new_location_odd.
  pose proof (Z.mod_pos_bound N M HM) as Hr.
  destruct (Z.even M) eqn:Ev; cbv beta; destruct (N mod M =? 0) eqn:E0;
    cbn [shr_record_of_loc andb negb]; try (f_equal; lia).
  - destruct (Z.compare_spec (2 * (N mod M)) M) as [H|H|H]; cbn [shr_record_of_loc];
      f_equal; lia.
  - assert (2 * (N mod M) <> M) as Hne.
    { intros H. rewrite <- H, Z.even_mul in Ev. discriminate. }
    destruct (Z.compare_spec (2 * (N mod M) + 1) M) as [H|H|H]; cbn [shr_record_of_loc];
      f_equal; lia.
Qed.

(** One shift to the right of the quotient of [2 * N] is the quotient of
    [N]: the remainder is located the same way. *)
Lemma quot_double N M : 0 <= N -> 0 < M -> shr_1 (quot (2 * N) M) = quot N M.
Proof.
  intros HN HM. rewrite !quot_unfold by lia.
  pose proof (Z.mod_pos_bound N M HM) as Hr.
  pose proof (Z.div_mod N M ltac:(lia)) as HNeq.
  set (q := N / M) in *. set (r := N mod M) in *.
  assert (0 <= q) as Hq by (apply Z.div_pos; lia).
  destruct (Z_lt_le_dec (2 * r) M) as [H|H].
  - assert ((2 * N) / M = 2 * q) as Hq2
      by (symmetry; apply (Z.div_unique _ _ _ (2 * r)); lia).
    assert ((2 * N) mod M = 2 * r) as Hr2
      by (symmetry; apply (Z.mod_unique _ _ (2 * q)); lia).
    rewrite Hq2, Hr2, shr_1_nonneg by lia.
    f_equal.
    + rewrite Z.mul_comm, Z.div_mul by lia. reflexivity.
    + rewrite Z.odd_mul. simpl. lia.
    + lia.
  - assert ((2 * N) / M = 2 * q + 1) as Hq2
      by (symmetry; apply (Z.div_unique _ _ _ (2 * r - M)); lia).
    assert ((2 * N) mod M = 2 * r - M) as Hr2
      by (symmetry; apply (Z.mod_unique _ _ (2 * q + 1)); lia).
    rewrite Hq2, Hr2, shr_1_nonneg by lia.
    f_equal.
    + symmetry. apply (Z.div_unique _ _ _ 1); lia.
    + rewrite Z.odd_add, Z.odd_mul. simpl. lia.
    + lia.
Qed.

Lemma quot_shift n : forall N M,
  0 <= N -> 0 < M -> shrn n (quot (N * 2 ^ Z.of_nat n) M) = quot N M.
Proof.
  induction n as [|n IH]; intros N M HN HM.
  - now rewrite Z.pow_0_r, Z.mul_1_r.
  - rewrite Nat2Z.inj_succ, Z.pow_succ_r by lia.
    replace (S n) with (n + 1)%nat by lia. rewrite shrn_add, shrn_1.
    replace (N * (2 * 2 ^ Z.of_nat n)) with (2 * (N * 2 ^ Z.of_nat n)) by lia.
    pose proof (pow2_pos (Z.of_nat n) ltac:(lia)).
    rewrite quot_double by nia. now apply IH.
Qed.

(** The quotient with its remainder is monotone in the dividend. *)
Lemma quot_mono N1 N2 M : 0 <= N1 <= N2 -> 0 < M -> rle (quot N1 M) (quot N2 M).
Proof.
  intros HN HM. rewrite !quot_unfold by lia.
  unfold rle, rank. cbn [shr_m shr_r shr_s].
  pose proof (Z.div_le_mono N1 N2 M HM ltac:(lia)) as Hq.
  pose proof (Z.mod_pos_bound N1 M HM) as Hr1.
  pose proof (Z.mod_pos_bound N2 M HM) as Hr2.
  pose proof (Z.div_mod N1 M ltac:(lia)) as E1.
  pose proof (Z.div_mod N2 M ltac:(lia)) as E2.
  destruct (Z.eq_dec (N1 / M) (N2 / M)) as [E|E]; [right|left; lia].
  split; [assumption|].
  assert (N1 mod M <= N2 mod M) as Hr by (rewrite E in E1; lia).
  destruct (M <=? 2 * (N1 mod M)) eqn:A1, (M <=? 2 * (N2 mod M)) eqn:A2,
    (N1 mod M =? 0) eqn:B1, (N2 mod M =? 0) eqn:B2,
    (2 * (N1 mod M) =? M) eqn:C1, (2 * (N2 mod M) =? M) eqn:C2;
    cbn [negb andb]; lia.
Qed.

Lemma quot_m N M : shr_m (quot N M) = N / M.
Proof. apply shr_m_recl. Qed.

(** What [SFdiv_core_binary] computes. *)
Lemma div_core_spec m1 e1 m2 e2 :
  0 < m1 -> 0 < m2 ->
  let e' := div_exp m1 e1 m2 e2 in
  let N := m1 * 2 ^ (e1 - e2 - e') in
  SFdiv_core_binary prec emax m1 e1 m2 e2 = (N / m2, e', new_location m2 (N mod m2)).
Proof.
  intros H1 H2 e' N. unfold SFdiv_core_binary.
  change (Zdigits2 m1) with (dig m1). change (Zdigits2 m2) with (dig m2).
  change (SpecFloat.fexp prec emax (dig m1 + e1 - (dig m2 + e2)))
    with (fexp (dig m1 + e1 - (dig m2 + e2))).
  fold (div_exp m1 e1 m2 e2). fold e'. cbv zeta.
  assert (0 <= e1 - e2 - e') as Hs by (unfold e', div_exp; lia).
  assert (match e1 - e2 - e' with
          | 0 => m1 | Z.pos _ => Z.shiftl m1 (e1 - e2 - e') | Z.neg _ => 0 end = N) as ->.
  { unfold N. destruct (e1 - e2 - e') as [|s|s] eqn:E; [simpl; lia| |lia].
    now rewrite Z.shiftl_mul_pow2 by lia. }
  unfold Z.div, Z.modulo. destruct (Z.div_eucl N m2). reflexivity.
Qed.

(** A lower bound on the number of digits of a quotient. *)
Lemma dig_quot m1 s m2 :
  0 < m1 -> 0 < m2 -> 0 <= s ->
  dig m1 + s - dig m2 <= dig (m1 * 2 ^ s / m2).
Proof.
  intros H1 H2 Hs.
  destruct (dig_bounds m1 H1) as (Hd1 & Hlo1 & Hhi1).
  destruct (dig_bounds m2 H2) as (Hd2 & Hlo2 & Hhi2).
  destruct (Z_le_gt_dec (dig m1 + s - dig m2) 0) as [H|H];
    [pose proof (dig_nonneg (m1 * 2 ^ s / m2)); lia|].
  set (j := dig m1 + s - dig m2 - 1).
  assert (2 ^ j <= m1 * 2 ^ s / m2) as Hj.
  { apply Z.div_le_lower_bound; [lia|].
    pose proof (pow2_pos j ltac:(lia)) as Hpj.
    pose proof (pow2_pos s Hs) as Hps.
    assert (2 ^ (dig m1 - 1) * 2 ^ s = 2 ^ j * 2 ^ dig m2) as E.
    { rewrite <- !Z.pow_add_r by lia. f_equal. lia. }
    nia. }
  pose proof (dig_ge_pow _ j ltac:(lia) Hj). lia.
Qed.

(** Division of positive finite numbers as a rounding of the quotient taken
    at any exponent [c] at or below the one of [SFdiv_core_binary]. *)
Lemma div_at m1 e1 m2 e2 c :
  0 < m1 -> 0 < m2 -> c <= div_exp m1 e1 m2 e2 ->
  (let '(mz, ez, lz) := SFdiv_core_binary prec emax m1 e1 m2 e2 in
   binary_round_aux prec emax false mz ez lz)
  = result false (quot (m1 * 2 ^ (e1 - e2 - c)) m2) c.
Proof.
  intros H1 H2 Hc. rewrite div_core_spec by assumption. cbv zeta.
  set (e' := div_exp m1 e1 m2 e2) in *.
  assert (e' <= e1 - e2 /\ e' <= fexp (dig m1 + e1 - (dig m2 + e2))) as [He1 He2]
    by (unfold e', div_exp; lia).
  pose proof (pow2_pos (e1 - e2 - e') ltac:(lia)) as Hp.
  pose proof (pow2_pos (e1 - e2 - c) ltac:(lia)) as Hpc.
  pose proof (dig_quot m1 (e1 - e2 - e') m2 H1 H2 ltac:(lia)) as Hd.
  pose proof (dig_quot m1 (e1 - e2 - c) m2 H1 H2 ltac:(lia)) as Hdc.
  rewrite binary_round_aux_result.
  - fold (quot (m1 * 2 ^ (e1 - e2 - e')) m2).
    rewrite (result_shift false (quot (m1 * 2 ^ (e1 - e2 - c)) m2) c (e' - c)).
    + replace (c + (e' - c)) with e' by lia. f_equal.
      replace (m1 * 2 ^ (e1 - e2 - c))
        with (m1 * 2 ^ (e1 - e2 - e') * 2 ^ Z.of_nat (Z.to_nat (e' - c))).
      * rewrite quot_shift by nia. reflexivity.
      * rewrite Z2Nat.id by lia. rewrite <- Z.mul_assoc, <- Z.pow_add_r by lia.
        f_equal. f_equal. lia.
    + rewrite quot_m. apply Z.div_pos; nia.
    + lia.
    + rewrite quot_m. replace (c + (e' - c)) with e' by lia.
      etransitivity; [exact He2|]. apply fexp_mono. lia.
  - apply Z.div_pos; nia.
  - etransitivity; [exact He2|]. apply fexp_mono. lia.
Qed.

(** Canonical positive mantissas: order of keys gives order of values. *)
Lemma canonical_value_le mx ex my ey c :
  0 < mx -> 0 < my ->
  fexp (dig mx + ex) = ex -> fexp (dig my + ey) = ey ->
  ex < ey \/ (ex = ey /\ mx <= my) ->
  c <= ex ->
  mx * 2 ^ (ex - c) <= my * 2 ^ (ey - c).
Proof.
  intros Hx Hy Cx Cy Hle Hc.
  destruct Hle as [Hlt|[-> Hm]].
  - rewrite fexp_spec in Cx, Cy.
    destruct (dig_bounds mx Hx) as (Hdx & Hlox & Hhix).
    destruct (dig_bounds my Hy) as (Hdy & Hloy & Hhiy).
    assert (dig my = 53) as Ey by lia.
    assert (dig mx <= 53) as Ex by lia.
    rewrite Ey in Hloy. simpl in Hloy.
    pose proof (pow2_le (dig mx) 53 ltac:(lia)) as H53.
    assert (mx < 2 * 2 ^ 52) by (change (2 * 2 ^ 52) with (2 ^ 53); lia).
    pose proof (pow2_pos (ex - c) ltac:(lia)) as Hp.
    pose proof (pow2_le (ex - c + 1) (ey - c) ltac:(lia)) as Hp2.
    rewrite pow2_succ in Hp2 by lia. nia.
  - pose proof (pow2_pos (ey - c) ltac:(lia)) as Hp. nia.
Qed.

(** Division by a positive finite number is monotone on positive finite
    numbers. *)
Lemma div_mono_pos mx ex my ey md ed :
  0 < mx -> 0 < my -> 0 < md ->
  fexp (dig mx + ex) = ex -> fexp (dig my + ey) = ey ->
  ex < ey \/ (ex = ey /\ mx <= my) ->
  ord (let '(mz, ez, lz) := SFdiv_core_binary prec emax mx ex md ed in
       binary_round_aux prec emax false mz ez lz)
      (let '(mz, ez, lz) := SFdiv_core_binary prec emax my ey md ed in
       binary_round_aux prec emax false mz ez lz).
Proof.
  intros Hx Hy Hd Cx Cy Hle.
  pose proof (dig_mono mx my) as Hdm.
  assert (dig mx + ex <= dig my + ey) as Hmag.
  { destruct Hle as [Hlt|[-> Hm]]; [|lia].
    rewrite fexp_spec in Cx, Cy. lia. }
  assert (ex <= ey) as Hee by lia.
  set (c := div_exp mx ex md ed).
  assert (c <= div_exp my ey md ed) as Hc.
  { unfold c, div_exp.
    pose proof (fexp_mono (dig mx + ex - (dig md + ed)) (dig my + ey - (dig md + ed)) ltac:(lia)).
    lia. }
  rewrite (div_at mx ex md ed c) by (assumption || lia).
  rewrite (div_at my ey md ed c) by (assumption || lia).
  assert (c <= ex - ed) as Hce by (unfold c, div_exp; lia).
  pose proof (canonical_value_le mx ex my ey (c + ed) Hx Hy Cx Cy Hle ltac:(lia)) as Hv.
  replace (ex - (c + ed)) with (ex - ed - c) in Hv by lia.
  replace (ey - (c + ed)) with (ey - ed - c) in Hv by lia.
  pose proof (pow2_pos (ex - ed - c) ltac:(lia)) as Hp.
  apply result_mono.
  - rewrite quot_m. apply Z.div_pos; nia.
  - apply quot_mono; [nia|assumption].
  - rewrite quot_m.
    pose proof (dig_quot mx (ex - ed - c) md Hx Hd ltac:(lia)) as Hq.
    assert (c <= fexp (dig mx + ex - (dig md + ed))) as Hcf by (unfold c, div_exp; lia).
    etransitivity; [exact Hcf|]. apply fexp_mono. lia.
Qed.

Lemma div_nonneg m1 e1 m2 e2 :
  0 < m1 -> 0 < m2 ->
  key_nonneg (key (let '(mz, ez, lz) := SFdiv_core_binary prec emax m1 e1 m2 e2 in
                   binary_round_aux prec emax false mz ez lz)).
Proof.
  intros H1 H2.
  rewrite (div_at m1 e1 m2 e2 (div_exp m1 e1 m2 e2)) by (assumption || lia).
  set (c := div_exp m1 e1 m2 e2).
  assert (c <= e1 - e2 /\ c <= fexp (dig m1 + e1 - (dig m2 + e2))) as [He1 He2]
    by (unfold c, div_exp; lia).
  pose proof (pow2_pos (e1 - e2 - c) ltac:(lia)) as Hp.
  apply key_result_nonneg.
  - rewrite quot_m. apply Z.div_pos; nia.
  - rewrite quot_m.
    pose proof (dig_quot m1 (e1 - e2 - c) m2 H1 H2 ltac:(lia)) as Hq.
    etransitivity; [exact He2|]. apply fexp_mono. lia.
Qed.

End Division.

(** *** The two roots *)
Module Roots.
Import FloatKey Rounding Digits Shift Round Mono Signs Addition Division.
Local Open Scope Z_scope.

(** Squares, sums of squares and square roots have sign bit [false]. *)
Lemma binary_round_aux_sign sx m e l : sign_is sx (binary_round_aux prec emax sx m e l).
Proof.
  unfold binary_round_aux.
  destruct (shr_fexp prec emax m e l) as [R' e'].
  destruct (shr_fexp prec emax _ e' loc_Exact) as [R'' e''].
  destruct (shr_m R''); simpl; try reflexivity.
  destruct (e'' <=? emax - prec); reflexivity.
Qed.

Lemma SFmul_square_sign x : sign_is false (SFmul prec emax x x).
Proof.
  destruct x as [s|s| |s m e]; simpl; try apply xorb_nilpotent; try exact I.
  rewrite xorb_nilpotent. apply binary_round_aux_sign.
Qed.

Lemma SFmul_sign x y :
  sign_is false x -> sign_is false y -> sign_is false (SFmul prec emax x y).
Proof.
  destruct x as [s|s| |s m e], y as [s'|s'| |s' m' e']; simpl;
    try (intros -> ->; reflexivity); try (intros; exact I).
  intros -> ->. apply binary_round_aux_sign.
Qed.

Lemma binary_round_sign sx m e : sign_is sx (binary_round prec emax sx m e).
Proof.
  unfold binary_round. destruct (shl_align m e _) as [mz ez].
  apply binary_round_aux_sign.
Qed.

Lemma SFadd_sign x y :
  sign_is false x -> sign_is false y -> sign_is false (SFadd prec emax x y).
Proof.
  destruct x as [s|s| |s m e], y as [s'|s'| |s' m' e'];
    try (simpl; intros -> ->; reflexivity); try (simpl; intros; exact I).
  simpl sign_is. intros -> ->. unfold SFadd. cbn [cond_Zopp].
  match goal with
  | |- context [Z.pos ?a + Z.pos ?b] => change (Z.pos a + Z.pos b) with (Z.pos (a + b))
  end.
  cbv zeta. unfold binary_normalize. apply binary_round_sign.
Qed.

Lemma SFsqrt_range x : sqrt_range (SFsqrt prec emax x).
Proof.
  destruct x as [s|[]| |[] m e]; simpl; try exact I; try reflexivity.
  destruct (SFsqrt_core_binary prec emax (Z.pos m) e) as [[mz ez] lz].
  pose proof (binary_round_aux_sign false mz ez lz) as H.
  destruct (binary_round_aux prec emax false mz ez lz); simpl in *; auto.
Qed.

(** Subtracting a square root gives no more than adding it. *)
Lemma SFsub_SFadd_ord x q :
  sqrt_range q -> ord (SFsub prec emax x q) (SFadd prec emax x q).
Proof.
  destruct x as [sx|sx| |sx mx ex], q as [sq|sq| |sq mq eq];
    try (unfold ord; simpl;
         try (intros ->); try (intros _);
         try exact I;
         destruct sx; try destruct sq; simpl; try exact I;
         first [right; reflexivity | left; unfold key_lt; lia]).
  simpl sqrt_range. intros ->. unfold SFsub, SFadd. cbv zeta. cbn [cond_Zopp].
  apply binary_normalize_mono. lia.
Qed.

(** The mantissa of a double is canonical. *)
Lemma valid_canonical s m e :
  valid_binary (S754_finite s m e) = true -> fexp (dig (Zpos m) + e) = e.
Proof.
  unfold SpecFloat.valid_binary, bounded, canonical_mantissa.
  change (Z.pos (digits2_pos m)) with (dig (Z.pos m)).
  change (SpecFloat.fexp prec emax (dig (Z.pos m) + e)) with (fexp (dig (Z.pos m) + e)).
  lia.
Qed.

Lemma ord_neg_infinity f : ord (S754_infinity true) f.
Proof.
  unfold ord. destruct f as [[]|[]| |[] m e]; simpl; auto;
    first [right; reflexivity | left; unfold key_lt; lia].
Qed.

Lemma ord_pos_infinity f : ord f (S754_infinity false).
Proof.
  unfold ord. destruct f as [[]|[]| |[] m e]; simpl; auto;
    first [right; reflexivity | left; unfold key_lt; lia].
Qed.

Lemma ord_nan_r f : ord f S754_nan.
Proof. unfold ord. now destruct (key f). Qed.

Lemma ord_zeros s s' : ord (S754_zero s) (S754_zero s').
Proof. unfold ord; simpl; now right. Qed.

Ltac ord_edge :=
  first [ exact I | apply ord_nan_r | apply ord_zeros
        | apply ord_neg_infinity | apply ord_pos_infinity ].

Lemma key_nonneg_zero s : key_nonneg (key (S754_zero s)).
Proof. eexists _, _, _; split; [reflexivity|now right]. Qed.

Lemma ord_key_le x y :
  ord x y ->
  match key x, key y with
  | Some (a1, b1, c1), Some (a2, b2, c2) =>
      a1 < a2 \/ (a1 = a2 /\ (b1 < b2 \/ (b1 = b2 /\ c1 <= c2)))
  | _, _ => True
  end.
Proof.
  unfold ord. destruct (key x) as [[[a1 b1] c1]|], (key y) as [[[a2 b2] c2]|]; auto.
  unfold key_lt. intros [H|[= -> -> ->]]; lia.
Qed.

(** Division by a value of sign bit [false] is monotone. *)
Lemma SFdiv_mono x y d :
  valid_binary x = true -> valid_binary y = true ->
  sign_is false d -> ord x y ->
  ord (SFdiv prec emax x d) (SFdiv prec emax y d).
Proof.
  intros Vx Vy Hd Hxy. apply ord_key_le in Hxy.
  destruct d as [sd|sd| |sd md ed]; simpl in Hd; subst.
  - (* division by +0 *)
    destruct x as [sx|sx| |sx mx ex], y as [sy|sy| |sy my ey]; simpl; try ord_edge;
      rewrite ?xorb_false_r;
      destruct sx, sy; simpl in Hxy; try lia; ord_edge.
  - (* division by +infinity *)
    destruct x as [sx|sx| |sx mx ex], y as [sy|sy| |sy my ey]; simpl; ord_edge.
  - destruct x as [sx|sx| |sx mx ex]; simpl; ord_edge.
  - (* division by a positive finite number *)
    destruct x as [sx|sx| |sx mx ex], y as [sy|sy| |sy my ey]; simpl; try ord_edge;
      rewrite ?xorb_false_r.
    + destruct sy; [destruct sx; simpl in Hxy; lia|apply ord_pos_infinity].
    + destruct sy; [destruct sx; simpl in Hxy; lia|].
      apply ord_zero_nonneg. apply div_nonneg; lia.
    + destruct sx; [apply ord_neg_infinity|destruct sy; simpl in Hxy; lia].
    + destruct sx; [apply ord_neg_infinity|destruct sy; [simpl in Hxy; lia|apply ord_pos_infinity]].
    + destruct sx; [apply ord_neg_infinity|destruct sy; simpl in Hxy; lia].
    + destruct sx; [|destruct sy; simpl in Hxy; lia].
      destruct (SFdiv_core_binary prec emax (Z.pos mx) ex (Z.pos md) ed) as [[mz ez] lz] eqn:E.
      rewrite binary_round_aux_opp.
      apply (ord_opp_nonneg _ (S754_zero sy)); [|apply key_nonneg_zero].
      pose proof (div_nonneg (Z.pos mx) ex (Z.pos md) ed ltac:(lia) ltac:(lia)) as H.
      now rewrite E in H.
    + destruct sy; [destruct sx; simpl in Hxy; lia|apply ord_pos_infinity].
    + apply valid_canonical in Vx, Vy.
      destruct sx, sy; simpl in Hxy.
      * (* both negative *)
        pose proof (div_mono_pos (Z.pos my) ey (Z.pos mx) ex (Z.pos md) ed
                      ltac:(lia) ltac:(lia) ltac:(lia) Vy Vx ltac:(lia)) as H.
        destruct (SFdiv_core_binary prec emax (Z.pos mx) ex (Z.pos md) ed) as [[mz ez] lz].
        destruct (SFdiv_core_binary prec emax (Z.pos my) ey (Z.pos md) ed) as [[mz' ez'] lz'].
        rewrite !binary_round_aux_opp. now apply ord_opp.
      * pose proof (div_nonneg (Z.pos mx) ex (Z.pos md) ed ltac:(lia) ltac:(lia)) as H1.
        pose proof (div_nonneg (Z.pos my) ey (Z.pos md) ed ltac:(lia) ltac:(lia)) as H2.
        destruct (SFdiv_core_binary prec emax (Z.pos mx) ex (Z.pos md) ed) as [[mz ez] lz].
        destruct (SFdiv_core_binary prec emax (Z.pos my) ey (Z.pos md) ed) as [[mz' ez'] lz'].
        rewrite binary_round_aux_opp. now apply ord_opp_nonneg.
      * lia.
      * apply div_mono_pos; lia.
Qed.

Import FloatOrder.
Local Open Scope float_scope.

(** In double arithmetic [(nb - q) / d] is never above [(nb + q) / d] when
    [q] is a square root and [d] has sign bit [false]. *)
Lemma roots_in_order (nb q d : float) :
  sqrt_range (Prim2SF q) -> sign_is false (Prim2SF d) ->
  ((nb + q) / d <? (nb - q) / d) = false.
Proof.
  intros Hq Hd. rewrite ltb_key. unfold fkey.
  pose proof (SFdiv_mono (Prim2SF (nb - q)) (Prim2SF (nb + q)) (Prim2SF d)
                (Prim2SF_valid _) (Prim2SF_valid _) Hd) as H.
  rewrite sub_spec, add_spec in H at 1.
  specialize (H (SFsub_SFadd_ord (Prim2SF nb) (Prim2SF q) Hq)).
  rewrite <- !div_spec in H. apply ord_key_le in H.
  destruct (key (Prim2SF ((nb + q) / d))) as [[[a1 b1] c1]|]; [|reflexivity].
  destruct (key (Prim2SF ((nb - q) / d))) as [[[a2 b2] c2]|]; [|reflexivity].
  unfold key_ltb. lia.
Qed.

Lemma sqrt_in_range x : sqrt_range (Prim2SF (sqrt x)).
Proof. rewrite sqrt_spec. apply SFsqrt_range. Qed.

Lemma dot_self_sign v : sign_is false (Prim2SF (Vec3.dot v v)).
Proof.
  unfold Vec3.dot. rewrite !add_spec, !mul_spec.
  repeat apply SFadd_sign; apply SFmul_square_sign.
Qed.

(** For every sphere and every ray, the root [t1] computed by
    [Sphere::intersect] is not below the root [t0]. *)
Theorem roots_always_ordered s ray : Quadratic.roots_ordered s ray = true.
Proof.
  unfold Quadratic.roots_ordered, Quadratic.t0, Quadratic.t1.
  rewrite roots_in_order; [reflexivity|apply sqrt_in_range|].
  rewrite mul_spec. apply SFmul_sign; [reflexivity|apply dot_self_sign].
Qed.

End Roots.

(** ** Rounding is accurate: the length of a normalized vector

    [Vec3::normalize] divides each component by the square root of the sum
    of the squares.  Each of these operations returns the double nearest to
    the exact result, so, when no intermediate result leaves the range of
    the normal doubles, it is off by a factor between [1 - 2^-52] and
    [1 + 2^-52] at most.  The modules below show this for the four
    operations and compose the nine roundings: the exact sum of the squares
    of the components of the result is within [2^-49] of 1. *)

(** *** Powers of two as rational numbers *)
Module Powers.
Local Open Scope Z_scope.

Lemma q2_pos e : (0 < 2 ^ e)%Q.
Proof. apply Qpower_0_lt. reflexivity. Qed.

Lemma q2_add a b : (2 ^ (a + b) == 2 ^ a * 2 ^ b)%Q.
Proof. apply Qpower_plus. discriminate. Qed.

Lemma q2_Z k : 0 <= k -> (inject_Z (2 ^ k) == 2 ^ k)%Q.
Proof. intros. now rewrite Zpower_Qpower. Qed.

Lemma q2_le a b : a <= b -> (2 ^ a <= 2 ^ b)%Q.
Proof. intros. apply Qpower_le_compat_l; [assumption|discriminate]. Qed.

Lemma q2_le_inv a b : (2 ^ a <= 2 ^ b)%Q -> a <= b.
Proof. intros H. apply (Qpower_le_compat_l_inv 2); [assumption|reflexivity]. Qed.

Lemma q2_lt_inv a b : (2 ^ a < 2 ^ b)%Q -> a < b.
Proof. intros H. apply (Qpower_lt_compat_l_inv 2); [assumption|reflexivity]. Qed.

End Powers.

(** *** One rounding *)
Module Enclosure.
Import FloatKey Rounding Digits Shift Round Mono Dyadic Powers.
Local Open Scope Z_scope.

(** The relative error of one rounding. *)
Lemma ulp_fraction : (2 ^ (-52) == 1 # 4503599627370496)%Q.
Proof. reflexivity. Qed.

Lemma inject_pow2_dig m : 0 < m -> (inject_Z m < 2 ^ dig m)%Q /\ (2 ^ (dig m - 1) <= inject_Z m)%Q.
Proof.
  intros Hm. destruct (dig_bounds m Hm) as (Hd & Hlo & Hhi).
  rewrite <- !q2_Z by lia. rewrite <- Zlt_Qlt, <- Zle_Qle. lia.
Qed.

(** The double obtained by rounding a number [v] above zero, known by the
    integer part [m] of [v / 2^c] and the position of the rest, encloses
    [v] within one unit in the last place, when [v] is in the range of the
    normal doubles. *)
Lemma round_enclosure R c (v : Q) :
  0 < shr_m R -> c <= fexp (dig (shr_m R) + c) ->
  (inject_Z (shr_m R) * 2 ^ c <= v)%Q -> (v <= inject_Z (shr_m R + 1) * 2 ^ c)%Q ->
  (2 ^ (-1020) <= v)%Q -> (v <= 2 ^ 1022)%Q ->
  exists p E,
    result false R c = S754_finite false p E /\
    (inject_Z (Zpos p) * 2 ^ E * (1 - 2 ^ (-52)) <= v)%Q /\
    (v <= inject_Z (Zpos p) * 2 ^ E * (1 + 2 ^ (-52)))%Q.
Proof.
  intros Hm Hc Hlo Hhi Hmin Hmax.
  set (m := shr_m R) in *. set (E0 := fexp (dig m + c)) in *.
  destruct (inject_pow2_dig m Hm) as [Hd1 Hd2].
  pose proof (q2_pos c) as Hpc.
  (* the magnitude of [v] gives the exponent *)
  assert (-1020 <= dig m + c) as Hdl.
  { apply q2_le_inv. eapply Qle_trans; [exact Hmin|]. eapply Qle_trans; [exact Hhi|].
    rewrite q2_add. apply Qmult_le_compat_r; [|now apply Qlt_le_weak].
    rewrite <- q2_Z by (apply dig_nonneg). rewrite <- Zle_Qle.
    destruct (dig_bounds m Hm) as (_ & _ & ?). lia. }
  assert (dig m + c <= 1023) as Hdh.
  { assert (dig m - 1 + c <= 1022); [|lia].
    apply q2_le_inv. eapply Qle_trans; [|exact Hmax]. eapply Qle_trans; [|exact Hlo].
    rewrite q2_add. apply Qmult_le_compat_r; [assumption|now apply Qlt_le_weak]. }
  assert (E0 = dig m + c - 53) as HE0 by (unfold E0; rewrite fexp_spec; lia).
  (* the rounded mantissa *)
  set (n := E0 - c).
  assert (0 <= n) as Hn by (unfold n; lia).
  pose proof (rnd_bounds (shrn (Z.to_nat n) R)) as [Hr1 Hr2].
  assert (shr_m (shrn (Z.to_nat n) R) = m / 2 ^ n) as Hq.
  { unfold m. destruct R as [m0 r0 s0]. cbn [shr_m] in *. rewrite shrn_m by lia.
    now rewrite Z2Nat.id by lia. }
  rewrite Hq in Hr1, Hr2.
  pose proof (rounded_normal R c ltac:(fold m; lia) Hc ltac:(fold m; fold E0; lia)) as Hnorm.
  destruct (rounded_facts R c ltac:(fold m; lia) Hc) as (_ & Hr53 & _).
  pose proof (rounded_carry R c ltac:(fold m; lia) Hc) as Hcarry.
  unfold rounded in Hnorm, Hr53, Hcarry. fold m in Hnorm, Hr53, Hcarry.
  fold E0 in Hnorm, Hr53, Hcarry. fold n in Hnorm, Hr53, Hcarry.
  set (r := rnd (shrn (Z.to_nat n) R)) in *.
  pose proof (pow2_pos n Hn) as Hpn.
  pose proof (Z.div_mod m (2 ^ n) ltac:(lia)) as Hdm.
  pose proof (Z.mod_pos_bound m (2 ^ n) Hpn) as Hmod.
  set (f := m / 2 ^ n) in *.
  (* the value of the result *)
  assert (exists p E, result false R c = S754_finite false p E /\
            (inject_Z (Zpos p) * 2 ^ E == inject_Z r * 2 ^ E0)%Q) as (p & E & Hres & HV).
  { unfold result. cbv zeta. unfold rounded. fold m. fold E0. fold n. fold r.
    destruct (dig r <=? 53) eqn:Hdig.
    - destruct r as [|p|p] eqn:Er; try lia. unfold finish.
      change (emax - prec) with 971. destruct (Z.leb_spec E0 971); [|lia].
      exists p, E0. split; reflexivity.
    - rewrite (Hcarry eq_refl). unfold finish. change (2 ^ 52) with (Zpos 4503599627370496).
      change (emax - prec) with 971. destruct (Z.leb_spec (E0 + 1) 971); [|lia].
      exists 4503599627370496%positive, (E0 + 1). split; [reflexivity|].
      rewrite q2_add. change (2 ^ 1)%Q with (2 # 1)%Q.
      change (2 ^ 53) with 9007199254740992. 
      change (inject_Z 9007199254740992) with (inject_Z 4503599627370496 * (2 # 1))%Q at 1.
      ring. }
  exists p, E. split; [exact Hres|].
  rewrite HV, ulp_fraction.
  (* the enclosure by the neighbours *)
  pose proof (q2_pos E0) as HP.
  assert (2 ^ E0 == 2 ^ n * 2 ^ c)%Q as HPnc
    by (rewrite <- q2_add; unfold n; now replace (E0 - c + c) with E0 by lia).
  assert (inject_Z f * 2 ^ E0 <= v)%Q as Hvlo.
  { eapply Qle_trans; [|exact Hlo]. rewrite HPnc, Qmult_assoc.
    apply Qmult_le_compat_r; [|now apply Qlt_le_weak].
    rewrite <- q2_Z, <- inject_Z_mult by lia. rewrite <- Zle_Qle. unfold f in *. nia. }
  assert (v <= inject_Z (f + 1) * 2 ^ E0)%Q as Hvhi.
  { eapply Qle_trans; [exact Hhi|]. rewrite HPnc, Qmult_assoc.
    apply Qmult_le_compat_r; [|now apply Qlt_le_weak].
    rewrite <- q2_Z, <- inject_Z_mult by lia. rewrite <- Zle_Qle. unfold f in *. nia. }
  assert (inject_Z f <= inject_Z r)%Q as Hfr1 by (rewrite <- Zle_Qle; lia).
  assert (inject_Z r <= inject_Z f + 1)%Q as Hfr2
    by (change 1%Q with (inject_Z 1); rewrite <- inject_Z_plus, <- Zle_Qle; lia).
  assert (4503599627370496 <= inject_Z r)%Q as Hr52
    by (change 4503599627370496%Q with (inject_Z (2 ^ 52)); rewrite <- Zle_Qle; lia).
  rewrite inject_Z_plus in Hvhi. change (inject_Z 1) with 1%Q in Hvhi.
  clear - HP Hvlo Hvhi Hfr1 Hfr2 Hr52.
  set (rq := inject_Z r) in *. set (fq := inject_Z f) in *. set (P := (2 ^ E0)%Q) in *.
  clearbody rq fq P.
  split; nra.
Qed.

End Enclosure.

(** *** Square, sum, square root and quotient of doubles above zero *)
Module Operations.
Import FloatKey Rounding Digits Shift Round Mono Signs Addition Division Dyadic Powers Enclosure.
Local Open Scope Z_scope.

(** The exponent of a double is at most 971. *)
Lemma valid_bounded s m e : valid_binary (S754_finite s m e) = true -> e <= 971.
Proof.
  unfold SpecFloat.valid_binary, bounded. change (emax - prec) with 971. lia.
Qed.

(** A canonical mantissa of a double in the normal range has 53 digits. *)
Lemma normal_digits m e :
  0 < m -> fexp (dig m + e) = e -> (2 ^ (-1021) <= inject_Z m * 2 ^ e)%Q -> dig m = 53.
Proof.
  intros Hm Hc Hv. destruct (inject_pow2_dig m Hm) as [Hd _].
  assert (-1021 < dig m + e).
  { apply q2_lt_inv. eapply Qle_lt_trans; [exact Hv|]. rewrite q2_add.
    apply Qmult_lt_compat_r; [apply q2_pos|assumption]. }
  rewrite fexp_spec in Hc. lia.
Qed.

(** The square of a double. *)
Lemma square_enclosure s m e :
  fexp (dig (Zpos m) + e) = e -> dig (Zpos m) = 53 ->
  (2 ^ (-1020) <= (inject_Z (Zpos m) * 2 ^ e) * (inject_Z (Zpos m) * 2 ^ e))%Q ->
  ((inject_Z (Zpos m) * 2 ^ e) * (inject_Z (Zpos m) * 2 ^ e) <= 2 ^ 1022)%Q ->
  exists p E,
    SFmul prec emax (S754_finite s m e) (S754_finite s m e) = S754_finite false p E /\
    (inject_Z (Zpos p) * 2 ^ E * (1 - 2 ^ (-52))
     <= (inject_Z (Zpos m) * 2 ^ e) * (inject_Z (Zpos m) * 2 ^ e))%Q /\
    ((inject_Z (Zpos m) * 2 ^ e) * (inject_Z (Zpos m) * 2 ^ e)
     <= inject_Z (Zpos p) * 2 ^ E * (1 + 2 ^ (-52)))%Q.
Proof.
  intros Hc Hd Hlo Hhi.
  destruct (dig_bounds (Zpos m) ltac:(lia)) as (_ & Hm52 & _).
  rewrite Hd in Hm52. change (2 ^ (53 - 1)) with (2 ^ 52) in Hm52.
  assert (2 ^ 104 <= Zpos m * Zpos m) as Hmm
    by (change (2 ^ 104) with (2 ^ 52 * 2 ^ 52); nia).
  pose proof (dig_ge_pow _ 104 ltac:(lia) Hmm) as Hdmm.
  assert (e + e <= fexp (dig (Zpos m * Zpos m) + (e + e))) as Hce
    by (rewrite fexp_spec; lia).
  assert (SFmul prec emax (S754_finite s m e) (S754_finite s m e)
          = result false (recl (Zpos m * Zpos m) loc_Exact) (e + e)) as ->.
  { unfold SFmul. rewrite xorb_nilpotent, Pos2Z.inj_mul.
    apply binary_round_aux_result; [lia|assumption]. }
  assert ((inject_Z (Zpos m) * 2 ^ e) * (inject_Z (Zpos m) * 2 ^ e)
          == inject_Z (Zpos m * Zpos m) * 2 ^ (e + e))%Q as Hv
    by (rewrite inject_Z_mult, q2_add; ring).
  apply round_enclosure; rewrite ?shr_m_recl; try assumption; try lia.
  - rewrite Hv. apply Qle_refl.
  - rewrite Hv. apply Qmult_le_compat_r; [|apply Qlt_le_weak, q2_pos].
    rewrite <- Zle_Qle. lia.
Qed.

(** The sum of two doubles above zero. *)
Lemma add_enclosure ma ea mb eb :
  fexp (dig (Zpos ma) + ea) = ea -> fexp (dig (Zpos mb) + eb) = eb ->
  dig (Zpos ma) = 53 -> dig (Zpos mb) = 53 ->
  (2 ^ (-1020) <= inject_Z (Zpos ma) * 2 ^ ea + inject_Z (Zpos mb) * 2 ^ eb)%Q ->
  (inject_Z (Zpos ma) * 2 ^ ea + inject_Z (Zpos mb) * 2 ^ eb <= 2 ^ 1022)%Q ->
  exists p E,
    SFadd prec emax (S754_finite false ma ea) (S754_finite false mb eb)
    = S754_finite false p E /\
    (inject_Z (Zpos p) * 2 ^ E * (1 - 2 ^ (-52))
     <= inject_Z (Zpos ma) * 2 ^ ea + inject_Z (Zpos mb) * 2 ^ eb)%Q /\
    (inject_Z (Zpos ma) * 2 ^ ea + inject_Z (Zpos mb) * 2 ^ eb
     <= inject_Z (Zpos p) * 2 ^ E * (1 + 2 ^ (-52)))%Q.
Proof.
  intros Ca Cb Da Db Hlo Hhi.
  destruct (dig_bounds (Zpos ma) ltac:(lia)) as (_ & Ha52 & _).
  destruct (dig_bounds (Zpos mb) ltac:(lia)) as (_ & Hb52 & _).
  rewrite Da in Ha52. rewrite Db in Hb52. change (2 ^ (53 - 1)) with (2 ^ 52) in *.
  unfold SFadd. cbv zeta. cbn [cond_Zopp].
  set (ez := Z.min ea eb).
  rewrite !shl_align_le by lia. cbn [fst].
  pose proof (pow2_pos (ea - ez) ltac:(lia)) as Hp1.
  pose proof (pow2_pos (eb - ez) ltac:(lia)) as Hp2.
  rewrite !Z2Pos.id by nia.
  set (M := Zpos ma * 2 ^ (ea - ez) + Zpos mb * 2 ^ (eb - ez)).
  assert (2 ^ 52 <= M) as HM by (unfold M; nia).
  pose proof (dig_ge_pow M 52 ltac:(lia) HM) as HdM.
  assert (ez <= fexp (dig M + ez)) as Hce by (rewrite fexp_spec; lia).
  destruct M as [|q|q] eqn:EM; try lia.
  unfold binary_normalize.
  rewrite (binary_round_at q ez ez) by lia.
  rewrite Z.sub_diag, Z.mul_1_r.
  assert (inject_Z (Zpos ma) * 2 ^ ea + inject_Z (Zpos mb) * 2 ^ eb
          == inject_Z (Zpos q) * 2 ^ ez)%Q as Hv.
  { rewrite <- EM. unfold M. rewrite inject_Z_plus, !inject_Z_mult, !q2_Z by lia.
    replace ea with (ea - ez + ez) at 1 by lia. replace eb with (eb - ez + ez) at 1 by lia.
    rewrite !q2_add. ring. }
  apply round_enclosure; rewrite ?shr_m_recl; try assumption; try lia.
  - rewrite Hv. apply Qle_refl.
  - rewrite Hv. apply Qmult_le_compat_r; [|apply Qlt_le_weak, q2_pos].
    rewrite <- Zle_Qle. lia.
Qed.

(** The square root of a double above zero: the bounds are on squares. *)
Lemma sqrt_enclosure m e :
  fexp (dig (Zpos m) + e) = e -> dig (Zpos m) = 53 -> e <= 971 ->
  exists p E,
    SFsqrt prec emax (S754_finite false m e) = S754_finite false p E /\
    (inject_Z (Zpos p) * 2 ^ E * (inject_Z (Zpos p) * 2 ^ E)
     * ((1 - 2 ^ (-52)) * (1 - 2 ^ (-52))) <= inject_Z (Zpos m) * 2 ^ e)%Q /\
    (inject_Z (Zpos m) * 2 ^ e
     <= inject_Z (Zpos p) * 2 ^ E * (inject_Z (Zpos p) * 2 ^ E)
        * ((1 + 2 ^ (-52)) * (1 + 2 ^ (-52))))%Q.
Proof.
  intros Hc Hd He.
  assert (-1074 <= e) as Hemin by (rewrite fexp_spec in Hc; lia).
  destruct (dig_bounds (Zpos m) ltac:(lia)) as (_ & Hm52 & Hm53).
  rewrite Hd in Hm52, Hm53. change (2 ^ (53 - 1)) with (2 ^ 52) in Hm52.
  unfold SFsqrt, SFsqrt_core_binary.
  change (Zdigits2 (Zpos m)) with (dig (Zpos m)). rewrite Hd.
  change (SpecFloat.fexp prec emax (Z.div2 (53 + e + 1)))
    with (fexp (Z.div2 (53 + e + 1))).
  set (e' := Z.min (fexp (Z.div2 (53 + e + 1))) (Z.div2 e)).
  pose proof (Z.div_mod e 2 ltac:(lia)) as Hdm.
  pose proof (Z.mod_pos_bound e 2 ltac:(lia)) as Hmod.
  assert (e' = e / 2 - 26) as He'.
  { unfold e'. rewrite !Z.div2_div, fexp_spec.
    replace (53 + e + 1) with (e + 27 * 2) by lia. rewrite Z.div_add by lia. lia. }
  set (s := e - 2 * e').
  assert (s = 52 \/ s = 53) as Hs by (unfold s; lia).
  set (m' := match s with Zpos _ => Z.shiftl (Zpos m) s | 0 => Zpos m | Zneg _ => 0 end).
  assert (m' = Zpos m * 2 ^ s) as Hm'
    by (unfold m'; destruct Hs as [-> | ->]; now rewrite Z.shiftl_mul_pow2).
  assert (2 ^ 104 <= m' < 2 ^ 106) as Hrange.
  { rewrite Hm'. destruct Hs as [-> | ->].
    - change (2 ^ 104) with (2 ^ 52 * 2 ^ 52). change (2 ^ 106) with (2 ^ 54 * 2 ^ 52). lia.
    - change (2 ^ 104) with (2 ^ 51 * 2 ^ 53). change (2 ^ 106) with (2 ^ 53 * 2 ^ 53). lia. }
  pose proof (Z.sqrtrem_spec m' ltac:(lia)) as Hspec.
  destruct (Z.sqrtrem m') as [q r]. destruct Hspec as [Hq Hr].
  cbv zeta.
  set (l := if (r =? 0) then loc_Exact else loc_Inexact (if (r <=? q) then Lt else Gt)).
  assert (2 ^ 52 <= q < 2 ^ 53) as Hq52.
  { change (2 ^ 104) with (2 ^ 52 * 2 ^ 52) in Hrange.
    change (2 ^ 106) with (2 ^ 53 * 2 ^ 53) in Hrange. nia. }
  pose proof (dig_ge_pow q 52 ltac:(lia) ltac:(lia)) as Hdq.
  pose proof (dig_lt_pow q 53 ltac:(lia) ltac:(lia) ltac:(lia)) as Hdq'.
  assert (e' <= fexp (dig q + e')) as Hce by (rewrite fexp_spec; lia).
  rewrite binary_round_aux_result by (assumption || lia).
  pose proof (q2_pos e') as Hpe.
  assert (inject_Z (2 ^ 52) <= inject_Z q)%Q as Hq52q by (rewrite <- Zle_Qle; lia).
  assert (inject_Z (q + 1) <= inject_Z (2 ^ 53))%Q as Hq53q by (rewrite <- Zle_Qle; lia).
  assert (2 ^ (-1020) <= inject_Z q * 2 ^ e')%Q as Hlo.
  { apply Qle_trans with (2 ^ 52 * 2 ^ e')%Q.
    - rewrite <- q2_add. apply q2_le. lia.
    - apply Qmult_le_compat_r; [|now apply Qlt_le_weak]. now rewrite <- q2_Z by lia. }
  assert (inject_Z (q + 1) * 2 ^ e' <= 2 ^ 1022)%Q as Hhi.
  { apply Qle_trans with (2 ^ 53 * 2 ^ e')%Q.
    - apply Qmult_le_compat_r; [|now apply Qlt_le_weak]. now rewrite <- q2_Z by lia.
    - rewrite <- q2_add. apply q2_le. lia. }
  assert (inject_Z q * 2 ^ e' <= inject_Z (q + 1) * 2 ^ e')%Q as Hmid.
  { apply Qmult_le_compat_r; [|now apply Qlt_le_weak]. rewrite <- Zle_Qle. lia. }
  destruct (round_enclosure (recl q l) e' (inject_Z q * 2 ^ e')%Q)
    as (p & E & Hres & Hlow & _); rewrite ?shr_m_recl; try assumption; try lia.
  { apply Qle_refl. }
  { eapply Qle_trans; eassumption. }
  destruct (round_enclosure (recl q l) e' (inject_Z (q + 1) * 2 ^ e')%Q)
    as (p' & E' & Hres' & _ & Hupp); rewrite ?shr_m_recl; try assumption; try lia.
  { apply Qle_refl. }
  { eapply Qle_trans; eassumption. }
  rewrite Hres in Hres'. injection Hres' as <- <-.
  exists p, E. split; [exact Hres|].
  assert (inject_Z (Zpos m) * 2 ^ e == inject_Z m' * (2 ^ e' * 2 ^ e'))%Q as HS.
  { rewrite Hm', inject_Z_mult, q2_Z, <- !q2_add by lia. 
    rewrite <- Qmult_assoc, <- q2_add. unfold s.
    now replace (e - 2 * e' + (e' + e')) with e by lia. }
  assert (inject_Z q * inject_Z q <= inject_Z m')%Q as Hsq1
    by (rewrite <- inject_Z_mult, <- Zle_Qle; lia).
  assert (inject_Z m' <= inject_Z (q + 1) * inject_Z (q + 1))%Q as Hsq2
    by (rewrite <- inject_Z_mult, <- Zle_Qle; nia).
  rewrite HS, ulp_fraction in *.
  assert (0 <= inject_Z q)%Q as Hq0 by (change 0%Q with (inject_Z 0); rewrite <- Zle_Qle; lia).
  assert (0 < inject_Z (Zpos p) * 2 ^ E)%Q as HV.
  { apply Qmult_lt_0_compat; [|apply q2_pos]. reflexivity. }
  rewrite inject_Z_plus in *. change (inject_Z 1) with 1%Q in *.
  clear - Hpe Hlow Hupp Hsq1 Hsq2 Hq0 HV.
  set (V := (inject_Z (Zpos p) * 2 ^ E)%Q) in *. set (P := (2 ^ e')%Q) in *.
  set (Q := inject_Z q) in *. set (M := inject_Z m') in *. clearbody V P Q M.
  assert (0 <= Q * P)%Q by nra.
  split.
  - apply Qle_trans with (Q * P * (Q * P))%Q; [|nra].
    assert (0 <= V * (1 - (1 # 4503599627370496)))%Q by nra.
    nra.
  - apply Qle_trans with ((Q + 1) * P * ((Q + 1) * P))%Q; [nra|].
    nra.
Qed.

(** The quotient of two doubles above zero: the bounds are on products. *)
Lemma div_enclosure mx ex ml el :
  fexp (dig (Zpos mx) + ex) = ex -> fexp (dig (Zpos ml) + el) = el ->
  dig (Zpos mx) = 53 -> dig (Zpos ml) = 53 ->
  (2 ^ (-1020) * (inject_Z (Zpos ml) * 2 ^ el) <= inject_Z (Zpos mx) * 2 ^ ex)%Q ->
  (inject_Z (Zpos mx) * 2 ^ ex <= 2 ^ 1022 * (inject_Z (Zpos ml) * 2 ^ el))%Q ->
  exists p E,
    (let '(mz, ez, lz) := SFdiv_core_binary prec emax (Zpos mx) ex (Zpos ml) el in
     binary_round_aux prec emax false mz ez lz) = S754_finite false p E /\
    (inject_Z (Zpos p) * 2 ^ E * (inject_Z (Zpos ml) * 2 ^ el) * (1 - 2 ^ (-52))
     <= inject_Z (Zpos mx) * 2 ^ ex)%Q /\
    (inject_Z (Zpos mx) * 2 ^ ex
     <= inject_Z (Zpos p) * 2 ^ E * (inject_Z (Zpos ml) * 2 ^ el) * (1 + 2 ^ (-52)))%Q.
Proof.
  intros Cx Cl Dx Dl Hlo Hhi.
  destruct (dig_bounds (Zpos mx) ltac:(lia)) as (_ & Hx52 & Hx53).
  destruct (dig_bounds (Zpos ml) ltac:(lia)) as (_ & Hl52 & Hl53).
  rewrite Dx in Hx52, Hx53. rewrite Dl in Hl52, Hl53.
  change (2 ^ (53 - 1)) with (2 ^ 52) in *.
  set (X := (inject_Z (Zpos mx) * 2 ^ ex)%Q) in *.
  set (L := (inject_Z (Zpos ml) * 2 ^ el)%Q) in *.
  assert (0 < L)%Q as HL by (apply Qmult_lt_0_compat; [reflexivity|apply q2_pos]).
  (* the exponent of the quotient *)
  assert (-1021 < ex - el) as Hmag.
  { assert (-1020 + (52 + el) < 53 + ex); [|lia].
    apply q2_lt_inv. rewrite !q2_add.
    apply Qle_lt_trans with (2 ^ (-1020) * L)%Q.
    - apply Qmult_le_l; [apply q2_pos|]. unfold L.
      apply Qmult_le_compat_r; [|apply Qlt_le_weak, q2_pos].
      rewrite <- q2_Z by lia. now rewrite <- Zle_Qle.
    - eapply Qle_lt_trans; [exact Hlo|]. unfold X.
      apply Qmult_lt_compat_r; [apply q2_pos|].
      rewrite <- q2_Z by lia. now rewrite <- Zlt_Qlt. }
  set (c := div_exp (Zpos mx) ex (Zpos ml) el).
  assert (c = ex - el - 53) as Hc by (unfold c, div_exp; rewrite Dx, Dl, fexp_spec; lia).
  rewrite (div_at (Zpos mx) ex (Zpos ml) el c) by (fold c; lia).
  replace (ex - el - c) with 53 by lia.
  set (N := Zpos mx * 2 ^ 53).
  assert (2 ^ 52 <= N / Zpos ml) as Hq.
  { apply Z.div_le_lower_bound; [lia|]. unfold N.
    change (2 ^ 53) with (2 * 2 ^ 52) at 1. nia. }
  pose proof (dig_ge_pow _ 52 ltac:(lia) Hq) as Hdq.
  pose proof (Z.div_mod N (Zpos ml) ltac:(lia)) as Hdm.
  pose proof (Z.mod_pos_bound N (Zpos ml) ltac:(lia)) as Hmod.
  assert (X == inject_Z N * (2 ^ c * 2 ^ el))%Q as HX.
  { unfold X, N. rewrite inject_Z_mult, q2_Z, <- q2_add, <- Qmult_assoc, <- q2_add by lia.
    now replace (53 + (c + el)) with ex by lia. }
  pose proof (q2_pos c) as Hpc. pose proof (q2_pos el) as Hpl.
  destruct (round_enclosure (quot N (Zpos ml)) c (X / L)%Q)
    as (p & E & Hres & Hlow & Hupp); rewrite ?quot_m.
  - lia.
  - rewrite fexp_spec. lia.
  - apply Qle_shift_div_l; [assumption|]. rewrite HX. unfold L.
    assert ((inject_Z (N / Zpos ml) * 2 ^ c * (inject_Z (Zpos ml) * 2 ^ el))%Q == (inject_Z (N / Zpos ml * Zpos ml) * (2 ^ c * 2 ^ el))%Q)%Q as Hsr
      by (rewrite inject_Z_mult; ring).
    rewrite Hsr; clear Hsr.
    apply Qmult_le_compat_r; [|apply Qlt_le_weak, Qmult_lt_0_compat; assumption].
    rewrite <- Zle_Qle. lia.
  - apply Qle_shift_div_r; [assumption|]. rewrite HX. unfold L.
    assert ((inject_Z (N / Zpos ml + 1) * 2 ^ c * (inject_Z (Zpos ml) * 2 ^ el))%Q == (inject_Z ((N / Zpos ml + 1) * Zpos ml) * (2 ^ c * 2 ^ el))%Q)%Q as Hsr
      by (rewrite inject_Z_mult; ring).
    rewrite Hsr; clear Hsr.
    apply Qmult_le_compat_r; [|apply Qlt_le_weak, Qmult_lt_0_compat; assumption].
    rewrite <- Zle_Qle. lia.
  - now apply Qle_shift_div_l.
  - apply Qle_shift_div_r; assumption.
  - exists p, E. split; [exact Hres|].
    assert (X / L * L == X)%Q as HXL by (field; intros H0; rewrite H0 in HL; discriminate).
    split.
    + rewrite <- HXL. assert ((inject_Z (Zpos p) * 2 ^ E * L * (1 - 2 ^ (-52)))%Q == (inject_Z (Zpos p) * 2 ^ E * (1 - 2 ^ (-52)) * L)%Q)%Q as Hsr
      by ring.
    rewrite Hsr; clear Hsr.
      apply Qmult_le_compat_r; [assumption|now apply Qlt_le_weak].
    + rewrite <- HXL. assert ((inject_Z (Zpos p) * 2 ^ E * L * (1 + 2 ^ (-52)))%Q == (inject_Z (Zpos p) * 2 ^ E * (1 + 2 ^ (-52)) * L)%Q)%Q as Hsr
      by ring.
    rewrite Hsr; clear Hsr.
      apply Qmult_le_compat_r; [assumption|now apply Qlt_le_weak].
Qed.

End Operations.

(** *** The operations of [normalize] on doubles, and their composition *)
Module UnitLength.
Import FloatKey Rounding Digits Shift Round Mono Signs Addition Division Roots.
Import FloatOrder FloatFacts Dyadic Powers Enclosure Operations.
Local Open Scope Z_scope.

(** A regular component is a zero, or a normal double of magnitude between
    [2^-500] and [2^500]. *)
Lemma regular_cases (c : float) :
  regular c = true ->
  (exists s, Prim2SF c = S754_zero s) \/
  (exists s m e,
     Prim2SF c = S754_finite s m e /\ fexp (dig (Zpos m) + e) = e /\
     dig (Zpos m) = 53 /\ e <= 971 /\
     (2 ^ (-500) <= inject_Z (Zpos m) * 2 ^ e)%Q /\
     (inject_Z (Zpos m) * 2 ^ e <= 2 ^ 500)%Q).
Proof.
  unfold regular. rewrite orb_true_iff, andb_true_iff. intros [Hz|[Hlo Hhi]].
  - left. destruct (is_zero_cases c Hz) as [-> | ->]; eexists; reflexivity.
  - right. pose proof (Prim2SF_valid c) as Hv.
    rewrite leb_key in Hlo, Hhi. unfold fkey in Hlo, Hhi. rewrite abs_spec in Hlo, Hhi.
    change (Prim2SF 0x1p-500) with (S754_finite false 4503599627370496 (-552)) in Hlo.
    change (Prim2SF 0x1p500) with (S754_finite false 4503599627370496 448) in Hhi.
    destruct (Prim2SF c) as [s|s| |s m e]; cbn [SFabs key] in Hlo, Hhi;
      unfold key_ltb, key_eqb in Hlo, Hhi; try discriminate; try lia.
    pose proof (valid_bounded _ _ _ Hv) as Hb. apply valid_canonical in Hv.
    assert (dig (Zpos m) = 53) as Hd by (rewrite fexp_spec in Hv; lia).
    destruct (dig_bounds (Zpos m) ltac:(lia)) as (_ & H52 & H53).
    rewrite Hd in H52, H53. change (2 ^ (53 - 1)) with (2 ^ 52) in H52.
    exists s, m, e. split; [reflexivity|]. repeat (split; [assumption|]).
    pose proof (q2_pos e) as Hpe.
    split.
    + apply Qle_trans with (2 ^ 52 * 2 ^ e)%Q.
      * rewrite <- q2_add. apply q2_le. lia.
      * apply Qmult_le_compat_r; [|now apply Qlt_le_weak].
        rewrite <- q2_Z by lia. now rewrite <- Zle_Qle.
    + destruct (Z.eq_dec e 448) as [->|Hne].
      * apply Qle_trans with (2 ^ 52 * 2 ^ 448)%Q.
        -- apply Qmult_le_compat_r; [|now apply Qlt_le_weak].
           rewrite <- q2_Z by lia. rewrite <- Zle_Qle. lia.
        -- rewrite <- q2_add. apply q2_le. lia.
      * apply Qle_trans with (2 ^ 53 * 2 ^ e)%Q.
        -- apply Qmult_le_compat_r; [|now apply Qlt_le_weak].
           rewrite <- q2_Z by lia. rewrite <- Zle_Qle. lia.
        -- rewrite <- q2_add. apply q2_le. lia.
Qed.

Lemma SF2Q_square s m e :
  (SF2Q (S754_finite s m e) * SF2Q (S754_finite s m e)
   == (inject_Z (Zpos m) * 2 ^ e) * (inject_Z (Zpos m) * 2 ^ e))%Q.
Proof. destruct s; simpl; ring. Qed.

Lemma SF2Q_nonneg f : nonneg_double f = true -> (0 <= SF2Q f)%Q.
Proof.
  destruct f as [[]|[]| |[] m e]; try discriminate; intros _; simpl; try apply Qle_refl.
  apply Qmult_le_0_compat; [discriminate|apply Qlt_le_weak, q2_pos].
Qed.

(** Squares are compared through their roots. *)
Lemma square_le (a b : Q) : (0 <= a -> 0 <= b -> a * a <= b * b -> a <= b)%Q.
Proof. intros. destruct (Qlt_le_dec b a); [nra|assumption]. Qed.

Lemma le_square (a b : Q) : (0 <= a -> a <= b -> a * a <= b * b)%Q.
Proof. intros. nra. Qed.

(** The square of a regular component. *)
Lemma square_value (c : float) :
  regular c = true ->
  nonneg_double (Prim2SF (c * c)) = true /\
  (value (c * c) * (1 - 2 ^ (-52)) <= value c * value c)%Q /\
  (value c * value c <= value (c * c) * (1 + 2 ^ (-52)))%Q /\
  ((is_zero c = true /\ value c * value c == 0)%Q \/
   (2 ^ (-1000) <= value c * value c /\ value c * value c <= 2 ^ 1000)%Q).
Proof.
  intros Hr. unfold value. rewrite mul_spec. unfold SF64mul.
  destruct (regular_cases c Hr) as [[s Hz]|(s & m & e & -> & Hc & Hd & Hb & Hlo & Hhi)].
  - assert (is_zero c = true) as Hzero.
    { unfold is_zero. rewrite FloatAxioms.eqb_spec, Hz. now destruct s. }
    rewrite Hz. cbn [SFmul]. rewrite xorb_nilpotent. cbn [nonneg_double SF2Q].
    split; [reflexivity|]. split; [discriminate|]. split; [discriminate|]. left.
    split; [assumption|reflexivity].
  - rewrite SF2Q_square.
    set (M := (inject_Z (Zpos m) * 2 ^ e)%Q) in *.
    assert (0 < M)%Q as HM by (apply Qmult_lt_0_compat; [reflexivity|apply q2_pos]).
    assert (2 ^ (-1000) <= M * M)%Q as Hlo2.
    { change (-1000) with (-500 + -500). rewrite q2_add.
      apply le_square; [apply Qlt_le_weak, q2_pos|assumption]. }
    assert (M * M <= 2 ^ 1000)%Q as Hhi2.
    { change 1000 with (500 + 500). rewrite q2_add.
      apply le_square; [now apply Qlt_le_weak|assumption]. }
    destruct (square_enclosure s m e Hc Hd) as (p & E & -> & H1 & H2).
    + eapply Qle_trans; [|exact Hlo2]. apply q2_le. lia.
    + eapply Qle_trans; [exact Hhi2|]. apply q2_le. lia.
    + cbn [nonneg_double SF2Q]. fold M in H1, H2.
      split; [reflexivity|]. split; [exact H1|]. split; [exact H2|]. right. now split.
Qed.

(** The sum of two doubles that are [+0] or above [2^-1010]. *)
Lemma add_value (a b : float) :
  nonneg_double (Prim2SF a) = true -> nonneg_double (Prim2SF b) = true ->
  (value a == 0 \/ 2 ^ (-1010) <= value a)%Q ->
  (value b == 0 \/ 2 ^ (-1010) <= value b)%Q ->
  (value a + value b <= 2 ^ 1022)%Q ->
  nonneg_double (Prim2SF (a + b)) = true /\
  (value (a + b) * (1 - 2 ^ (-52)) <= value a + value b)%Q /\
  (value a + value b <= value (a + b) * (1 + 2 ^ (-52)))%Q.
Proof.
  unfold value. rewrite add_spec. unfold SF64add.
  pose proof (Prim2SF_valid a) as Va. pose proof (Prim2SF_valid b) as Vb.
  assert (forall m e, 0 < inject_Z (Zpos m) * 2 ^ e)%Q as Hpos
    by (intros; apply Qmult_lt_0_compat; [reflexivity|apply q2_pos]).
  assert (2 ^ (-1021) <= 2 ^ (-1010))%Q as Hp1 by (apply q2_le; lia).
  assert (2 ^ (-1020) <= 2 ^ (-1010))%Q as Hp2 by (apply q2_le; lia).
  destruct (Prim2SF a) as [[]|[]| |[] ma ea]; try discriminate;
    destruct (Prim2SF b) as [[]|[]| |[] mb eb]; try discriminate;
    intros _ _ Ha Hb Hsum; cbn [SFadd Bool.eqb SF2Q nonneg_double] in *.
  - split; [reflexivity|]. split; discriminate.
  - pose proof (Hpos mb eb) as HV. rewrite ulp_fraction.
    set (V := (inject_Z (Zpos mb) * 2 ^ eb)%Q) in *. clearbody V.
    split; [reflexivity|]. split; lra.
  - pose proof (Hpos ma ea) as HV. rewrite ulp_fraction.
    set (V := (inject_Z (Zpos ma) * 2 ^ ea)%Q) in *. clearbody V.
    split; [reflexivity|]. split; lra.
  - pose proof (Hpos ma ea) as Pa. pose proof (Hpos mb eb) as Pb.
    destruct Ha as [Ha|Ha]; [rewrite Ha in Pa; discriminate|].
    destruct Hb as [Hb|Hb]; [rewrite Hb in Pb; discriminate|].
    apply valid_canonical in Va, Vb.
    pose proof (normal_digits (Zpos ma) ea ltac:(lia) Va ltac:(eapply Qle_trans; eassumption)) as Da.
    pose proof (normal_digits (Zpos mb) eb ltac:(lia) Vb ltac:(eapply Qle_trans; eassumption)) as Db.
    destruct (add_enclosure ma ea mb eb Va Vb Da Db) as (p & E & Hres & H1 & H2).
    + eapply Qle_trans; [exact Hp2|]. eapply Qle_trans; [exact Ha|].
      rewrite <- Qplus_0_r at 1. apply Qplus_le_r. now apply Qlt_le_weak.
    + assumption.
    + unfold SFadd in Hres. cbv zeta in Hres. rewrite Hres. cbn [nonneg_double SF2Q].
      split; [reflexivity|]. now split.
Qed.

(** The square root of a double above [2^-1010]. *)
Lemma sqrt_value (S : float) :
  nonneg_double (Prim2SF S) = true -> (2 ^ (-1010) <= value S)%Q ->
  exists ml el,
    Prim2SF (sqrt S) = S754_finite false ml el /\
    (value (sqrt S) * value (sqrt S) * ((1 - 2 ^ (-52)) * (1 - 2 ^ (-52))) <= value S)%Q /\
    (value S <= value (sqrt S) * value (sqrt S) * ((1 + 2 ^ (-52)) * (1 + 2 ^ (-52))))%Q.
Proof.
  unfold value. rewrite sqrt_spec. unfold SF64sqrt.
  pose proof (Prim2SF_valid S) as Hv.
  destruct (Prim2SF S) as [[]|[]| |[] m e]; try discriminate; intros _ Hlo.
  - exfalso. cbn [SF2Q] in Hlo. pose proof (q2_pos (-1010)) as Hp.
    apply (Qlt_not_le _ _ Hp Hlo).
  - cbn [SF2Q] in Hlo.
    pose proof (valid_bounded _ _ _ Hv) as Hb. apply valid_canonical in Hv.
    assert (2 ^ (-1021) <= 2 ^ (-1010))%Q as Hp1 by (apply q2_le; lia).
    pose proof (normal_digits (Zpos m) e ltac:(lia) Hv ltac:(eapply Qle_trans; eassumption))
      as Hd.
    destruct (sqrt_enclosure m e Hv Hd Hb) as (p & E & Hres & H1 & H2).
    exists p, E. rewrite Hres. cbn [SF2Q]. split; [reflexivity|]. now split.
Qed.

Lemma is_finite_intro (x : float) :
  (exists s, Prim2SF x = S754_zero s) \/ (exists s m e, Prim2SF x = S754_finite s m e) ->
  is_finite x = true.
Proof.
  unfold is_finite, is_nan, is_infinity.
  rewrite !FloatAxioms.eqb_spec, abs_spec. unfold SFeqb.
  intros [[s ->]|(s & m & e & ->)]; [reflexivity|].
  cbn [SFabs SFcompare]. rewrite Z.compare_refl.
  change (PosDef.Pos.compare_cont Eq m m) with (Pos.compare m m).
  rewrite Pos.compare_refl. now destruct s.
Qed.

(** A regular component divided by a computed length that is neither much
    smaller nor much larger. *)
Lemma div_value (c L : float) (ml : positive) (el : Z) :
  regular c = true -> Prim2SF L = S754_finite false ml el ->
  (2 ^ (-1021) <= value L)%Q ->
  (value c * value c <= 4 * (value L * value L))%Q ->
  (value L * value L <= 2 ^ 1006)%Q ->
  is_finite (c / L) = true /\
  (value (c / L) * value (c / L) * (value L * value L)
   * ((1 - 2 ^ (-52)) * (1 - 2 ^ (-52))) <= value c * value c)%Q /\
  (value c * value c
   <= value (c / L) * value (c / L) * (value L * value L)
      * ((1 + 2 ^ (-52)) * (1 + 2 ^ (-52))))%Q.
Proof.
  intros Hr HL. pose proof (Prim2SF_valid L) as Hv. rewrite HL in Hv.
  assert (value L = (inject_Z (Zpos ml) * 2 ^ el)%Q) as HvL
    by (unfold value; rewrite HL; reflexivity).
  rewrite !HvL. clear HvL.
  intros HLlo Hc4 HL2.
  pose proof (valid_canonical _ _ _ Hv) as Cl.
  pose proof (normal_digits (Zpos ml) el ltac:(lia) Cl HLlo) as Dl.
  set (Lv := (inject_Z (Zpos ml) * 2 ^ el)%Q) in *.
  assert (0 < Lv)%Q as HLpos by (apply Qmult_lt_0_compat; [reflexivity|apply q2_pos]).
  assert (Prim2SF (c / L) = SFdiv prec emax (Prim2SF c) (S754_finite false ml el)) as Hdiv
    by (rewrite div_spec, HL; reflexivity).
  destruct (regular_cases c Hr) as [[s Hc]|(s & m & e & Hc & Cx & Dx & Hb & Hlo & Hhi)].
  - rewrite Hc in Hdiv. cbn [SFdiv] in Hdiv.
    split; [apply is_finite_intro; left; eauto|].
    unfold value. rewrite Hdiv, Hc. cbn [SF2Q]. split; [|rewrite ulp_fraction; nra].
    rewrite ulp_fraction. nra.
  - unfold value in Hc4. rewrite Hc, SF2Q_square in Hc4.
    set (M := (inject_Z (Zpos m) * 2 ^ e)%Q) in *.
    assert (0 < M)%Q as HMpos by (apply Qmult_lt_0_compat; [reflexivity|apply q2_pos]).
    assert (Lv <= 2 ^ 503)%Q as HL503.
    { apply square_le; [now apply Qlt_le_weak|apply Qlt_le_weak, q2_pos|].
      rewrite <- q2_add. exact HL2. }
    assert (M <= 2 * Lv)%Q as HM2.
    { apply square_le; [now apply Qlt_le_weak|lra|].
      eapply Qle_trans; [exact Hc4|]. apply Qle_lteq. right. ring. }
    destruct (div_enclosure m e ml el Cx Cl Dx Dl) as (p & E & Hres & H1 & H2).
    + fold Lv. fold M. apply Qle_trans with (2 ^ (-1020) * 2 ^ 503)%Q.
      * apply Qmult_le_l; [apply q2_pos|assumption].
      * rewrite <- q2_add. eapply Qle_trans; [|exact Hlo]. apply q2_le. lia.
    + fold Lv. fold M. eapply Qle_trans; [exact HM2|].
      apply Qmult_le_compat_r; [|now apply Qlt_le_weak].
      change (2%Q) with (2 ^ 1)%Q. apply q2_le. lia.
    + fold Lv in H1, H2. fold M in H1, H2.
      set (V := (inject_Z (Zpos p) * 2 ^ E)%Q) in *.
      assert (0 < V)%Q as HVpos by (apply Qmult_lt_0_compat; [reflexivity|apply q2_pos]).
      assert (exists s', Prim2SF (c / L) = S754_finite s' p E) as [s' Hq].
      { rewrite Hdiv, Hc. unfold SFdiv. rewrite xorb_false_r. destruct s.
        - destruct (SFdiv_core_binary prec emax (Zpos m) e (Zpos ml) el) as [[mz ez] lz].
          rewrite binary_round_aux_opp, Hres. eexists; reflexivity.
        - rewrite Hres. eexists; reflexivity. }
      split; [apply is_finite_intro; right; eauto|].
      unfold value. rewrite Hq, Hc, !SF2Q_square. fold V. fold M.
      rewrite ulp_fraction in *.
      clear - HVpos HLpos HMpos H1 H2. clearbody V Lv M.
      split.
      * apply Qle_trans
          with ((V * Lv * (1 - (1 # 4503599627370496)))
                * (V * Lv * (1 - (1 # 4503599627370496))))%Q;
          [apply Qle_lteq; right; ring|].
        apply le_square; [|assumption]. 
        apply Qmult_le_0_compat; [nra|lra].
      * apply Qle_trans
          with ((V * Lv * (1 + (1 # 4503599627370496)))
                * (V * Lv * (1 + (1 # 4503599627370496))))%Q;
          [|apply Qle_lteq; right; ring].
        apply le_square; [lra|assumption].
Qed.

(** The direction computed by [normalize] from regular components, not all
    zero: the computed length is above zero, and the exact squared length of
    the quotient differs from 1 by at most [2^-49]. *)
Lemma normalize_unit (u : Vec3.t) :
  regularVec u = true ->
  is_zero (Vec3.x u) && is_zero (Vec3.y u) && is_zero (Vec3.z u) = false ->
  gtb (Vec3.length u) 0 = true /\
  is_finite (Vec3.x (Vec3.normalize u)) = true /\
  is_finite (Vec3.y (Vec3.normalize u)) = true /\
  is_finite (Vec3.z (Vec3.normalize u)) = true /\
  (1 - 2 ^ (-49) <= norm2 (Vec3.normalize u))%Q /\
  (norm2 (Vec3.normalize u) <= 1 + 2 ^ (-49))%Q.
Proof.
  destruct u as [x y z]. unfold regularVec. cbn [Vec3.x Vec3.y Vec3.z].
  rewrite !andb_true_iff. intros [[Rx Ry] Rz] Hnz.
  destruct (square_value x Rx) as (Nx & Ax1 & Ax2 & Bx).
  destruct (square_value y Ry) as (Ny & Ay1 & Ay2 & By).
  destruct (square_value z Rz) as (Nz & Az1 & Az2 & Bz).
  pose proof (SF2Q_nonneg _ Nx) as Px. pose proof (SF2Q_nonneg _ Ny) as Py.
  pose proof (SF2Q_nonneg _ Nz) as Pz.
  fold (value (x * x)) in Px. fold (value (y * y)) in Py. fold (value (z * z)) in Pz.
  (* powers of two, by the two units [lo] and [hi] *)
  assert (2 ^ (-1000) == 1024 * 2 ^ (-1010))%Q as Elo by reflexivity.
  assert (2 ^ 1022 == 4194304 * 2 ^ 1000)%Q as Ehi by reflexivity.
  assert (2 ^ 1006 == 64 * 2 ^ 1000)%Q as Ehi' by reflexivity.
  assert (2 ^ (-1004) == 64 * 2 ^ (-1010))%Q as Elo' by reflexivity.
  pose proof (q2_pos (-1010)) as Hlo. pose proof (q2_pos 1000) as Hhi.
  rewrite ulp_fraction in *. rewrite Elo in Bx, By, Bz.
  set (lo := (2 ^ (-1010))%Q) in *. set (hi := (2 ^ 1000)%Q) in *.
  set (X2 := (value x * value x)%Q) in *. set (Y2 := (value y * value y)%Q) in *.
  set (Z2 := (value z * value z)%Q) in *.
  set (A := value (x * x)) in *. set (B := value (y * y)) in *. set (C := value (z * z)) in *.
  (* the sum of the squares *)
  destruct (add_value (x * x) (y * y) Nx Ny) as (N1 & S1a & S1b);
    fold A; fold B; fold lo; rewrite ?Ehi; fold hi; rewrite ?ulp_fraction;
    [clear - Bx Ax1 Ax2 Px Hlo; clearbody lo X2 A; lra
    |clear - By Ay1 Ay2 Py Hlo; clearbody lo Y2 B; lra
    |clear - Bx By Ax1 Ay1 Px Py Hlo Hhi; clearbody lo hi X2 Y2 A B; lra|].
  pose proof (SF2Q_nonneg _ N1) as P1. fold (value (x * x + y * y)) in P1.
  rewrite ulp_fraction in S1a, S1b. fold A in S1a, S1b. fold B in S1a, S1b.
  set (s1 := value (x * x + y * y)) in *.
  destruct (add_value (x * x + y * y) (z * z) N1 Nz) as (N2 & S2a & S2b);
    fold s1; fold C; fold lo; rewrite ?Ehi; fold hi; rewrite ?ulp_fraction;
    [clear - Bx By Ax1 Ax2 Ay1 Ay2 Px Py P1 S1a S1b Hlo; clearbody lo X2 Y2 A B s1; lra
    |clear - Bz Az1 Az2 Pz Hlo; clearbody lo Z2 C; lra
    |clear - Bx By Bz Ax1 Ay1 Az1 Px Py Pz P1 S1a Hlo Hhi;
     clearbody lo hi X2 Y2 Z2 A B C s1; lra|].
  pose proof (SF2Q_nonneg _ N2) as P2. fold (value (x * x + y * y + z * z)) in P2.
  rewrite ulp_fraction in S2a, S2b. fold s1 in S2a, S2b. fold C in S2a, S2b.
  set (S := value (x * x + y * y + z * z)) in *.
  (* one component is not a zero *)
  assert (1024 * lo <= X2 + Y2 + Z2)%Q as Hsum.
  { destruct Bx as [[Zx _]|Bx], By as [[Zy _]|By], Bz as [[Zz _]|Bz];
      try (rewrite Zx, Zy, Zz in Hnz; discriminate);
      assert (0 <= X2)%Q by (unfold X2; nra); assert (0 <= Y2)%Q by (unfold Y2; nra);
      assert (0 <= Z2)%Q by (unfold Z2; nra); lra. }
  assert (0 <= X2 /\ 0 <= Y2 /\ 0 <= Z2)%Q as (Qx & Qy & Qz)
    by (unfold X2, Y2, Z2; repeat split; nra).
  assert (X2 <= hi /\ Y2 <= hi /\ Z2 <= hi)%Q as (Ux & Uy & Uz).
  { clear - Bx By Bz Hhi Hlo Elo Qx Qy Qz. clearbody lo hi X2 Y2 Z2.
    repeat split; lra. }
  (* the computed length *)
  destruct (sqrt_value (x * x + y * y + z * z) N2) as (ml & el & HL & L1 & L2).
  { fold S. fold lo. clear - Hsum Ax2 Ay2 Az2 S1b S2b Px Py Pz P1 P2 Hlo.
    clearbody lo X2 Y2 Z2 A B C s1 S. lra. }
  rewrite ulp_fraction in L1, L2. fold S in L1, L2.
  change (sqrt (x * x + y * y + z * z)) with (Vec3.length (Vec3.mk x y z)) in *.
  set (len := Vec3.length (Vec3.mk x y z)) in *.
  assert (value len = (inject_Z (Zpos ml) * 2 ^ el)%Q) as HvL
    by (unfold value; rewrite HL; reflexivity).
  assert (0 < value len)%Q as HLpos
    by (rewrite HvL; apply Qmult_lt_0_compat; [reflexivity|apply q2_pos]).
  set (LL := (value len * value len)%Q) in *.
  assert (0 < LL)%Q as HLL by (unfold LL; nra).
  assert (gtb len 0 = true) as Hgt.
  { unfold gtb. rewrite ltb_key. unfold fkey. rewrite HL. reflexivity. }
  split; [exact Hgt|].
  unfold Vec3.normalize. cbv zeta. fold len. rewrite Hgt.
  unfold Vec3.div, norm2. cbn [Vec3.x Vec3.y Vec3.z].
  (* the three quotients *)
  assert (2 ^ (-1021) <= value len)%Q as HLlo.
  { apply Qle_trans with (2 ^ (-502))%Q; [apply q2_le; lia|].
    apply square_le; [apply Qlt_le_weak, q2_pos|now apply Qlt_le_weak|].
    rewrite <- q2_add. change (-502 + -502) with (-1004). rewrite Elo'. fold lo. fold LL.
    clear - Hsum Ax2 Ay2 Az2 S1b S2b L2 Px Py Pz P1 P2 Hlo HLL.
    clearbody lo X2 Y2 Z2 A B C s1 S LL. lra. }
  assert (LL <= 2 ^ 1006)%Q as HLhi.
  { rewrite Ehi'. fold hi.
    clear - Ux Uy Uz Ax1 Ay1 Az1 S1a S2a L1 Px Py Pz P1 P2 Hhi HLL.
    clearbody hi X2 Y2 Z2 A B C s1 S LL. lra. }
  assert (X2 + Y2 + Z2 <= 4 * LL)%Q as Hsum4.
  { clear - Qx Qy Qz Ax2 Ay2 Az2 S1b S2b L2 Px Py Pz P1 P2 HLL.
    clearbody X2 Y2 Z2 A B C s1 S LL. lra. }
  destruct (div_value x len ml el Rx HL HLlo) as (Fx & Dx1 & Dx2);
    [fold X2; fold LL; lra|exact HLhi|].
  destruct (div_value y len ml el Ry HL HLlo) as (Fy & Dy1 & Dy2);
    [fold Y2; fold LL; lra|exact HLhi|].
  destruct (div_value z len ml el Rz HL HLlo) as (Fz & Dz1 & Dz2);
    [fold Z2; fold LL; lra|exact HLhi|].
  repeat (split; [assumption|]).
  rewrite ulp_fraction in Dx1, Dx2, Dy1, Dy2, Dz1, Dz2.
  fold X2 in Dx1, Dx2. fold Y2 in Dy1, Dy2. fold Z2 in Dz1, Dz2.
  fold LL in Dx1, Dx2, Dy1, Dy2, Dz1, Dz2.
  set (wx := (value (x / len) * value (x / len) * LL)%Q) in *.
  set (wy := (value (y / len) * value (y / len) * LL)%Q) in *.
  set (wz := (value (z / len) * value (z / len) * LL)%Q) in *.
  assert ((value (x / len) * value (x / len) + value (y / len) * value (y / len)
           + value (z / len) * value (z / len)) * LL == wx + wy + wz)%Q as HN
    by (unfold wx, wy, wz; ring).
  set (N := (value (x / len) * value (x / len) + value (y / len) * value (y / len)
             + value (z / len) * value (z / len))%Q) in *.
  assert (2 ^ (-49) == 1 # 562949953421312)%Q as E49 by reflexivity.
  rewrite E49.
  split.
  - apply (Qmult_le_r _ _ LL HLL). rewrite HN.
    clear - Qx Qy Qz Ax1 Ay1 Az1 S1a S2a L1 Dx2 Dy2 Dz2 Px Py Pz P1 P2 HLL.
    clearbody wx wy wz X2 Y2 Z2 A B C s1 S LL. lra.
  - apply (Qmult_le_r _ _ LL HLL). rewrite HN.
    clear - Qx Qy Qz Ax2 Ay2 Az2 S1b S2b L2 Dx1 Dy1 Dz1 Px Py Pz P1 P2 HLL.
    clearbody wx wy wz X2 Y2 Z2 A B C s1 S LL. lra.
Qed.

End UnitLength.

(** ** Vec3 and Ray *)
Module VecClaims.
Import FloatOrder FloatFacts Examples Shading Dyadic UnitLength.

Lemma zero_components_length (u : Vec3.t) :
  is_zero (Vec3.x u) && is_zero (Vec3.y u) && is_zero (Vec3.z u) = true ->
  Vec3.length u = 0.
Proof.
  destruct u as [x y z]. simpl. rewrite !andb_true_iff. intros [[Hx Hy] Hz].
  destruct (is_zero_cases x Hx) as [-> | ->], (is_zero_cases y Hy) as [-> | ->],
    (is_zero_cases z Hz) as [-> | ->]; reflexivity.
Qed.

(** C7 (amended).  [Vec3.normalize] is a total function.  Whenever the
    computed length [sqrt (x*x + y*y + z*z)] is not strictly positive it
    returns the zero vector, whose components are not NaN, without
    dividing: that is the case of the zero vector (components [0] or
    [-0]), whose computed length is [0].  The division is done only when
    the computed length is strictly positive, and the result is then the
    vector divided by that computed length. *)
Theorem normalize_by_computed_length (u : Vec3.t) :
  (gtb (Vec3.length u) 0 = true -> Vec3.normalize u = Vec3.div u (Vec3.length u)) /\
  (gtb (Vec3.length u) 0 = false ->
     Vec3.normalize u = Vec3.mk 0 0 0 /\ is_nan (Vec3.x (Vec3.normalize u)) = false /\
     is_nan (Vec3.y (Vec3.normalize u)) = false /\ is_nan (Vec3.z (Vec3.normalize u)) = false) /\
  (is_zero (Vec3.length u) = true -> Vec3.normalize u = Vec3.mk 0 0 0) /\
  (is_zero (Vec3.x u) && is_zero (Vec3.y u) && is_zero (Vec3.z u) = true ->
     Vec3.length u = 0 /\ Vec3.normalize u = Vec3.mk 0 0 0).
Proof.
  unfold Vec3.normalize. cbv zeta. split; [|split; [|split]].
  - now intros ->.
  - intros ->. repeat split.
  - intros H. replace (gtb (Vec3.length u) 0) with false; [reflexivity|].
    symmetry. by_keys.
  - intros H. rewrite (zero_components_length u H). split; reflexivity.
Qed.

(** C7, counterexample.  [(2^-600, 0, 0)] is not the zero vector and its
    Euclidean length is [2^-600], so the vector divided by its length is
    [(1, 0, 0)]; but [x*x = 2^-1200] underflows to [0], the computed length
    is [0], and [normalize] returns the zero vector. *)
Lemma normalize_underflow :
  is_zero (Vec3.x (Vec3.mk 0x1p-600 0 0)) = false /\
  Vec3.div (Vec3.mk 0x1p-600 0 0) 0x1p-600 = Vec3.mk 1 0 0 /\
  Vec3.length (Vec3.mk 0x1p-600 0 0) = 0 /\
  Vec3.normalize (Vec3.mk 0x1p-600 0 0) = Vec3.mk 0 0 0.
Proof. repeat split; vm_compute; reflexivity. Qed.

(** C7, witness: [(3, 0, 4)] has computed length 5. *)
Lemma normalize_by_computed_length_witness :
  gtb (Vec3.length (Vec3.mk 3 0 4)) 0 = true /\
  Vec3.normalize (Vec3.mk 3 0 4) = Vec3.div (Vec3.mk 3 0 4) 5 /\
  Vec3.normalize (Vec3.mk 0 (-0) 0) = Vec3.mk 0 0 0.
Proof.
  assert (gtb (Vec3.length (Vec3.mk 3 0 4)) 0 = true) as H by (vm_compute; reflexivity).
  split; [exact H|]. split.
  - exact (proj1 (normalize_by_computed_length (Vec3.mk 3 0 4)) H).
  - exact (proj2 (proj2 (proj2 (proj2 (normalize_by_computed_length (Vec3.mk 0 (-0) 0))))
                    eq_refl)).
Defined.

(** C8 (amended).  A ray constructed from an origin and a raw direction
    keeps the origin, and its direction is [Vec3.normalize] of the raw
    direction: the raw direction divided by its computed length when that
    length is strictly positive, the zero vector otherwise, in particular
    for a zero raw direction.  When every component of the raw direction is
    a zero or has a magnitude between [2^-500] and [2^500], so that no
    square overflows or underflows, and the components are not all zeros,
    the computed length is strictly positive and the direction is of unit
    length up to rounding: its components are finite, and the exact sum of
    their squares differs from 1 by at most [2^-49].  The record has no
    operation that changes it: [at_] reads the two fields. *)
Theorem ray_direction_is_normalized_input (origin direction : Vec3.t) :
  Ray.origin (Ray.new origin direction) = origin /\
  Ray.direction (Ray.new origin direction) = Vec3.normalize direction /\
  (gtb (Vec3.length direction) 0 = true ->
     Ray.direction (Ray.new origin direction)
     = Vec3.div direction (Vec3.length direction)) /\
  (gtb (Vec3.length direction) 0 = false ->
     Ray.direction (Ray.new origin direction) = Vec3.mk 0 0 0) /\
  (is_zero (Vec3.x direction) && is_zero (Vec3.y direction)
   && is_zero (Vec3.z direction) = true ->
     Ray.direction (Ray.new origin direction) = Vec3.mk 0 0 0) /\
  (regularVec direction = true ->
   is_zero (Vec3.x direction) && is_zero (Vec3.y direction)
   && is_zero (Vec3.z direction) = false ->
     gtb (Vec3.length direction) 0 = true /\
     isFiniteVec (Ray.direction (Ray.new origin direction)) = true /\
     (1 - 2 ^ (-49) <= norm2 (Ray.direction (Ray.new origin direction)))%Q /\
     (norm2 (Ray.direction (Ray.new origin direction)) <= 1 + 2 ^ (-49))%Q) /\
  (forall k : float,
     Ray.at_ (Ray.new origin direction) k
     = (origin + Vec3.scale (Vec3.normalize direction) k)%vec3).
Proof.
  unfold Ray.new, Ray.at_. simpl.
  split; [reflexivity|]. split; [reflexivity|].
  split; [|split; [|split; [|split]]].
  - unfold Vec3.normalize. cbv zeta. now intros ->.
  - unfold Vec3.normalize. cbv zeta. now intros ->.
  - intros H. unfold Vec3.normalize. cbv zeta. now rewrite (zero_components_length _ H).
  - intros Hr Hnz.
    destruct (normalize_unit direction Hr Hnz) as (Hgt & Fx & Fy & Fz & Hlo & Hhi).
    split; [exact Hgt|]. split; [|split; assumption].
    unfold isFiniteVec. now rewrite Fx, Fy, Fz.
  - reflexivity.
Qed.

(** C8, counterexample.  For the raw direction [(2^600, 0, 0)] the square
    [x*x] overflows, the computed length is [+infinity], and the direction
    of the ray is the zero vector, of length 0; for [(1, 0, 1)] the
    direction has computed length [1 - 2^-53], not 1, and the exact sum of
    the squares of its components is not 1 either. *)
Lemma ray_direction_not_unit :
  is_zero (Vec3.x (Vec3.mk 0x1p600 0 0)) = false /\
  Vec3.length (Vec3.mk 0x1p600 0 0) = infinity /\
  Ray.direction (Ray.new (Vec3.mk 0 0 0) (Vec3.mk 0x1p600 0 0)) = Vec3.mk 0 0 0 /\
  Vec3.length (Ray.direction (Ray.new (Vec3.mk 0 0 0) (Vec3.mk 0x1p600 0 0))) = 0 /\
  Vec3.length (Ray.direction (Ray.new (Vec3.mk 0 0 0) (Vec3.mk 1 0 1)))
  = 0x1.fffffffffffffp-1 /\
  Qeq_bool (norm2 (Ray.direction (Ray.new (Vec3.mk 0 0 0) (Vec3.mk 1 0 1)))) 1 = false.
Proof. repeat split; vm_compute; reflexivity. Qed.

(** C8, witness: the ray of the examples, a zero raw direction, and the raw
    direction [(1, 0, 1)], whose components are regular. *)
Lemma ray_direction_is_normalized_input_witness :
  gtb (Vec3.length (Vec3.mk 0 0 (-1))) 0 = true /\
  Ray.direction axisRay = Vec3.div (Vec3.mk 0 0 (-1)) 1 /\
  Ray.direction (Ray.new (Vec3.mk 0 0 5) (Vec3.mk 0 0 0)) = Vec3.mk 0 0 0 /\
  regularVec (Vec3.mk 1 0 1) = true /\
  (1 - 2 ^ (-49) <= norm2 (Ray.direction (Ray.new (Vec3.mk 0 0 0) (Vec3.mk 1 0 1))))%Q /\
  (norm2 (Ray.direction (Ray.new (Vec3.mk 0 0 0) (Vec3.mk 1 0 1))) <= 1 + 2 ^ (-49))%Q.
Proof.
  assert (gtb (Vec3.length (Vec3.mk 0 0 (-1))) 0 = true) as H by (vm_compute; reflexivity).
  split; [exact H|]. split; [|split; [|split; [reflexivity|]]].
  - exact (proj1 (proj2 (proj2
             (ray_direction_is_normalized_input (Vec3.mk 0 0 5) (Vec3.mk 0 0 (-1))))) H).
  - exact (proj1 (proj2 (proj2 (proj2 (proj2
             (ray_direction_is_normalized_input (Vec3.mk 0 0 5) (Vec3.mk 0 0 0))))))
             eq_refl).
  - exact (proj2 (proj2 (proj1 (proj2 (proj2 (proj2 (proj2 (proj2
             (ray_direction_is_normalized_input (Vec3.mk 0 0 0) (Vec3.mk 1 0 1)))))))
             eq_refl eq_refl))).
Defined.
End VecClaims.

(** ** Sphere and Scene *)
Module SphereFacts.
Import FloatOrder FloatFacts Quadratic.

Lemma intersect_unfold s ray tMin tMax :
  Sphere.intersect s ray tMin tMax =
  if discriminant s ray <? 0 then None
  else if in_range (t0 s ray) tMin tMax then Some (t0 s ray)
  else if in_range (t1 s ray) tMin tMax then Some (t1 s ray)
  else None.
Proof. reflexivity. Qed.

Lemma in_range_iff t tMin tMax :
  in_range t tMin tMax = true <-> (tMin <=? t) = true /\ (t <=? tMax) = true.
Proof. unfold in_range, geb. now rewrite andb_true_iff. Qed.

Lemma in_range_infinity t tMin : in_range t tMin infinity = (tMin <=? t).
Proof.
  unfold in_range, geb. destruct (tMin <=? t) eqn:E; [|reflexivity].
  simpl. apply leb_infinity. eapply leb_not_nan_r; eauto.
Qed.

(** A reported distance lies in the interval that was asked for. *)
Lemma intersect_in_range s ray tMin tMax t :
  Sphere.intersect s ray tMin tMax = Some t ->
  (tMin <=? t) = true /\ (t <=? tMax) = true.
Proof.
  rewrite intersect_unfold.
  destruct (discriminant s ray <? 0); [discriminate|].
  destruct (in_range (t0 s ray) tMin tMax) eqn:E0.
  - intros [= <-]. now apply in_range_iff.
  - destruct (in_range (t1 s ray) tMin tMax) eqn:E1; [|discriminate].
    intros [= <-]. now apply in_range_iff.
Qed.

(** A reported distance is one of the two roots. *)
Lemma intersect_root s ray tMin tMax t :
  Sphere.intersect s ray tMin tMax = Some t ->
  (discriminant s ray <? 0) = false /\ (t = t0 s ray \/ t = t1 s ray).
Proof.
  rewrite intersect_unfold.
  destruct (discriminant s ray <? 0); [discriminate|].
  destruct (in_range (t0 s ray) tMin tMax); [intros [= <-]; auto|].
  destruct (in_range (t1 s ray) tMin tMax); [intros [= <-]; auto|discriminate].
Qed.

(** The computed roots are in order. *)
Lemma roots_not_gt s ray : (t1 s ray <? t0 s ray) = false.
Proof.
  pose proof (Roots.roots_always_ordered s ray) as H.
  unfold roots_ordered in H. now destruct (t1 s ray <? t0 s ray).
Qed.

Lemma roots_le s ray :
  is_nan (t0 s ray) = false -> is_nan (t1 s ray) = false ->
  (t0 s ray <=? t1 s ray) = true.
Proof.
  intros N0 N1. destruct (t0 s ray <=? t1 s ray) eqn:F; [reflexivity|].
  apply not_leb_ltb in F; [|assumption|assumption].
  now rewrite roots_not_gt in F.
Qed.

(** The roots being in order, a hit under a bound is the hit without a
    bound. *)
Lemma intersect_bounded_eq s ray tMin tMax t :
  Sphere.intersect s ray tMin tMax = Some t ->
  hitDistance ray tMin s = Some t.
Proof.
  pose proof (roots_not_gt s ray) as Hord.
  unfold hitDistance, Sphere.default_tMax. rewrite !intersect_unfold.
  destruct (discriminant s ray <? 0); [discriminate|].
  rewrite !in_range_infinity.
  destruct (in_range (t0 s ray) tMin tMax) eqn:E0.
  - intros [= <-]. apply in_range_iff in E0 as [E0 E0']. now rewrite E0.
  - destruct (in_range (t1 s ray) tMin tMax) eqn:E1; [|discriminate].
    intros [= <-]. apply in_range_iff in E1 as [E1 E1'].
    destruct (tMin <=? t0 s ray) eqn:F0.
    + exfalso. unfold in_range, geb in E0. rewrite F0 in E0. simpl in E0.
      assert ((t1 s ray <? t0 s ray) = true) as H.
      { eapply leb_ltb_trans; [exact E1'|].
        apply not_leb_ltb; eauto using leb_not_nan_r. }
      congruence.
    + now rewrite E1.
Qed.

(** The distance at which a sphere alone is hit is the least of its roots
    at or beyond [tMin]. *)
Lemma hitDistance_least s ray tMin r :
  (discriminant s ray <? 0) = false ->
  r = t0 s ray \/ r = t1 s ray ->
  (tMin <=? r) = true ->
  exists h, hitDistance ray tMin s = Some h /\ (h <=? r) = true.
Proof.
  unfold hitDistance, Sphere.default_tMax. rewrite intersect_unfold.
  intros -> Hr Hge. rewrite !in_range_infinity.
  assert (is_nan r = false) as Nr by (eapply leb_not_nan_r; eauto).
  destruct Hr as [-> | ->].
  - rewrite Hge. eexists; split; [reflexivity|now apply leb_refl].
  - destruct (tMin <=? t0 s ray) eqn:F0.
    + eexists; split; [reflexivity|].
      apply roots_le; [eapply leb_not_nan_r; eauto|assumption].
    + rewrite Hge. eexists; split; [reflexivity|now apply leb_refl].
Qed.

(** A miss under a bound that is not NaN: the sphere alone is hit, if at
    all, strictly beyond the bound. *)
Lemma intersect_miss_beyond s ray tMin tMax h :
  is_nan tMax = false ->
  Sphere.intersect s ray tMin tMax = None ->
  hitDistance ray tMin s = Some h ->
  (tMax <? h) = true.
Proof.
  unfold hitDistance, Sphere.default_tMax. rewrite !intersect_unfold.
  intros Hnan.
  destruct (discriminant s ray <? 0); [discriminate|].
  rewrite !in_range_infinity. unfold in_range, geb.
  destruct (tMin <=? t0 s ray) eqn:F0; simpl.
  - destruct (t0 s ray <=? tMax) eqn:G0; [discriminate|].
    intros _ [= <-]. apply not_leb_ltb; eauto using leb_not_nan_r.
  - destruct (tMin <=? t1 s ray) eqn:F1; simpl; [|discriminate].
    destruct (t1 s ray <=? tMax) eqn:G1; [discriminate|].
    intros _ [= <-]. apply not_leb_ltb; eauto using leb_not_nan_r.
Qed.
End SphereFacts.

Module SceneFacts.
Import FloatOrder FloatFacts Quadratic SphereFacts.

Lemma int_of_size_t_small (n : nat) :
  (Z.of_nat n < 2 ^ 31)%Z -> int_of_size_t n = Z.of_nat n.
Proof.
  intros H. unfold int_of_size_t.
  rewrite Z.mod_small by lia. lia.
Qed.

Lemma size_t_of_int_small (n : nat) :
  (Z.of_nat n < 2 ^ 31)%Z -> size_t_of_int (Z.of_nat n) = n.
Proof.
  intros H. unfold size_t_of_int.
  rewrite Z.mod_small by lia. lia.
Qed.

Lemma state_not_nan ray tMin pre tC idx :
  Closest.state ray tMin pre tC idx -> is_nan tC = false.
Proof.
  intros [(_ & -> & _)|(k & s & _ & _ & HM & _)]; [reflexivity|].
  apply intersect_in_range in HM as [H _]. eapply leb_not_nan_r; eauto.
Qed.

(** One more sphere tested. *)
Lemma state_step ray tMin pre s tC idx :
  (Z.of_nat (List.length pre) < 2 ^ 31)%Z ->
  Closest.state ray tMin pre tC idx ->
  match Sphere.intersect s ray tMin tC with
  | Some t => Closest.state ray tMin (pre ++ [s]) t (int_of_size_t (List.length pre))
  | None => Closest.state ray tMin (pre ++ [s]) tC idx
  end.
Proof.
  intros Hlen Hst.
  pose proof (state_not_nan _ _ _ _ _ Hst) as Hnan.
  destruct (Sphere.intersect s ray tMin tC) as [t|] eqn:E.
  - (* the sphere is hit within the bound: it becomes the closest *)
    right. exists (List.length pre), s.
    rewrite int_of_size_t_small by assumption.
    split; [reflexivity|]. split; [apply list_lookup_middle; reflexivity|].
    split; [eapply intersect_bounded_eq; eauto|].
    pose proof (intersect_in_range _ _ _ _ _ E) as [Ht1 Ht2].
    intros j s' t' Hj Hh.
    apply lookup_app_Some in Hj as [Hj|[Hge Hj]].
    + split; [|intros Hlt; apply lookup_lt_Some in Hj; lia].
      destruct Hst as [(_ & _ & Hnone)|(k & s0 & _ & _ & _ & Hmin)].
      * rewrite Hnone in Hh by (eapply list_elem_of_lookup_2; eauto). discriminate.
      * destruct (Hmin j s' t' Hj Hh) as [Hle _]. eapply leb_trans; eauto.
    + apply list_lookup_singleton_Some in Hj as [Hj <-].
      split; [|lia].
      pose proof (intersect_bounded_eq _ _ _ _ _ E) as Hh'.
      rewrite Hh in Hh'. injection Hh' as ->.
      apply leb_refl. eapply leb_not_nan_r; eauto.
  - (* the sphere is missed within the bound *)
    destruct Hst as [(-> & -> & Hnone)|(k & s0 & -> & Hk & HM & Hmin)].
    + left. split; [reflexivity|]. split; [reflexivity|].
      intros s' Hin. apply elem_of_app in Hin as [Hin|Hin]; [auto|].
      apply list_elem_of_singleton in Hin as ->.
      destruct (hitDistance ray tMin s) as [h|] eqn:Hh; [|reflexivity].
      pose proof (intersect_miss_beyond _ _ _ _ _ Hnan E Hh) as Hlt.
      rewrite infinity_ltb in Hlt. discriminate.
    + right. exists k, s0.
      split; [reflexivity|]. split; [apply lookup_app_l_Some; assumption|].
      split; [assumption|].
      intros j s' t' Hj Hh.
      apply lookup_app_Some in Hj as [Hj|[Hge Hj]]; [eauto|].
      apply list_lookup_singleton_Some in Hj as [Hj <-].
      pose proof (intersect_miss_beyond _ _ _ _ _ Hnan E Hh) as Hlt.
      split; [now apply ltb_leb|auto].
Qed.

(** The loop keeps the state. *)
Lemma loop_state ray tMin ss : forall pre tC idx,
  (Z.of_nat (List.length (pre ++ ss)) < 2 ^ 31)%Z ->
  Closest.state ray tMin pre tC idx ->
  let '(tC', idx') := Scene.intersect_loop ray tMin ss (List.length pre) tC idx in
  Closest.state ray tMin (pre ++ ss) tC' idx'.
Proof.
  induction ss as [|s ss IH]; intros pre tC idx Hlen Hst; simpl.
  - now rewrite app_nil_r.
  - rewrite length_app in Hlen. simpl in Hlen.
    pose proof (state_step ray tMin pre s tC idx ltac:(lia) Hst) as Hstep.
    replace (pre ++ s :: ss) with ((pre ++ [s]) ++ ss) by now rewrite <- app_assoc.
    replace (S (List.length pre)) with (List.length (pre ++ [s]))
      by (rewrite length_app; simpl; lia).
    destruct (Sphere.intersect s ray tMin tC) as [t|];
      apply IH; try assumption; rewrite !length_app; simpl; lia.
Qed.

Lemma state_initial ray tMin : Closest.state ray tMin [] infinity (-1).
Proof.
  left. split; [reflexivity|]. split; [reflexivity|].
  intros s Hin. now apply elem_of_nil in Hin.
Qed.

(** The values [Scene.intersect] returns are a state of the whole scene. *)
Lemma intersect_state sc ray tMin :
  (Z.of_nat (List.length (Scene.spheres sc)) < 2 ^ 31)%Z ->
  exists hit t idx,
    Scene.intersect sc ray tMin = (hit, t, idx) /\
    hit = negb (idx =? -1)%Z /\
    Closest.state ray tMin (Scene.spheres sc) t idx.
Proof.
  intros Hlen. unfold Scene.intersect.
  pose proof (loop_state ray tMin (Scene.spheres sc) [] infinity (-1) Hlen
                (state_initial ray tMin)) as H.
  simpl in H.
  destruct (Scene.intersect_loop ray tMin (Scene.spheres sc) 0 infinity (-1)) as [t idx].
  exists (negb (idx =? -1)%Z), t, idx. auto.
Qed.
End SceneFacts.

Module SceneTheorems.
Import FloatOrder FloatFacts Quadratic SphereFacts SceneFacts.

Lemma state_hit_flag ray tMin ss t idx :
  Closest.state ray tMin ss t idx ->
  negb (idx =? -1)%Z = false ->
  idx = (-1)%Z /\ t = infinity /\ forall s, s ∈ ss -> hitDistance ray tMin s = None.
Proof.
  intros [H|(k & s & -> & _)] Hflag; [assumption|]. lia.
Qed.

Lemma state_hit ray tMin ss t idx :
  Closest.state ray tMin ss t idx ->
  negb (idx =? -1)%Z = true ->
  exists (k : nat) (s : Sphere.t),
    idx = Z.of_nat k /\ ss !! k = Some s /\
    hitDistance ray tMin s = Some t /\
    forall (j : nat) (s' : Sphere.t) (t' : float),
      ss !! j = Some s' -> hitDistance ray tMin s' = Some t' ->
      (t <=? t') = true /\ ((k < j)%nat -> (t <? t') = true).
Proof.
  intros [(-> & _)|H] Hflag; [discriminate|assumption].
Qed.

(** The distance of a hit does not depend on the order of the spheres. *)
Lemma state_permutation ray tMin ss ss' t idx t' idx' :
  ss' ≡ₚ ss ->
  Closest.state ray tMin ss t idx ->
  Closest.state ray tMin ss' t' idx' ->
  negb (idx' =? -1)%Z = negb (idx =? -1)%Z /\
  (negb (idx =? -1)%Z = true -> (t' =? t) = true).
Proof.
  intros Hperm Hst Hst'.
  assert (forall ss1 ss2 t1 idx1 t2 idx2,
    ss2 ≡ₚ ss1 ->
    Closest.state ray tMin ss1 t1 idx1 -> Closest.state ray tMin ss2 t2 idx2 ->
    negb (idx1 =? -1)%Z = true ->
    negb (idx2 =? -1)%Z = true /\ (t2 <=? t1) = true) as Hone.
  { clear. intros ss1 ss2 t1 idx1 t2 idx2 Hperm H1 H2 Hflag.
    destruct (state_hit _ _ _ _ _ H1 Hflag) as (k & s & -> & Hk & Heq & _).
    assert (s ∈ ss1) as Hin by (eapply list_elem_of_lookup_2; eauto).
    assert (s ∈ ss2) as Hin2 by now rewrite Hperm.
    destruct H2 as [(_ & _ & Hnone)|(k2 & s2 & -> & _ & _ & Hmin)].
    - rewrite Hnone in Heq by assumption. discriminate.
    - split; [lia|].
      apply list_elem_of_lookup_1 in Hin2 as [j Hj].
      now destruct (Hmin j s t1 Hj Heq). }
  destruct (negb (idx =? -1)%Z) eqn:Hflag.
  - destruct (Hone ss ss' t idx t' idx' Hperm Hst Hst' Hflag) as [Hflag' Hle].
    split; [assumption|]. intros _.
    destruct (Hone ss' ss t' idx' t idx (symmetry Hperm) Hst' Hst Hflag') as [_ Hle'].
    now apply leb_antisym.
  - split; [|discriminate].
    destruct (negb (idx' =? -1)%Z) eqn:Hflag'; [|reflexivity].
    destruct (Hone ss' ss t' idx' t idx (symmetry Hperm) Hst' Hst Hflag') as [Hc _].
    congruence.
Qed.

End SceneTheorems.

Module SceneClaims.
Import FloatOrder FloatFacts Quadratic SphereFacts SceneFacts SceneTheorems Examples.

(** C1 (amended).  For every ray and every sequence of fewer than [2^31]
    spheres, [Scene.intersect] reports a hit exactly when some sphere alone
    is hit; the distance it returns is the distance at which the returned
    sphere alone is hit (one of its two roots, at or beyond [tMin]), it is
    the minimum of the roots at or beyond [tMin] of all the spheres of the
    scene, and it is strictly less than the distance at which any sphere
    tested later is hit: when several spheres are hit at exactly the same
    minimal distance, the returned index is that of the one tested last.
    Whether there is a hit, and the returned distance (as a number), are
    the same for every insertion order of the same spheres. *)
Theorem intersect_closest_last_wins (sc : Scene.t) (ray : Ray.t) (tMin : float)
    (hit : bool) (t : float) (idx : Z) :
  (Z.of_nat (List.length (Scene.spheres sc)) < 2 ^ 31)%Z ->
  Scene.intersect sc ray tMin = (hit, t, idx) ->
  (hit = false ->
     forall s, s ∈ Scene.spheres sc -> hitDistance ray tMin s = None) /\
  (hit = true ->
     exists (i : nat) (s : Sphere.t),
       idx = Z.of_nat i /\ Scene.spheres sc !! i = Some s /\
       hitDistance ray tMin s = Some t /\
       (tMin <=? t) = true /\ (t = t0 s ray \/ t = t1 s ray) /\
       (forall (s' : Sphere.t) (r : float),
          s' ∈ Scene.spheres sc -> (discriminant s' ray <? 0) = false ->
          r = t0 s' ray \/ r = t1 s' ray -> (tMin <=? r) = true ->
          (t <=? r) = true) /\
       forall (j : nat) (s' : Sphere.t) (t' : float),
         Scene.spheres sc !! j = Some s' -> hitDistance ray tMin s' = Some t' ->
         (t <=? t') = true /\ ((i < j)%nat -> (t <? t') = true)) /\
  (forall (sc' : Scene.t) (hit' : bool) (t' : float) (idx' : Z),
     Scene.spheres sc' ≡ₚ Scene.spheres sc ->
     Scene.intersect sc' ray tMin = (hit', t', idx') ->
     hit' = hit /\ (hit = true -> (t' =? t) = true)).
Proof.
  intros Hlen Hres.
  destruct (intersect_state sc ray tMin Hlen) as (hit0 & t0' & idx0 & Hres0 & Hflag & Hst).
  rewrite Hres in Hres0. injection Hres0 as <- <- <-.
  split; [|split].
  - intros ->. symmetry in Hflag.
    now destruct (state_hit_flag _ _ _ _ _ Hst Hflag) as (_ & _ & Hnone).
  - intros ->. symmetry in Hflag.
    destruct (state_hit _ _ _ _ _ Hst Hflag) as (k & s & -> & Hk & HM & Hmin).
    exists k, s. split; [reflexivity|]. split; [assumption|]. split; [assumption|].
    destruct (intersect_in_range _ _ _ _ _ HM) as [Hge _].
    destruct (intersect_root _ _ _ _ _ HM) as [_ Hroot].
    split; [assumption|]. split; [assumption|]. split; [|assumption].
    intros s' r Hin Hd Hr Hr'.
    destruct (hitDistance_least s' ray tMin r Hd Hr Hr') as (h & Hh & Hle).
    apply list_elem_of_lookup_1 in Hin as [j Hj].
    destruct (Hmin j s' h Hj Hh) as [Hth _]. eapply leb_trans; eauto.
  - intros sc' hit' t' idx' Hperm Hres'.
    assert (Z.of_nat (List.length (Scene.spheres sc')) < 2 ^ 31)%Z as Hlen'
      by now rewrite Hperm.
    destruct (intersect_state sc' ray tMin Hlen') as (h & tt & ii & Hres0 & Hflag' & Hst').
    rewrite Hres' in Hres0. injection Hres0 as <- <- <-.
    destruct (state_permutation _ _ _ _ _ _ _ _ Hperm Hst Hst') as [Hf Ht].
    split; [congruence|]. intros ->. apply Ht. now symmetry.
Qed.

(** C1, counterexample.  [unitSphere] and [wideSphere] are both hit by
    [axisRay] at distance exactly 4; whichever is added first, the index
    returned is 1, that of the sphere added second. *)
Lemma first_added_sphere_does_not_win :
  hitDistance axisRay 0.001 unitSphere = Some 4 /\
  hitDistance axisRay 0.001 wideSphere = Some 4 /\
  Scene.intersect (sceneOf [unitSphere; wideSphere]) axisRay 0.001 = (true, 4, 1%Z) /\
  Scene.intersect (sceneOf [wideSphere; unitSphere]) axisRay 0.001 = (true, 4, 1%Z).
Proof. repeat split; vm_compute; reflexivity. Qed.

(** C1, witness: the scene of [main] and [axisRay]; the red sphere, added
    first, is the only sphere hit. *)
Lemma intersect_closest_last_wins_witness :
  (Z.of_nat (List.length (Scene.spheres Main.scene)) < 2 ^ 31)%Z /\
  Scene.intersect Main.scene axisRay 0.001 = (true, 4, 0%Z) /\
  (exists (i : nat) (s : Sphere.t),
     0%Z = Z.of_nat i /\ Scene.spheres Main.scene !! i = Some s /\
     hitDistance axisRay 0.001 s = Some 4 /\
     (0.001 <=? 4) = true /\ (4 = t0 s axisRay \/ 4 = t1 s axisRay) /\
     (forall (s' : Sphere.t) (r : float),
        s' ∈ Scene.spheres Main.scene -> (discriminant s' axisRay <? 0) = false ->
        r = t0 s' axisRay \/ r = t1 s' axisRay -> (0.001 <=? r) = true ->
        (4 <=? r) = true) /\
     forall (j : nat) (s' : Sphere.t) (t' : float),
       Scene.spheres Main.scene !! j = Some s' ->
       hitDistance axisRay 0.001 s' = Some t' ->
       (4 <=? t') = true /\ ((i < j)%nat -> (4 <? t') = true)).
Proof.
  assert (Z.of_nat (List.length (Scene.spheres Main.scene)) < 2 ^ 31)%Z as Hlen
    by (vm_compute; reflexivity).
  assert (Scene.intersect Main.scene axisRay 0.001 = (true, 4, 0%Z)) as Hres
    by (vm_compute; reflexivity).
  split; [exact Hlen|]. split; [exact Hres|].
  exact (proj1 (proj2 (intersect_closest_last_wins Main.scene axisRay 0.001
                         true 4 0%Z Hlen Hres)) eq_refl).
Defined.

(** C10 (amended).  For a scene of fewer than [2^31] spheres: when
    [Scene.intersect] reports a hit, the returned index is a valid index
    into the sphere sequence, so [spheres[sphereIdx]] is in bounds, and the
    returned distance [t] satisfies [tMin <= t <= +infinity] (it is not NaN,
    but it can be [+infinity] itself); when it reports no hit, the index is
    [-1] and the distance is [+infinity]. *)
Theorem intersect_index_in_bounds (sc : Scene.t) (ray : Ray.t) (tMin : float)
    (hit : bool) (t : float) (idx : Z) :
  (Z.of_nat (List.length (Scene.spheres sc)) < 2 ^ 31)%Z ->
  Scene.intersect sc ray tMin = (hit, t, idx) ->
  (hit = true ->
     (0 <= idx < Z.of_nat (List.length (Scene.spheres sc)))%Z /\
     is_Some (Scene.spheres sc !! size_t_of_int idx) /\
     (tMin <=? t) = true /\ (t <=? infinity) = true) /\
  (hit = false -> idx = (-1)%Z /\ t = infinity).
Proof.
  intros Hlen Hres.
  destruct (intersect_state sc ray tMin Hlen) as (hit0 & t0' & idx0 & Hres0 & Hflag & Hst).
  rewrite Hres in Hres0. injection Hres0 as <- <- <-.
  split.
  - intros ->. symmetry in Hflag.
    destruct (state_hit _ _ _ _ _ Hst Hflag) as (k & s & -> & Hk & HM & _).
    pose proof (lookup_lt_Some _ _ _ Hk) as Hlt.
    destruct (intersect_in_range _ _ _ _ _ HM) as [Hge _].
    split; [lia|]. split.
    + rewrite size_t_of_int_small by lia. eauto.
    + split; [assumption|]. apply leb_infinity. eapply leb_not_nan_r; eauto.
  - intros ->. symmetry in Hflag.
    now destruct (state_hit_flag _ _ _ _ _ Hst Hflag) as (? & ? & _).
Qed.

(** C10, counterexample.  The squared radius of [hugeSphere] overflows to
    [+infinity], so do the discriminant and the root [t1]; the hit is
    reported at distance [+infinity], which is not below [+infinity]. *)
Lemma hit_distance_can_be_infinite :
  Sphere.radius hugeSphere * Sphere.radius hugeSphere = infinity /\
  discriminant hugeSphere axisRay = infinity /\
  t0 hugeSphere axisRay = neg_infinity /\ t1 hugeSphere axisRay = infinity /\
  Scene.intersect (sceneOf [hugeSphere]) axisRay 0.001 = (true, infinity, 0%Z) /\
  (infinity <? infinity) = false.
Proof. repeat split; vm_compute; reflexivity. Qed.

(** C10, witness: the scene of [main] and [axisRay]. *)
Lemma intersect_index_in_bounds_witness :
  (Z.of_nat (List.length (Scene.spheres Main.scene)) < 2 ^ 31)%Z /\
  Scene.intersect Main.scene axisRay 0.001 = (true, 4, 0%Z) /\
  ((0 <= 0 < Z.of_nat (List.length (Scene.spheres Main.scene)))%Z /\
   is_Some (Scene.spheres Main.scene !! size_t_of_int 0) /\
   (0.001 <=? 4) = true /\ (4 <=? infinity) = true).
Proof.
  assert (Z.of_nat (List.length (Scene.spheres Main.scene)) < 2 ^ 31)%Z as Hlen
    by (vm_compute; reflexivity).
  assert (Scene.intersect Main.scene axisRay 0.001 = (true, 4, 0%Z)) as Hres
    by (vm_compute; reflexivity).
  split; [exact Hlen|]. split; [exact Hres|].
  exact (proj1 (intersect_index_in_bounds Main.scene axisRay 0.001
                  true 4 0%Z Hlen Hres) eq_refl).
Defined.

(** C2.  [Scene.isInShadow] returns [true] exactly when the closest
    intersection that [Scene.intersect] finds along the ray from the point
    towards the light, with [tMin = 0.001], exists at a distance strictly
    less than the length of [lightPos - point]; an intersection at a
    distance equal to or beyond that length does not count. *)
Theorem isInShadow_iff_strictly_closer (sc : Scene.t) (point lightPos : Vec3.t) :
  (Scene.isInShadow sc point lightPos = true <->
   exists (t : float) (idx : Z),
     Scene.intersect sc (Ray.new point (lightPos - point)%vec3) 0.001 = (true, t, idx) /\
     (t <? Vec3.length (lightPos - point)%vec3) = true) /\
  (forall (t : float) (idx : Z),
     Scene.intersect sc (Ray.new point (lightPos - point)%vec3) 0.001 = (true, t, idx) ->
     (Vec3.length (lightPos - point)%vec3 <=? t) = true ->
     Scene.isInShadow sc point lightPos = false).
Proof.
  unfold Scene.isInShadow.
  destruct (Scene.intersect sc (Ray.new point (lightPos - point)%vec3) 0.001)
    as [[hit t] idx] eqn:E.
  split; [split|].
  - destruct hit; [|discriminate]. intros H. eauto.
  - intros (t' & idx' & [= -> -> ->] & H). exact H.
  - intros t' idx' [= -> -> ->] H. now apply leb_not_ltb.
Qed.

(** C2, witness: in the scene of [main], the red sphere lies between the
    point [(0,0,5)] and a light at [(0,0,-5)]; a light at [(0,0,1)], on
    the surface of the sphere at distance exactly 4, is not occluded. *)
Lemma isInShadow_iff_strictly_closer_witness :
  Scene.isInShadow Main.scene (Vec3.mk 0 0 5) (Vec3.mk 0 0 (-5)) = true /\
  Scene.isInShadow Main.scene (Vec3.mk 0 0 5) (Vec3.mk 0 0 1) = false.
Proof.
  split.
  - apply (proj1 (isInShadow_iff_strictly_closer Main.scene (Vec3.mk 0 0 5) (Vec3.mk 0 0 (-5)))).
    exists 4, 0%Z. split; vm_compute; reflexivity.
  - apply (proj2 (isInShadow_iff_strictly_closer Main.scene (Vec3.mk 0 0 5) (Vec3.mk 0 0 1))
             4 0%Z); vm_compute; reflexivity.
Defined.

(** C3.  With [a = D.D], [b = 2 (O - C).D], [c = |O - C|^2 - r^2] and the
    discriminant [b^2 - 4ac], [Sphere.intersect] reports a miss when the
    discriminant is negative; otherwise, with [t0] the root of the minus
    sign and [t1] the root of the plus sign, it returns [t0] if [t0] lies in
    [[tMin, tMax]], else [t1] if [t1] lies in [[tMin, tMax]], else it reports
    a miss.  The two roots are in order: as computed in doubles, [t1] is
    never below [t0], and [t0 <= t1] whenever neither is NaN; hence the
    distance returned is the least root within [[tMin, tMax]].  All of this
    holds for every ray, of unit direction or not. *)
Theorem intersect_selection_policy (s : Sphere.t) (ray : Ray.t) (tMin tMax : float) :
  ((discriminant s ray <? 0) = true -> Sphere.intersect s ray tMin tMax = None) /\
  ((discriminant s ray <? 0) = false ->
     Sphere.intersect s ray tMin tMax =
       if in_range (t0 s ray) tMin tMax then Some (t0 s ray)
       else if in_range (t1 s ray) tMin tMax then Some (t1 s ray)
       else None) /\
  (t1 s ray <? t0 s ray) = false /\
  (is_nan (t0 s ray) = false -> is_nan (t1 s ray) = false ->
     (t0 s ray <=? t1 s ray) = true) /\
  (forall t, Sphere.intersect s ray tMin tMax = Some t ->
     forall r, r = t0 s ray \/ r = t1 s ray -> in_range r tMin tMax = true ->
     (t <=? r) = true).
Proof.
  pose proof (roots_not_gt s ray) as Hord.
  pose proof (roots_le s ray) as Hle.
  rewrite intersect_unfold. split; [|split; [|split; [|split]]].
  - now intros ->.
  - now intros ->.
  - exact Hord.
  - exact Hle.
  - intros t.
    destruct (discriminant s ray <? 0); [discriminate|].
    destruct (in_range (t0 s ray) tMin tMax) eqn:E0.
    + intros [= <-] r [-> | ->] Hr.
      * apply leb_refl. apply in_range_iff in E0 as [E0 _]. eapply leb_not_nan_r; eauto.
      * apply in_range_iff in E0 as [E0 _]. apply in_range_iff in Hr as [Hr _].
        apply Hle; eapply leb_not_nan_r; eauto.
    + destruct (in_range (t1 s ray) tMin tMax) eqn:E1; [|discriminate].
      intros [= <-] r [-> | ->] Hr; [congruence|].
      apply leb_refl. apply in_range_iff in E1 as [E1 _]. eapply leb_not_nan_r; eauto.
Qed.

(** C3, witness: the unit sphere at the origin and [axisRay] (section 8,
    item 2 of the specification): discriminant 4, roots 4 and 6, hit at 4;
    with [tMin] beyond the first root the far root 6 is returned; the
    sphere displaced by 3 along x is missed. *)
Lemma intersect_selection_policy_witness :
  discriminant unitSphere axisRay = 4 /\
  (discriminant unitSphere axisRay <? 0) = false /\
  t0 unitSphere axisRay = 4 /\ t1 unitSphere axisRay = 6 /\
  Sphere.intersect unitSphere axisRay 0.001 infinity = Some 4 /\
  Sphere.intersect unitSphere axisRay 5 infinity = Some 6 /\
  Sphere.intersect unitSphere axisRay 0.001 3 = None /\
  Sphere.intersect
    (Sphere.mk (Vec3.mk 3 0 0) 1 (Material.mk (Vec3.mk 1 0 0))) axisRay 0.001 infinity = None.
Proof.
  assert ((discriminant unitSphere axisRay <? 0) = false) as Hd by (vm_compute; reflexivity).
  split; [vm_compute; reflexivity|]. split; [exact Hd|].
  split; [vm_compute; reflexivity|]. split; [vm_compute; reflexivity|].
  split; [|split; [|split]].
  - rewrite (proj1 (proj2 (intersect_selection_policy unitSphere axisRay 0.001 infinity)) Hd).
    vm_compute; reflexivity.
  - rewrite (proj1 (proj2 (intersect_selection_policy unitSphere axisRay 5 infinity)) Hd).
    vm_compute; reflexivity.
  - rewrite (proj1 (proj2 (intersect_selection_policy unitSphere axisRay 0.001 3)) Hd).
    vm_compute; reflexivity.
  - apply (proj1 (intersect_selection_policy _ axisRay 0.001 infinity)).
    vm_compute; reflexivity.
Defined.
End SceneClaims.

(** ** Camera *)
Module CameraClaims.
Import CameraBasis Examples.

(** C6 (amended).  For every pixel [(u, v)] and image dimensions,
    [Camera.getRay] computes [ndcX = (2u/width - 1) * aspect * scale] and
    [ndcY = (1 - 2v/height) * scale], with [scale] the tangent of half the
    field of view and [aspect = width/height], and returns the ray
    constructed from the camera position and
    [normalize (forward + right*ndcX + trueUp*ndcY)]: its origin is the
    camera position, and its direction is that vector normalized once more
    by the constructor of the ray. *)
Theorem getRay_through_pixel (tan : float -> float) (c : Camera.t) (u v : float)
    (width height : Z) :
  Camera.getRay tan c u v width height
  = Ray.new (Camera.position c) (Vec3.normalize (through tan c u v width height)) /\
  Ray.origin (Camera.getRay tan c u v width height) = Camera.position c /\
  Ray.direction (Camera.getRay tan c u v width height)
  = Vec3.normalize (Vec3.normalize (through tan c u v width height)).
Proof. repeat split. Qed.

(** C6, counterexample.  The camera of [main], the pixel [(0, 0)] of the
    800 x 600 image: normalizing [forward + right*ndcX + trueUp*ndcY] once
    gives a vector of computed length [1 - 2^-53]; the constructor of the
    ray divides by that length again, and the direction of the returned
    ray differs from the vector normalized once in all three components. *)
Lemma getRay_direction_normalized_twice :
  Vec3.normalize (through tan_fov60 Main.camera 0 0 800 600)
  = Vec3.mk (-0.55470019622522904) 0.41602514716892181 (-0.7205766921228921) /\
  Vec3.length (Vec3.normalize (through tan_fov60 Main.camera 0 0 800 600))
  = 0x1.fffffffffffffp-1 /\
  Ray.direction (Camera.getRay tan_fov60 Main.camera 0 0 800 600)
  = Vec3.mk (-0.55470019622522915) 0.41602514716892186 (-0.72057669212289222).
Proof. repeat split; vm_compute; reflexivity. Qed.

(** The camera of [main] looks down the negative z axis: its basis is
    [(0, 0, -1)], [(1, -0, 0)], [(0, 1, 0)], and the ray through the centre
    [(400, 300)] of the 800 x 600 image has the device coordinates [(0, 0)]
    and the direction [forward]. *)
Lemma main_camera_centre :
  forward Main.camera = Vec3.mk 0 0 (-1) /\
  right Main.camera = Vec3.mk 1 (-0) 0 /\
  trueUp Main.camera = Vec3.mk 0 1 0 /\
  ndcX tan_fov60 Main.camera 400 800 600 = 0 /\
  ndcY tan_fov60 Main.camera 300 600 = 0 /\
  Camera.getRay tan_fov60 Main.camera 400 300 800 600
  = Ray.mk (Vec3.mk 0 0 5) (Vec3.mk 0 0 (-1)).
Proof. repeat split; vm_compute; reflexivity. Qed.
End CameraClaims.

(** ** Image and Renderer *)
Module ImageFacts.

Lemma in_bounds_iff img x y :
  Image.in_bounds img x y = true <->
  (0 <= x < Image.width img /\ 0 <= y < Image.height img)%Z.
Proof. unfold Image.in_bounds. lia. Qed.

(** The constructor establishes [wf]. *)
Lemma new_wf width height :
  (0 <= width < 2 ^ 31)%Z -> (0 <= height < 2 ^ 31)%Z ->
  (width * height < 2 ^ 31)%Z ->
  Image.wf (Image.new width height).
Proof.
  intros Hw Hh Hp. unfold Image.wf, Image.new. simpl.
  rewrite length_replicate. repeat split; try lia.
Qed.

(** The index of a pixel in bounds is computed within [int]. *)
Lemma index_in_int img x y :
  Image.wf img -> Image.in_bounds img x y = true ->
  (0 <= y * Image.width img < 2 ^ 31)%Z /\
  (0 <= y * Image.width img + x < 2 ^ 31)%Z.
Proof.
  intros (Hw & Hh & Hp & _) Hb. apply in_bounds_iff in Hb. nia.
Qed.

Lemma index_lt img x y :
  Image.wf img -> Image.in_bounds img x y = true ->
  (Z.to_nat (y * Image.width img + x) < List.length (Image.pixels img))%nat.
Proof.
  intros (Hw & Hh & _ & Hlen) Hb. apply in_bounds_iff in Hb. nia.
Qed.

Lemma index_inj img x y x' y' :
  Image.in_bounds img x y = true -> Image.in_bounds img x' y' = true ->
  Z.to_nat (y * Image.width img + x) = Z.to_nat (y' * Image.width img + x') ->
  x = x' /\ y = y'.
Proof.
  intros Hb Hb' Heq. apply in_bounds_iff in Hb, Hb'.
  assert (y * Image.width img + x = y' * Image.width img + x')%Z as H by nia.
  assert (y = y') by nia. subst. lia.
Qed.

Lemma setPixel_width img x y c : Image.width (Image.setPixel img x y c) = Image.width img.
Proof. unfold Image.setPixel. now destruct (Image.in_bounds img x y). Qed.

Lemma setPixel_height img x y c : Image.height (Image.setPixel img x y c) = Image.height img.
Proof. unfold Image.setPixel. now destruct (Image.in_bounds img x y). Qed.

Lemma setPixel_wf img x y c : Image.wf img -> Image.wf (Image.setPixel img x y c).
Proof.
  unfold Image.wf, Image.setPixel. intros (Hw & Hh & Hp & Hlen).
  destruct (Image.in_bounds img x y); simpl; [|auto].
  now rewrite length_insert.
Qed.

Lemma in_bounds_setPixel img x y c x' y' :
  Image.in_bounds (Image.setPixel img x y c) x' y' = Image.in_bounds img x' y'.
Proof.
  unfold Image.in_bounds. now rewrite setPixel_width, setPixel_height.
Qed.

(** Reading back after a write. *)
Lemma getPixel_setPixel img x y c x' y' :
  Image.wf img -> Image.in_bounds img x y = true ->
  Image.getPixel (Image.setPixel img x y c) x' y'
  = if ((x' =? x) && (y' =? y))%Z then c else Image.getPixel img x' y'.
Proof.
  intros Hwf Hb. unfold Image.getPixel.
  rewrite in_bounds_setPixel.
  destruct (Image.in_bounds img x' y') eqn:Hb'.
  - unfold Image.setPixel. rewrite Hb. simpl.
    destruct ((x' =? x) && (y' =? y))%Z eqn:E.
    + assert (x' = x /\ y' = y) as [-> ->] by lia.
      rewrite list_lookup_insert_eq by (now apply index_lt). reflexivity.
    + rewrite list_lookup_insert_ne; [reflexivity|].
      intros Heq. apply index_inj in Heq as [-> ->]; [lia|assumption|assumption].
  - destruct ((x' =? x) && (y' =? y))%Z eqn:E; [|reflexivity].
    assert (x' = x /\ y' = y) as [-> ->] by lia. congruence.
Qed.
End ImageFacts.

Module LoopFacts.

(** Two bodies that agree on the states of an invariant give the same loop. *)
Lemma for_loop_ext {St : Type} (P : St -> Prop) (body1 body2 : Z -> St -> option St) n :
  forall i s,
  P s ->
  (forall j s, P s -> body1 j s = body2 j s) ->
  (forall j s s', P s -> body2 j s = Some s' -> P s') ->
  Renderer.for_loop n i body1 s = Renderer.for_loop n i body2 s.
Proof.
  induction n as [|n IH]; intros i s Hs Heq Hpres; simpl; [reflexivity|].
  rewrite (Heq i s Hs).
  destruct (body2 i s) as [s'|] eqn:E; [|reflexivity].
  apply IH; eauto.
Qed.

(** A loop whose body never fails on the states of an invariant ends, in a
    state of the invariant. *)
Lemma for_loop_inv {St : Type} (I : Z -> St -> Prop) (body : Z -> St -> option St) n :
  forall i s,
  I i s ->
  (forall j s, (i <= j < i + Z.of_nat n)%Z -> I j s ->
     exists s', body j s = Some s' /\ I (j + 1)%Z s') ->
  exists s', Renderer.for_loop n i body s = Some s' /\ I (i + Z.of_nat n)%Z s'.
Proof.
  induction n as [|n IH]; intros i s Hi Hstep; simpl Renderer.for_loop.
  - exists s. split; [reflexivity|]. now replace (i + Z.of_nat 0)%Z with i by lia.
  - destruct (Hstep i s ltac:(lia) Hi) as (s' & -> & Hi').
    destruct (IH (i + 1)%Z s' Hi') as (s'' & Hrun & Hend).
    + intros j s0 Hj. apply Hstep. lia.
    + exists s''. split; [assumption|].
      now replace (i + Z.of_nat (S n))%Z with (i + 1 + Z.of_nat n)%Z by lia.
Qed.

Lemma for_int_inv {St : Type} (I : Z -> St -> Prop) (body : Z -> St -> option St) hi s :
  (0 <= hi)%Z ->
  I 0%Z s ->
  (forall j s, (0 <= j < hi)%Z -> I j s -> exists s', body j s = Some s' /\ I (j + 1)%Z s') ->
  exists s', Renderer.for_int 0 hi body s = Some s' /\ I hi s'.
Proof.
  intros Hhi H0 Hstep. unfold Renderer.for_int.
  destruct (for_loop_inv I body (Z.to_nat (hi - 0)) 0%Z s H0) as (s' & Hrun & Hend).
  - intros j s0 Hj. apply Hstep. lia.
  - exists s'. split; [assumption|].
    now replace (0 + Z.of_nat (Z.to_nat (hi - 0)))%Z with hi in Hend by lia.
Qed.
End LoopFacts.

Module PaintFacts.
Import Paint ImageFacts LoopFacts.

Lemma row_spec shade y img0 :
  Image.wf img0 -> (0 <= y < Image.height img0)%Z ->
  (forall x, (0 <= x < Image.width img0)%Z -> is_Some (shade x y)) ->
  exists img,
    Paint.row shade y img0 = Some img /\ same_frame img0 img /\
    forall x' y',
      Image.getPixel img x' y'
      = if (y' =? y)%Z && Image.in_bounds img0 x' y'
        then default (Vec3.mk 0 0 0) (shade x' y')
        else Image.getPixel img0 x' y'.
Proof.
  intros Hwf Hy Hshade. unfold Paint.row.
  pose (I := fun (k : Z) (img : Image.t) =>
    same_frame img0 img /\
    forall x' y',
      Image.getPixel img x' y'
      = if (y' =? y)%Z && Image.in_bounds img0 x' y' && (x' <? k)%Z
        then default (Vec3.mk 0 0 0) (shade x' y')
        else Image.getPixel img0 x' y').
  destruct (for_int_inv I
    (fun x img => match shade x y with
                  | Some color => Some (Image.setPixel img x y color)
                  | None => None
                  end) (Image.width img0) img0) as (img & Hrun & Hfr & Hpix).
  - now destruct Hwf.
  - split; [split; [reflexivity|split; [reflexivity|assumption]]|].
    intros x' y'. unfold Image.in_bounds.
    destruct ((y' =? y)%Z && _ && (x' <? 0)%Z) eqn:E; [lia|reflexivity].
  - intros x img Hx [(Hw & Hh & Hwf') Hpix].
    destruct (Hshade x ltac:(lia)) as [c Hc]. rewrite Hc.
    eexists; split; [reflexivity|].
    assert (Image.in_bounds img x y = true) as Hb
      by (apply in_bounds_iff; lia).
    split.
    + split; [now rewrite setPixel_width|].
      split; [now rewrite setPixel_height|now apply setPixel_wf].
    + intros x' y'. rewrite getPixel_setPixel by assumption.
      rewrite Hpix. unfold Image.in_bounds.
      destruct ((x' =? x) && (y' =? y))%Z eqn:E.
      * assert (x' = x /\ y' = y) as [-> ->] by lia. rewrite Hc.
        destruct ((y =? y)%Z && _ && (x <? x + 1)%Z) eqn:E'; [reflexivity|lia].
      * destruct ((y' =? y)%Z && _ && (x' <? x)%Z) eqn:E1;
          destruct ((y' =? y)%Z && _ && (x' <? x + 1)%Z) eqn:E2; try reflexivity; lia.
  - exists img. split; [assumption|]. split; [assumption|].
    intros x' y'. rewrite Hpix. unfold Image.in_bounds.
    destruct ((y' =? y)%Z && _ && (x' <? Image.width img0)%Z) eqn:E1;
      destruct ((y' =? y)%Z && _) eqn:E2; try reflexivity; lia.
Qed.
End PaintFacts.

Module RenderFacts.
Import Paint ImageFacts LoopFacts PaintFacts Shading SceneFacts SceneTheorems.

Ltac case_ifs :=
  repeat match goal with
    | |- context [if ?b then _ else _] => destruct b eqn:?
    end;
  try reflexivity; try lia.

Lemma image_spec shade img0 :
  Image.wf img0 ->
  (forall x y, Image.in_bounds img0 x y = true -> is_Some (shade x y)) ->
  exists img,
    Paint.image shade img0 = Some img /\ same_frame img0 img /\
    forall x y,
      Image.in_bounds img0 x y = true ->
      shade x y = Some (Image.getPixel img x y).
Proof.
  intros Hwf Hshade. unfold Paint.image.
  pose (I := fun (k : Z) (img : Image.t) =>
    same_frame img0 img /\
    forall x' y',
      Image.getPixel img x' y'
      = if Image.in_bounds img0 x' y' && (y' <? k)%Z
        then default (Vec3.mk 0 0 0) (shade x' y')
        else Image.getPixel img0 x' y').
  destruct (for_int_inv I (Paint.row shade) (Image.height img0) img0)
    as (img & Hrun & Hfr & Hpix).
  - destruct Hwf as (_ & ? & _). lia.
  - split; [split; [reflexivity|split; [reflexivity|assumption]]|].
    intros x' y'. unfold Image.in_bounds. case_ifs.
  - intros y img Hy [(Hw & Hh & Hwf') Hpix].
    destruct (row_spec shade y img Hwf') as (img' & Hrow & (Hw' & Hh' & Hwf'') & Hpix').
    + lia.
    + intros x Hx. apply Hshade. apply in_bounds_iff. lia.
    + exists img'. split; [assumption|]. split.
      * split; [congruence|]. split; [congruence|assumption].
      * intros x' y'. rewrite Hpix', Hpix. unfold Image.in_bounds. rewrite Hw, Hh.
        case_ifs.
  - exists img. split; [assumption|]. split; [assumption|].
    intros x y Hb. rewrite Hpix.
    destruct (Hshade x y Hb) as [c Hc]. rewrite Hc.
    apply in_bounds_iff in Hb. unfold Image.in_bounds. simpl. case_ifs.
Qed.

Lemma for_loop_preserves {St : Type} (P : St -> Prop) (body : Z -> St -> option St) n :
  forall i s s',
  P s -> (forall j s s', P s -> body j s = Some s' -> P s') ->
  Renderer.for_loop n i body s = Some s' -> P s'.
Proof.
  induction n as [|n IH]; intros i s s' Hs Hpres; simpl.
  - now intros [= <-].
  - destruct (body i s) as [s1|] eqn:E; [|discriminate]. eauto.
Qed.

(** A render function whose inner body writes [shade x y] at [(x, y)] is
    the pixel loop of [shade]. *)
Lemma render_is_paint (body : Z -> Z -> Image.t -> option Image.t)
    (shade : Z -> Z -> Z -> Z -> option Vec3.t) img :
  (forall x y img', 
     body y x img'
     = match shade (Image.width img') (Image.height img') x y with
       | Some color => Some (Image.setPixel img' x y color)
       | None => None
       end) ->
  Renderer.for_int 0 (Image.height img) (fun y img =>
    Renderer.for_int 0 (Image.width img) (body y) img) img
  = Paint.image (shade (Image.width img) (Image.height img)) img.
Proof.
  intros Hbody. unfold Paint.image, Paint.row, Renderer.for_int.
  assert (forall y x (i i' : Image.t), same_size img i ->
            match shade (Image.width img) (Image.height img) x y with
            | Some color => Some (Image.setPixel i x y color)
            | None => None
            end = Some i' -> same_size img i') as Hpres.
  { intros y x i i' [Hw Hh] H.
    destruct (shade _ _ x y); [|discriminate]. injection H as <-.
    split; now rewrite ?setPixel_width, ?setPixel_height. }
  apply (for_loop_ext (same_size img)).
  - split; reflexivity.
  - intros y i [Hw Hh]. rewrite Hw.
    apply (for_loop_ext (same_size img)).
    + split; assumption.
    + intros x i' [Hw' Hh']. rewrite Hbody, Hw', Hh'. reflexivity.
    + intros x i1 i2. apply Hpres.
  - intros y i i' Hi Hrun.
    eapply (for_loop_preserves (same_size img)); [exact Hi| |exact Hrun].
    intros x i1 i2. apply Hpres.
Qed.

Lemma renderDistance_paint tan img camera scene :
  Renderer.renderDistance tan img camera scene
  = Paint.image (distancePixel tan camera scene (Image.width img) (Image.height img)) img.
Proof.
  unfold Renderer.renderDistance.
  apply (render_is_paint _ (distancePixel tan camera scene)).
  intros x y img'. unfold distancePixel, pixelRay, distanceColor.
  destruct (Scene.intersect _ _ _) as [[[] t] idx]; reflexivity.
Qed.

Lemma renderMaterials_paint tan img camera scene :
  Renderer.renderMaterials tan img camera scene
  = Paint.image (materialsPixel tan camera scene (Image.width img) (Image.height img)) img.
Proof.
  unfold Renderer.renderMaterials.
  apply (render_is_paint _ (materialsPixel tan camera scene)).
  intros x y img'. unfold materialsPixel, spherePixel, pixelRay.
  destruct (Scene.intersect _ _ _) as [[[] t] idx]; [|reflexivity].
  destruct (_ !! _); reflexivity.
Qed.

Lemma renderDiffuse_paint tan img camera scene :
  Renderer.renderDiffuse tan img camera scene
  = Paint.image (diffusePixel tan camera scene (Image.width img) (Image.height img)) img.
Proof.
  unfold Renderer.renderDiffuse.
  apply (render_is_paint _ (diffusePixel tan camera scene)).
  intros x y img'. unfold diffusePixel, spherePixel, pixelRay.
  destruct (Scene.intersect _ _ _) as [[[] t] idx]; [|reflexivity].
  destruct (_ !! _); reflexivity.
Qed.

Lemma renderWithShadows_paint tan img camera scene :
  Renderer.renderWithShadows tan img camera scene
  = Paint.image (shadowPixel tan camera scene (Image.width img) (Image.height img)) img.
Proof.
  unfold Renderer.renderWithShadows.
  apply (render_is_paint _ (shadowPixel tan camera scene)).
  intros x y img'. unfold shadowPixel, spherePixel, pixelRay.
  destruct (Scene.intersect _ _ _) as [[[] t] idx]; [|reflexivity].
  destruct (_ !! _); reflexivity.
Qed.

(** After a hit, [spheres[sphereIdx]] is an element of the vector. *)
Lemma hit_lookup scene ray tMin t idx :
  (Z.of_nat (List.length (Scene.spheres scene)) < 2 ^ 31)%Z ->
  Scene.intersect scene ray tMin = (true, t, idx) ->
  is_Some (Scene.spheres scene !! size_t_of_int idx).
Proof.
  intros Hlen Hres.
  destruct (intersect_state scene ray tMin Hlen) as (hit0 & t0' & idx0 & Hres0 & Hflag & Hst).
  rewrite Hres in Hres0. injection Hres0 as <- <- <-. symmetry in Hflag.
  destruct (state_hit _ _ _ _ _ Hst Hflag) as (k & s & -> & Hk & _).
  pose proof (lookup_lt_Some _ _ _ Hk) as Hlt.
  rewrite size_t_of_int_small by lia. eauto.
Qed.

Lemma distancePixel_Some tan camera scene w h x y :
  is_Some (distancePixel tan camera scene w h x y).
Proof.
  unfold distancePixel. destruct (Scene.intersect _ _ _) as [[[] t] idx]; eauto.
Qed.

Lemma spherePixel_Some color tan camera scene w h x y :
  (Z.of_nat (List.length (Scene.spheres scene)) < 2 ^ 31)%Z ->
  is_Some (spherePixel color tan camera scene w h x y).
Proof.
  intros Hlen. unfold spherePixel.
  destruct (Scene.intersect _ _ _) as [[[] t] idx] eqn:E; [|eauto].
  destruct (hit_lookup _ _ _ _ _ Hlen E) as [s ->]. eauto.
Qed.
End RenderFacts.

Module ShadingFacts.
Import FloatOrder FloatFacts Shading ImageFacts PaintFacts RenderFacts.

(** Adding a zero to a double that is not NaN gives the same number. *)
Lemma add_zero_r x z : is_nan x = false -> is_zero z = true -> (x + z =? x) = true.
Proof.
  unfold is_nan, is_zero. rewrite !FloatAxioms.eqb_spec, add_spec. unfold SFeqb.
  destruct (Prim2SF x) as [[]|[]| |[] m e], (Prim2SF z) as [[]|[]| |[] mz ez];
    simpl; try discriminate; try reflexivity; intros _ _.
  all: change (PosDef.Pos.compare_cont Eq m m) with (Pos.compare m m).
  all: now rewrite Z.compare_refl, Pos.compare_refl.
Qed.

(** A light behind the surface: the diffuse factor is [0.0] and the term is
    a zero vector. *)
Lemma diffuseTerm_behind materialColor normal hitPoint light :
  (Vec3.dot normal (Vec3.normalize (Light.position light - hitPoint)%vec3) <? 0) = true ->
  fmax 0.0 (Vec3.dot normal (Vec3.normalize (Light.position light - hitPoint)%vec3)) = 0 /\
  (is_finite (Light.intensity light) = true ->
   isFiniteVec (materialColor * Light.color light)%vec3 = true ->
   isZeroVec (diffuseTerm materialColor normal hitPoint light) = true).
Proof.
  intros Hneg. pose proof (fmax_zero _ (ltb_zero_not_pos _ Hneg)) as Hmax.
  split; [exact Hmax|].
  unfold diffuseTerm, isZeroVec, isFiniteVec. rewrite Hmax.
  rewrite !andb_true_iff. intros Hi [[Hx Hy] Hz].
  assert (is_zero (0 * Light.intensity light) = true) as H0
    by (apply mul_zero_l; [reflexivity|assumption]).
  simpl. repeat split; apply mul_zero_r; assumption.
Qed.

(** A zero multiplied by an infinity or by NaN is NaN. *)
Lemma mul_zero_not_finite x z :
  is_zero z = true -> is_finite x = false -> is_nan (x * z) = true.
Proof.
  unfold is_zero, is_finite, is_nan, is_infinity.
  rewrite !FloatAxioms.eqb_spec, mul_spec, abs_spec. unfold SFeqb, SF64mul.
  destruct (Prim2SF x) as [[]|[]| |[] m e], (Prim2SF z) as [[]|[]| |[] mz ez];
    simpl; try discriminate; try reflexivity; intros _.
  all: change (PosDef.Pos.compare_cont Eq m m) with (Pos.compare m m).
  all: rewrite Z.compare_refl, Pos.compare_refl; discriminate.
Qed.

Lemma fold_left_pointwise {A B : Type} (f g : A -> B -> A) (l : list B) :
  (forall a b, f a b = g a b) -> forall a, fold_left f l a = fold_left g l a.
Proof.
  intros H. induction l as [|b l IH]; intros a; simpl; [reflexivity|].
  now rewrite H, IH.
Qed.

(** The shadow color is the diffuse accumulation over the lights that are
    not occluded. *)
Lemma shadowColor_filter scene sphere hitPoint :
  shadowColor scene sphere hitPoint
  = fold_left (fun finalColor light =>
      (finalColor
       + diffuseTerm (Material.color (Sphere.material sphere))
           (Sphere.getNormal sphere hitPoint) hitPoint light)%vec3)
      (List.filter (fun light =>
                      negb (Scene.isInShadow scene hitPoint (Light.position light)))
         (Scene.lights scene))
      (Scene.ambientLight scene * Material.color (Sphere.material sphere))%vec3.
Proof.
  unfold shadowColor.
  generalize (Scene.ambientLight scene * Material.color (Sphere.material sphere))%vec3.
  induction (Scene.lights scene) as [|light lights IH]; intros acc; simpl; [reflexivity|].
  destruct (negb (Scene.isInShadow scene hitPoint (Light.position light))); simpl; apply IH.
Qed.

Lemma shadowColor_unoccluded scene sphere hitPoint :
  (forall light, light ∈ Scene.lights scene ->
     Scene.isInShadow scene hitPoint (Light.position light) = false) ->
  shadowColor scene sphere hitPoint = diffuseColor scene sphere hitPoint.
Proof.
  unfold shadowColor, diffuseColor.
  generalize (Scene.ambientLight scene * Material.color (Sphere.material sphere))%vec3.
  induction (Scene.lights scene) as [|light lights IH]; intros acc H; simpl; [reflexivity|].
  rewrite (H light) by apply list_elem_of_here. simpl.
  apply IH. intros l Hl. apply H. now apply list_elem_of_further.
Qed.

(** A render mode paints every pixel with its per-pixel color. *)
Lemma paint_pixels shade img0 :
  Image.wf img0 ->
  (forall x y, is_Some (shade x y)) ->
  exists img,
    Paint.image shade img0 = Some img /\
    forall x y, Image.in_bounds img0 x y = true ->
      shade x y = Some (Image.getPixel img x y).
Proof.
  intros Hwf Hshade.
  destruct (image_spec shade img0 Hwf) as (img & Hrun & _ & Hpix); eauto.
Qed.
End ShadingFacts.

Module RenderClaims.
Import FloatOrder FloatFacts Shading ImageFacts PaintFacts RenderFacts ShadingFacts.
Import Examples.

(** C9.  For an image as its constructor builds it ([Image.wf]) and a
    scene of fewer than [2^31] spheres, each of the four render modes
    completes, and every pixel whose camera ray intersects no sphere holds
    the color [(0.5, 0.7, 1.0)] afterwards, the same in the four modes; when
    the scene has no sphere this is every pixel of the image. *)
Theorem miss_is_background (tan : float -> float) (img : Image.t) (camera : Camera.t)
    (scene : Scene.t) :
  Image.wf img ->
  (Z.of_nat (List.length (Scene.spheres scene)) < 2 ^ 31)%Z ->
  exists imgB imgC imgD imgE : Image.t,
    Renderer.renderDistance tan img camera scene = Some imgB /\
    Renderer.renderMaterials tan img camera scene = Some imgC /\
    Renderer.renderDiffuse tan img camera scene = Some imgD /\
    Renderer.renderWithShadows tan img camera scene = Some imgE /\
    (forall (x y : Z) (t : float) (idx : Z),
       Image.in_bounds img x y = true ->
       Scene.intersect scene
         (pixelRay tan camera (Image.width img) (Image.height img) x y)
         Scene.default_tMin = (false, t, idx) ->
       Image.getPixel imgB x y = Vec3.mk 0.5 0.7 1.0 /\
       Image.getPixel imgC x y = Vec3.mk 0.5 0.7 1.0 /\
       Image.getPixel imgD x y = Vec3.mk 0.5 0.7 1.0 /\
       Image.getPixel imgE x y = Vec3.mk 0.5 0.7 1.0) /\
    (Scene.spheres scene = [] ->
     forall x y : Z,
       Image.in_bounds img x y = true ->
       Image.getPixel imgB x y = Vec3.mk 0.5 0.7 1.0 /\
       Image.getPixel imgC x y = Vec3.mk 0.5 0.7 1.0 /\
       Image.getPixel imgD x y = Vec3.mk 0.5 0.7 1.0 /\
       Image.getPixel imgE x y = Vec3.mk 0.5 0.7 1.0).
Proof.
  intros Hwf Hlen.
  rewrite renderDistance_paint, renderMaterials_paint, renderDiffuse_paint,
    renderWithShadows_paint.
  destruct (paint_pixels (distancePixel tan camera scene (Image.width img) (Image.height img))
              img Hwf) as (imgB & HB & HpB);
    [intros; apply distancePixel_Some|].
  destruct (paint_pixels (materialsPixel tan camera scene (Image.width img) (Image.height img))
              img Hwf) as (imgC & HC & HpC);
    [intros; now apply spherePixel_Some|].
  destruct (paint_pixels (diffusePixel tan camera scene (Image.width img) (Image.height img))
              img Hwf) as (imgD & HD & HpD);
    [intros; now apply spherePixel_Some|].
  destruct (paint_pixels (shadowPixel tan camera scene (Image.width img) (Image.height img))
              img Hwf) as (imgE & HE & HpE);
    [intros; now apply spherePixel_Some|].
  exists imgB, imgC, imgD, imgE. repeat (split; [assumption|]).
  assert (forall (x y : Z) (t : float) (idx : Z),
       Image.in_bounds img x y = true ->
       Scene.intersect scene
         (pixelRay tan camera (Image.width img) (Image.height img) x y)
         Scene.default_tMin = (false, t, idx) ->
       Image.getPixel imgB x y = Vec3.mk 0.5 0.7 1.0 /\
       Image.getPixel imgC x y = Vec3.mk 0.5 0.7 1.0 /\
       Image.getPixel imgD x y = Vec3.mk 0.5 0.7 1.0 /\
       Image.getPixel imgE x y = Vec3.mk 0.5 0.7 1.0) as Hmiss.
  { intros x y t idx Hb Hres.
    specialize (HpB x y Hb). specialize (HpC x y Hb).
    specialize (HpD x y Hb). specialize (HpE x y Hb).
    unfold distancePixel in HpB.
    unfold materialsPixel, diffusePixel, shadowPixel, spherePixel in HpC, HpD, HpE.
    rewrite Hres in HpB, HpC, HpD, HpE.
    repeat split; congruence. }
  split; [exact Hmiss|].
  intros Hempty x y Hb.
  apply (Hmiss x y infinity (-1)%Z Hb).
  unfold Scene.intersect. rewrite Hempty. reflexivity.
Qed.

(** C9, witness: the scene of [main] on a 2 x 2 image; the camera ray of
    the pixel [(0, 0)] misses every sphere. *)
Lemma miss_is_background_witness :
  Image.wf (Image.new 2 2) /\
  (Z.of_nat (List.length (Scene.spheres Main.scene)) < 2 ^ 31)%Z /\
  Scene.intersect Main.scene (pixelRay tan_fov60 Main.camera 2 2 0 0) Scene.default_tMin
  = (false, infinity, (-1)%Z) /\
  exists imgB imgC imgD imgE : Image.t,
    Renderer.renderDistance tan_fov60 (Image.new 2 2) Main.camera Main.scene = Some imgB /\
    Renderer.renderMaterials tan_fov60 (Image.new 2 2) Main.camera Main.scene = Some imgC /\
    Renderer.renderDiffuse tan_fov60 (Image.new 2 2) Main.camera Main.scene = Some imgD /\
    Renderer.renderWithShadows tan_fov60 (Image.new 2 2) Main.camera Main.scene = Some imgE /\
    Image.getPixel imgB 0 0 = Vec3.mk 0.5 0.7 1.0 /\
    Image.getPixel imgC 0 0 = Vec3.mk 0.5 0.7 1.0 /\
    Image.getPixel imgD 0 0 = Vec3.mk 0.5 0.7 1.0 /\
    Image.getPixel imgE 0 0 = Vec3.mk 0.5 0.7 1.0.
Proof.
  assert (Image.wf (Image.new 2 2)) as Hwf by (repeat split; simpl; lia).
  assert (Z.of_nat (List.length (Scene.spheres Main.scene)) < 2 ^ 31)%Z as Hlen
    by (vm_compute; reflexivity).
  assert (Scene.intersect Main.scene (pixelRay tan_fov60 Main.camera 2 2 0 0)
            Scene.default_tMin = (false, infinity, (-1)%Z)) as Hres
    by (vm_compute; reflexivity).
  split; [exact Hwf|]. split; [exact Hlen|]. split; [exact Hres|].
  destruct (miss_is_background tan_fov60 (Image.new 2 2) Main.camera Main.scene Hwf Hlen)
    as (imgB & imgC & imgD & imgE & HB & HC & HD & HE & Hmiss & _).
  exists imgB, imgC, imgD, imgE.
  repeat (split; [assumption|]).
  exact (Hmiss 0%Z 0%Z infinity (-1)%Z eq_refl Hres).
Defined.

(** C4 (amended).  For an image as its constructor builds it ([Image.wf])
    and a scene of fewer than [2^31] spheres, diffuse-mode rendering
    completes, and every pixel whose camera ray hits a sphere holds
    afterwards the color [ambient * materialColor] plus, for every light of
    the scene in order, the term [materialColor * light.color * (max(0,
    normal . toLight) * light.intensity)] with [toLight = normalize
    (light.position - hitPoint)]; no light is tested for occlusion.  When
    [normal . toLight] is negative the factor [max(0, normal . toLight)] is
    [0.0].  For a finite intensity, the term of such a light is then a zero
    vector when [materialColor * light.color] is finite, and it leaves
    every color that is not NaN numerically unchanged; a component of the
    term is NaN when that component of [materialColor * light.color] is an
    infinity or NaN. *)
Theorem diffuse_pixel_color (tan : float -> float) (img : Image.t) (camera : Camera.t)
    (scene : Scene.t) :
  Image.wf img ->
  (Z.of_nat (List.length (Scene.spheres scene)) < 2 ^ 31)%Z ->
  exists imgD : Image.t,
    Renderer.renderDiffuse tan img camera scene = Some imgD /\
    (forall (x y : Z) (t : float) (idx : Z),
       Image.in_bounds img x y = true ->
       Scene.intersect scene
         (pixelRay tan camera (Image.width img) (Image.height img) x y)
         Scene.default_tMin = (true, t, idx) ->
       exists sphere : Sphere.t,
         Scene.spheres scene !! size_t_of_int idx = Some sphere /\
         Image.getPixel imgD x y
         = fold_left
             (fun finalColor light =>
                (finalColor
                 + Vec3.scale
                     (Material.color (Sphere.material sphere) * Light.color light)
                     (fmax 0.0
                        (Vec3.dot
                           (Sphere.getNormal sphere
                              (Ray.at_ (pixelRay tan camera (Image.width img)
                                          (Image.height img) x y) t))
                           (Vec3.normalize
                              (Light.position light
                               - Ray.at_ (pixelRay tan camera (Image.width img)
                                            (Image.height img) x y) t)))
                      * Light.intensity light))%vec3)
             (Scene.lights scene)
             (Scene.ambientLight scene * Material.color (Sphere.material sphere))%vec3) /\
    (forall (materialColor normal hitPoint : Vec3.t) (light : Light.t),
       (Vec3.dot normal (Vec3.normalize (Light.position light - hitPoint)%vec3) <? 0) = true ->
       fmax 0.0 (Vec3.dot normal (Vec3.normalize (Light.position light - hitPoint)%vec3)) = 0 /\
       (is_finite (Light.intensity light) = true ->
        (isFiniteVec (materialColor * Light.color light)%vec3 = true ->
         isZeroVec (diffuseTerm materialColor normal hitPoint light) = true /\
         forall c : float, is_nan c = false ->
           (c + Vec3.x (diffuseTerm materialColor normal hitPoint light) =? c) = true /\
           (c + Vec3.y (diffuseTerm materialColor normal hitPoint light) =? c) = true /\
           (c + Vec3.z (diffuseTerm materialColor normal hitPoint light) =? c) = true) /\
        (is_finite (Vec3.x (materialColor * Light.color light)%vec3) = false ->
         is_nan (Vec3.x (diffuseTerm materialColor normal hitPoint light)) = true) /\
        (is_finite (Vec3.y (materialColor * Light.color light)%vec3) = false ->
         is_nan (Vec3.y (diffuseTerm materialColor normal hitPoint light)) = true) /\
        (is_finite (Vec3.z (materialColor * Light.color light)%vec3) = false ->
         is_nan (Vec3.z (diffuseTerm materialColor normal hitPoint light)) = true))).
Proof.
  intros Hwf Hlen. rewrite renderDiffuse_paint.
  destruct (paint_pixels (diffusePixel tan camera scene (Image.width img) (Image.height img))
              img Hwf) as (imgD & HD & HpD);
    [intros; now apply spherePixel_Some|].
  exists imgD. split; [assumption|]. split.
  - intros x y t idx Hb Hres. specialize (HpD x y Hb).
    unfold diffusePixel, spherePixel in HpD. rewrite Hres in HpD.
    destruct (hit_lookup _ _ _ _ _ Hlen Hres) as [sphere Hs]. rewrite Hs in HpD.
    exists sphere. split; [exact Hs|].
    injection HpD as HpD. rewrite <- HpD. reflexivity.
  - intros materialColor normal hitPoint light Hneg.
    destruct (diffuseTerm_behind materialColor normal hitPoint light Hneg) as [Hmax Hzero].
    split; [exact Hmax|]. intros Hi. split.
    + intros Hf. specialize (Hzero Hi Hf).
      split; [exact Hzero|]. intros c Hc.
      unfold isZeroVec in Hzero. rewrite !andb_true_iff in Hzero.
      destruct Hzero as [[Hx Hy] Hz].
      repeat split; now apply add_zero_r.
    + assert (is_zero (0 * Light.intensity light) = true) as H0
        by (apply mul_zero_l; [reflexivity|assumption]).
      unfold diffuseTerm. rewrite Hmax. cbn [Vec3.scale Vec3.x Vec3.y Vec3.z].
      repeat split; intros Hn; now apply mul_zero_not_finite.
Qed.

(** C4, counterexample.  In [overflowScene] the ray of the pixel [(1, 1)]
    of a 2 x 2 image hits the sphere at [(0, 0, 1)], where the normal is
    [(0, 0, 1)] and the light is behind the surface: [normal . toLight] is
    [-1].  The red channel of [materialColor * light.color] overflows to
    [+infinity], and [infinity * 0.0] is NaN: the light does not contribute
    zero, and the pixel is [(NaN, 0, 0)]. *)
Lemma light_behind_contributes_nan :
  Scene.intersect overflowScene (pixelRay tan_fov60 Main.camera 2 2 1 1) Scene.default_tMin
  = (true, 4, 0%Z) /\
  Ray.at_ (pixelRay tan_fov60 Main.camera 2 2 1 1) 4 = Vec3.mk 0 0 1 /\
  Vec3.dot
    (Sphere.getNormal (Sphere.mk (Vec3.mk 0 0 0) 1 (Material.mk (Vec3.mk 0x1p600 0 0)))
       (Vec3.mk 0 0 1))
    (Vec3.normalize (Vec3.mk 0 0 (-5) - Vec3.mk 0 0 1)%vec3) = (-1) /\
  (Vec3.mk 0x1p600 0 0 * Vec3.mk 0x1p600 1 1)%vec3 = Vec3.mk infinity 0 0 /\
  diffuseTerm (Vec3.mk 0x1p600 0 0)
    (Sphere.getNormal (Sphere.mk (Vec3.mk 0 0 0) 1 (Material.mk (Vec3.mk 0x1p600 0 0)))
       (Vec3.mk 0 0 1))
    (Vec3.mk 0 0 1) (Light.mk (Vec3.mk 0 0 (-5)) (Vec3.mk 0x1p600 1 1) 0.8)
  = Vec3.mk nan 0 0 /\
  Renderer.renderDiffuse tan_fov60 (Image.new 2 2) Main.camera overflowScene
  = Some (Image.mk 2 2 [Vec3.mk 0.5 0.7 1.0; Vec3.mk 0.5 0.7 1.0;
                        Vec3.mk 0.5 0.7 1.0; Vec3.mk nan 0 0]) /\
  Image.getPixel
    (Image.mk 2 2 [Vec3.mk 0.5 0.7 1.0; Vec3.mk 0.5 0.7 1.0;
                   Vec3.mk 0.5 0.7 1.0; Vec3.mk nan 0 0]) 1 1 = Vec3.mk nan 0 0.
Proof. repeat split; vm_compute; reflexivity. Qed.

(** C4, witness: [endToEndScene] on a 2 x 2 image; the ray of the pixel
    [(1, 1)] hits the sphere at distance 4, and the pixel holds a red
    channel between the ambient 0.1 and 0.9, with no green and no blue. *)
Lemma diffuse_pixel_color_witness :
  Image.wf (Image.new 2 2) /\
  (Z.of_nat (List.length (Scene.spheres endToEndScene)) < 2 ^ 31)%Z /\
  Scene.intersect endToEndScene (pixelRay tan_fov60 Main.camera 2 2 1 1) Scene.default_tMin
  = (true, 4, 0%Z) /\
  exists imgD : Image.t,
    Renderer.renderDiffuse tan_fov60 (Image.new 2 2) Main.camera endToEndScene = Some imgD /\
    Image.getPixel imgD 1 1 = Vec3.mk 0.49389277113386476 0 0.
Proof.
  assert (Image.wf (Image.new 2 2)) as Hwf by (repeat split; simpl; lia).
  assert (Z.of_nat (List.length (Scene.spheres endToEndScene)) < 2 ^ 31)%Z as Hlen
    by (vm_compute; reflexivity).
  assert (Scene.intersect endToEndScene (pixelRay tan_fov60 Main.camera 2 2 1 1)
            Scene.default_tMin = (true, 4, 0%Z)) as Hres
    by (vm_compute; reflexivity).
  split; [exact Hwf|]. split; [exact Hlen|]. split; [exact Hres|].
  destruct (diffuse_pixel_color tan_fov60 (Image.new 2 2) Main.camera endToEndScene Hwf Hlen)
    as (imgD & HD & Hhit & _).
  exists imgD. split; [assumption|].
  destruct (Hhit 1%Z 1%Z 4 0%Z eq_refl Hres) as (sphere & Hs & Hpix).
  vm_compute in Hs. injection Hs as <-.
  rewrite Hpix. vm_compute. reflexivity.
Defined.

(** C5.  For an image as its constructor builds it ([Image.wf]) and a
    scene of fewer than [2^31] spheres, shadow-mode and diffuse-mode
    rendering both complete.  A pixel whose camera ray misses holds the
    same color in both.  A pixel whose ray hits a sphere holds, in shadow
    mode, the ambient term plus the diffuse term of each light for which
    [Scene.isInShadow hitPoint light.position] is false, that is, the
    diffuse-mode accumulation over the lights that are not occluded; when
    no light of the scene is occluded at the hit point, the two modes give
    the pixel the same color. *)
Theorem shadow_pixel_color (tan : float -> float) (img : Image.t) (camera : Camera.t)
    (scene : Scene.t) :
  Image.wf img ->
  (Z.of_nat (List.length (Scene.spheres scene)) < 2 ^ 31)%Z ->
  exists imgD imgE : Image.t,
    Renderer.renderDiffuse tan img camera scene = Some imgD /\
    Renderer.renderWithShadows tan img camera scene = Some imgE /\
    forall (x y : Z) (hit : bool) (t : float) (idx : Z),
      Image.in_bounds img x y = true ->
      Scene.intersect scene
        (pixelRay tan camera (Image.width img) (Image.height img) x y)
        Scene.default_tMin = (hit, t, idx) ->
      (hit = false -> Image.getPixel imgE x y = Image.getPixel imgD x y) /\
      (hit = true ->
       exists sphere : Sphere.t,
         Scene.spheres scene !! size_t_of_int idx = Some sphere /\
         Image.getPixel imgD x y
         = diffuseColor scene sphere
             (Ray.at_ (pixelRay tan camera (Image.width img) (Image.height img) x y) t) /\
         Image.getPixel imgE x y
         = fold_left
             (fun finalColor light =>
                if Scene.isInShadow scene
                     (Ray.at_ (pixelRay tan camera (Image.width img)
                                 (Image.height img) x y) t)
                     (Light.position light)
                then finalColor
                else (finalColor
                      + diffuseTerm (Material.color (Sphere.material sphere))
                          (Sphere.getNormal sphere
                             (Ray.at_ (pixelRay tan camera (Image.width img)
                                         (Image.height img) x y) t))
                          (Ray.at_ (pixelRay tan camera (Image.width img)
                                      (Image.height img) x y) t)
                          light)%vec3)
             (Scene.lights scene)
             (Scene.ambientLight scene * Material.color (Sphere.material sphere))%vec3 /\
         Image.getPixel imgE x y
         = diffuseColor
             (Scene.mk (Scene.spheres scene)
                (List.filter
                   (fun light =>
                      negb (Scene.isInShadow scene
                              (Ray.at_ (pixelRay tan camera (Image.width img)
                                          (Image.height img) x y) t)
                              (Light.position light)))
                   (Scene.lights scene))
                (Scene.ambientLight scene))
             sphere
             (Ray.at_ (pixelRay tan camera (Image.width img) (Image.height img) x y) t) /\
         ((forall light, light ∈ Scene.lights scene ->
             Scene.isInShadow scene
               (Ray.at_ (pixelRay tan camera (Image.width img) (Image.height img) x y) t)
               (Light.position light) = false) ->
          Image.getPixel imgE x y = Image.getPixel imgD x y)).
Proof.
  intros Hwf Hlen. rewrite renderDiffuse_paint, renderWithShadows_paint.
  destruct (paint_pixels (diffusePixel tan camera scene (Image.width img) (Image.height img))
              img Hwf) as (imgD & HD & HpD);
    [intros; now apply spherePixel_Some|].
  destruct (paint_pixels (shadowPixel tan camera scene (Image.width img) (Image.height img))
              img Hwf) as (imgE & HE & HpE);
    [intros; now apply spherePixel_Some|].
  exists imgD, imgE. split; [assumption|]. split; [assumption|].
  intros x y hit t idx Hb Hres.
  specialize (HpD x y Hb). specialize (HpE x y Hb).
  unfold diffusePixel, shadowPixel, spherePixel in HpD, HpE.
  rewrite Hres in HpD, HpE. split.
  - intros ->. congruence.
  - intros ->.
    destruct (hit_lookup _ _ _ _ _ Hlen Hres) as [sphere Hs]. rewrite Hs in HpD, HpE.
    injection HpD as HpD. injection HpE as HpE.
    exists sphere. split; [exact Hs|]. split; [now symmetry|].
    split; [|split].
    + rewrite <- HpE. unfold shadowColor.
      apply fold_left_pointwise. intros acc light.
      now destruct (Scene.isInShadow _ _ _).
    + rewrite <- HpE. apply shadowColor_filter.
    + intros Hun. rewrite <- HpE, <- HpD. now apply shadowColor_unoccluded.
Qed.

(** C5, witness: the scene of [main] on a 4 x 4 image.  The ray of the pixel
    [(2, 2)] hits the red sphere at a point that no sphere hides from
    either light: the two modes agree.  The ray of the pixel [(3, 2)] hits
    the blue sphere at a point in the shadow of both lights: shadow mode
    keeps the ambient term only. *)
Lemma shadow_pixel_color_witness :
  Image.wf (Image.new 4 4) /\
  (Z.of_nat (List.length (Scene.spheres Main.scene)) < 2 ^ 31)%Z /\
  exists imgD imgE : Image.t,
    Renderer.renderDiffuse tan_fov60 (Image.new 4 4) Main.camera Main.scene = Some imgD /\
    Renderer.renderWithShadows tan_fov60 (Image.new 4 4) Main.camera Main.scene = Some imgE /\
    Image.getPixel imgE 2 2 = Image.getPixel imgD 2 2 /\
    Image.getPixel imgE 3 2 = Vec3.mk 0.029999999999999999 0.029999999999999999 0.1.
Proof.
  assert (Image.wf (Image.new 4 4)) as Hwf by (repeat split; simpl; lia).
  assert (Z.of_nat (List.length (Scene.spheres Main.scene)) < 2 ^ 31)%Z as Hlen
    by (vm_compute; reflexivity).
  split; [exact Hwf|]. split; [exact Hlen|].
  destruct (shadow_pixel_color tan_fov60 (Image.new 4 4) Main.camera Main.scene Hwf Hlen)
    as (imgD & imgE & HD & HE & Hpix).
  exists imgD, imgE. split; [assumption|]. split; [assumption|]. split.
  - assert (Scene.intersect Main.scene (pixelRay tan_fov60 Main.camera 4 4 2 2)
              Scene.default_tMin = (true, 4, 0%Z)) as Hres
      by (vm_compute; reflexivity).
    destruct (Hpix 2%Z 2%Z _ _ _ eq_refl Hres) as [_ Hhit].
    destruct (Hhit eq_refl) as (sphere & Hs & _ & _ & _ & Hsame).
    apply Hsame. intros light Hl.
    change (Scene.lights Main.scene)
      with [Light.mk (Vec3.mk 5 5 5) (Vec3.mk 1 1 1) 0.8;
            Light.mk (Vec3.mk (-5) 3 3) (Vec3.mk 1 0.9 0.8) 0.4] in Hl.
    apply elem_of_cons in Hl as [-> | Hl]; [vm_compute; reflexivity|].
    apply elem_of_cons in Hl as [-> | Hl]; [vm_compute; reflexivity|].
    now apply elem_of_nil in Hl.
  - assert (Scene.intersect Main.scene (pixelRay tan_fov60 Main.camera 4 4 3 2)
              Scene.default_tMin = (true, 5.7829931438666531, 2%Z)) as Hres
      by (vm_compute; reflexivity).
    destruct (Hpix 3%Z 2%Z _ _ _ eq_refl Hres) as [_ Hhit].
    destruct (Hhit eq_refl) as (sphere & Hs & _ & Hcol & _).
    vm_compute in Hs. injection Hs as <-.
    rewrite Hcol. vm_compute. reflexivity.
Defined.
End RenderClaims.

(** ** Further properties

    *** Doubles: commutativity, zeros and NaN, signs *)
Module FloatAlgebra.
Import FloatOrder FloatFacts FloatClass Rounding.

Lemma SFadd_comm x y : SFadd prec emax x y = SFadd prec emax y x.
Proof.
  destruct x as [[]|[]| |sx mx ex], y as [[]|[]| |sy my ey]; try reflexivity.
  unfold SFadd. rewrite (Z.min_comm ey ex). cbv zeta. f_equal. apply Z.add_comm.
Qed.

Lemma SFmul_comm x y : SFmul prec emax x y = SFmul prec emax y x.
Proof.
  destruct x as [sx|sx| |sx mx ex], y as [sy|sy| |sy my ey]; simpl;
    rewrite ?(xorb_comm sy sx); try reflexivity.
  now rewrite (Pos.mul_comm my mx), (Z.add_comm ey ex).
Qed.

Lemma add_comm (x y : float) : x + y = y + x.
Proof. apply Prim2SF_inj. rewrite !add_spec. apply SFadd_comm. Qed.

Lemma mul_comm (x y : float) : x * y = y * x.
Proof. apply Prim2SF_inj. rewrite !mul_spec. apply SFmul_comm. Qed.

(** The class of a double: its specification value is a zero or NaN. *)
Lemma zero_or_nan_spec x :
  zero_or_nan x = true <->
  (exists s, Prim2SF x = S754_zero s) \/ Prim2SF x = S754_nan.
Proof.
  unfold zero_or_nan, is_zero, is_nan. rewrite !FloatAxioms.eqb_spec. unfold SFeqb.
  destruct (Prim2SF x) as [[]|[]| |[] m e] eqn:E; simpl; split; intros H; eauto;
    try discriminate; try (destruct H as [[s H]|H]; discriminate).
  - change (PosDef.Pos.compare_cont Eq m m) with (Pos.compare m m) in H.
    rewrite Z.compare_refl, Pos.compare_refl in H. discriminate.
  - change (PosDef.Pos.compare_cont Eq m m) with (Pos.compare m m) in H.
    rewrite Z.compare_refl, Pos.compare_refl in H. discriminate.
Qed.

Ltac zn_open :=
  rewrite ?zero_or_nan_spec in *;
  repeat match goal with
    | H : (exists s, Prim2SF _ = S754_zero s) \/ Prim2SF _ = S754_nan |- _ =>
        destruct H as [[? H]|H]
    end.

Lemma zn_mul_l x y : zero_or_nan x = true -> zero_or_nan (x * y) = true.
Proof.
  intros H. zn_open; rewrite mul_spec, H;
    destruct (Prim2SF y) as [sy|sy| |sy my ey]; simpl; eauto.
Qed.

Lemma zn_mul_r x y : zero_or_nan y = true -> zero_or_nan (x * y) = true.
Proof. rewrite mul_comm. apply zn_mul_l. Qed.

Lemma zn_add x y : zero_or_nan x = true -> zero_or_nan y = true -> zero_or_nan (x + y) = true.
Proof.
  intros Hx Hy. zn_open; rewrite add_spec, Hx, Hy; simpl; eauto.
  all: repeat match goal with s : bool |- _ => destruct s end; simpl; eauto.
Qed.

Lemma zn_sub x y : zero_or_nan x = true -> zero_or_nan y = true -> zero_or_nan (x - y) = true.
Proof.
  intros Hx Hy. zn_open; rewrite sub_spec, Hx, Hy; simpl; eauto.
  all: repeat match goal with s : bool |- _ => destruct s end; simpl; eauto.
Qed.

Lemma zn_opp x : zero_or_nan x = true -> zero_or_nan (- x) = true.
Proof. intros H. zn_open; rewrite opp_spec, H; simpl; eauto. Qed.

Lemma zn_sqrt x : zero_or_nan x = true -> zero_or_nan (sqrt x) = true.
Proof. intros H. zn_open; rewrite sqrt_spec, H; simpl; eauto. Qed.

Lemma zn_sub_self x : zero_or_nan (x - x) = true.
Proof.
  zn_open. rewrite sub_spec.
  destruct (Prim2SF x) as [[]|[]| |sx mx ex] eqn:E; simpl; eauto.
  left. unfold SFsub. cbv zeta. rewrite Z.min_id. unfold shl_align.
  rewrite !Z.sub_diag. simpl. eauto.
Qed.

Lemma zn_div_zero x d : zero_or_nan x = true -> is_zero d = true -> is_nan (x / d) = true.
Proof.
  intros Hx Hd. destruct (is_zero_cases d Hd) as [-> | ->];
    zn_open; unfold is_nan; rewrite FloatAxioms.eqb_spec, div_spec, Hx; reflexivity.
Qed.

Lemma zn_not_pos x : zero_or_nan x = true -> gtb x 0 = false.
Proof.
  intros H. unfold gtb. rewrite FloatAxioms.ltb_spec. zn_open; rewrite H; reflexivity.
Qed.

Lemma zn_not_neg x : zero_or_nan x = true -> (x <? 0) = false.
Proof.
  intros H. rewrite FloatAxioms.ltb_spec. zn_open; rewrite H; reflexivity.
Qed.

Lemma zn_zero : zero_or_nan 0 = true.
Proof. reflexivity. Qed.

Lemma nan_not_geb x y : is_nan x = true -> geb x y = false.
Proof. intros. by_keys. Qed.

End FloatAlgebra.

Module FloatSigns.
Import FloatOrder FloatFacts FloatClass FloatAlgebra Rounding Signs Division Roots.

Lemma is_nan_spec x : is_nan x = true <-> Prim2SF x = S754_nan.
Proof.
  unfold is_nan. rewrite FloatAxioms.eqb_spec. unfold SFeqb.
  destruct (Prim2SF x) as [[]|[]| |[] m e]; simpl; split; intros H;
    try discriminate; try reflexivity.
  all: change (PosDef.Pos.compare_cont Eq m m) with (Pos.compare m m) in H.
  all: rewrite Z.compare_refl, Pos.compare_refl in H; discriminate.
Qed.

Lemma not_nan_spec x : is_nan x = false <-> Prim2SF x <> S754_nan.
Proof.
  rewrite <- is_nan_spec. destruct (is_nan x); split; intros H; congruence.
Qed.

Lemma SFsqrt_sign x : sign_is false x -> sign_is false (SFsqrt prec emax x).
Proof.
  destruct x as [s|s| |s m e]; simpl; intros H; subst; try exact I; try reflexivity.
  destruct (SFsqrt_core_binary prec emax (Z.pos m) e) as [[mz ez] lz].
  apply binary_round_aux_sign.
Qed.

Lemma length_sign u : sign_is false (Prim2SF (Vec3.length u)).
Proof.
  unfold Vec3.length. rewrite sqrt_spec. apply SFsqrt_sign.
  apply (dot_self_sign u).
Qed.

(** A double of sign bit [false]: never below zero, and [+0] when it is
    neither above zero nor NaN. *)
Lemma sign_false_not_neg x : sign_is false (Prim2SF x) -> (x <? 0) = false.
Proof.
  intros H. rewrite FloatAxioms.ltb_spec.
  destruct (Prim2SF x) as [s|s| |s m e]; simpl in H; subst; reflexivity.
Qed.

Lemma sign_false_nonneg x :
  sign_is false (Prim2SF x) -> is_nan x = false -> (0 <=? x) = true.
Proof.
  intros H N. apply not_nan_spec in N. rewrite FloatAxioms.leb_spec.
  destruct (Prim2SF x) as [s|s| |s m e]; simpl in H; subst; try reflexivity.
  congruence.
Qed.

Lemma sign_false_not_pos x :
  sign_is false (Prim2SF x) -> gtb x 0 = false -> x = 0 \/ is_nan x = true.
Proof.
  intros H. unfold gtb. rewrite FloatAxioms.ltb_spec. intros G.
  destruct (Prim2SF x) as [s|s| |s m e] eqn:E; simpl in H; subst; try discriminate.
  - left. apply Prim2SF_inj. now rewrite E.
  - right. now apply is_nan_spec.
Qed.

(** The quotient of a finite double by a double above zero is not NaN. *)
Lemma div_pos_not_nan x d :
  is_finite x = true -> (0 <? d) = true -> is_nan (x / d) = false.
Proof.
  intros Hx Hd. apply not_nan_spec. rewrite div_spec.
  rewrite FloatAxioms.ltb_spec in Hd.
  destruct (is_finite_cases x Hx) as [[s ->]|(s & m & e & ->)];
    destruct (Prim2SF d) as [[]|[]| |[] md ed]; simpl in Hd; try discriminate;
    try (simpl; discriminate).
  unfold SF64div, SFdiv. rewrite xorb_false_r.
  pose proof (div_nonneg (Z.pos m) e (Z.pos md) ed ltac:(lia) ltac:(lia)) as (a & b & c & Hk & _).
  destruct (SFdiv_core_binary prec emax (Z.pos m) e (Z.pos md) ed) as [[mz ez] lz].
  destruct s.
  - rewrite binary_round_aux_opp.
    destruct (binary_round_aux prec emax false mz ez lz); simpl in *; congruence.
  - destruct (binary_round_aux prec emax false mz ez lz); simpl in *; congruence.
Qed.

End FloatSigns.

(** *** Vec3 and Ray *)
Module VecFacts.
Import FloatOrder FloatFacts FloatClass FloatAlgebra FloatSigns Shading.

(** A vector whose components are zeros or NaN has a computed length that
    is not above zero, and is normalized to the zero vector. *)
Lemma zn_length u : zeroOrNanVec u = true -> zero_or_nan (Vec3.length u) = true.
Proof.
  unfold zeroOrNanVec. rewrite !andb_true_iff. intros [[Hx Hy] Hz].
  unfold Vec3.length. apply zn_sqrt. repeat apply zn_add; now apply zn_mul_l.
Qed.

Lemma zn_normalize u : zeroOrNanVec u = true -> Vec3.normalize u = Vec3.mk 0 0 0.
Proof.
  intros H. unfold Vec3.normalize. cbv zeta.
  now rewrite (zn_not_pos _ (zn_length u H)).
Qed.

Lemma zn_sub_self_vec p : zeroOrNanVec (p - p)%vec3 = true.
Proof. unfold zeroOrNanVec. simpl. now rewrite !zn_sub_self. Qed.

End VecFacts.

Module VecProps.
Import FloatOrder FloatFacts FloatClass FloatAlgebra FloatSigns VecFacts Shading ShadingFacts.
Import Examples.

(** X1.  [Vec3::operator+], the component-wise [Vec3::operator*] and [Vec3::dot]
    are commutative: exchanging the two vectors gives the same value, for
    all doubles in the components, infinities and NaN included (NaN is one
    value here: its sign and payload are not part of the model). *)
Theorem vec_operations_commute (u v : Vec3.t) :
  (u + v = v + u)%vec3 /\ (u * v = v * u)%vec3 /\ Vec3.dot u v = Vec3.dot v u.
Proof.
  unfold Vec3.add, Vec3.mul, Vec3.dot. repeat split.
  - f_equal; apply add_comm.
  - f_equal; apply mul_comm.
  - now rewrite (mul_comm (Vec3.x u)), (mul_comm (Vec3.y u)), (mul_comm (Vec3.z u)).
Qed.

(** X2.  [Vec3::length] is never below zero: [length() < 0] is false for
    every vector; unless the length is NaN, [0 <= length()] holds; and when
    the test [length() > 0] of [normalize] fails, the length is [+0] or NaN. *)
Theorem length_not_negative (u : Vec3.t) :
  (Vec3.length u <? 0) = false /\
  (is_nan (Vec3.length u) = false -> (0 <=? Vec3.length u) = true) /\
  (gtb (Vec3.length u) 0 = false -> Vec3.length u = 0 \/ is_nan (Vec3.length u) = true).
Proof.
  pose proof (length_sign u) as H. split; [|split].
  - now apply sign_false_not_neg.
  - now apply sign_false_nonneg.
  - now apply sign_false_not_pos.
Qed.

(** X3.  [Vec3::normalize] of a vector whose three components are finite has
    no NaN component. *)
Theorem normalize_finite_not_nan (u : Vec3.t) :
  isFiniteVec u = true ->
  is_nan (Vec3.x (Vec3.normalize u)) = false /\
  is_nan (Vec3.y (Vec3.normalize u)) = false /\
  is_nan (Vec3.z (Vec3.normalize u)) = false.
Proof.
  unfold isFiniteVec. rewrite !andb_true_iff. intros [[Hx Hy] Hz].
  unfold Vec3.normalize. cbv zeta.
  destruct (gtb (Vec3.length u) 0) eqn:G; [|repeat split].
  unfold gtb in G. simpl. repeat split; now apply div_pos_not_nan.
Qed.

(** X3, witness: the vector [(3, 0, 4)]. *)
Lemma normalize_finite_not_nan_witness :
  isFiniteVec (Vec3.mk 3 0 4) = true /\
  is_nan (Vec3.x (Vec3.normalize (Vec3.mk 3 0 4))) = false /\
  is_nan (Vec3.y (Vec3.normalize (Vec3.mk 3 0 4))) = false /\
  is_nan (Vec3.z (Vec3.normalize (Vec3.mk 3 0 4))) = false.
Proof.
  split; [reflexivity|].
  exact (normalize_finite_not_nan (Vec3.mk 3 0 4) eq_refl).
Defined.

(** X4.  [(p - p).normalize()] is the zero vector for every point [p], also
    one with infinite or NaN coordinates; so [Sphere::getNormal] at the
    centre of the sphere is the zero vector, not a unit vector. *)
Theorem getNormal_center (s : Sphere.t) (p : Vec3.t) :
  Vec3.normalize (p - p)%vec3 = Vec3.mk 0 0 0 /\
  Sphere.getNormal s (Sphere.center s) = Vec3.mk 0 0 0.
Proof.
  split; [|unfold Sphere.getNormal]; apply zn_normalize, zn_sub_self_vec.
Qed.

(** X5.  [Ray::at(0)] compares equal ([==]) to the origin in each coordinate
    when the direction is finite and the origin has no NaN coordinate. *)
Theorem at_zero_is_origin (r : Ray.t) :
  isFiniteVec (Ray.direction r) = true ->
  is_nan (Vec3.x (Ray.origin r)) = false ->
  is_nan (Vec3.y (Ray.origin r)) = false ->
  is_nan (Vec3.z (Ray.origin r)) = false ->
  (Vec3.x (Ray.at_ r 0) =? Vec3.x (Ray.origin r)) = true /\
  (Vec3.y (Ray.at_ r 0) =? Vec3.y (Ray.origin r)) = true /\
  (Vec3.z (Ray.at_ r 0) =? Vec3.z (Ray.origin r)) = true.
Proof.
  unfold isFiniteVec. rewrite !andb_true_iff. intros [[Hx Hy] Hz] Nx Ny Nz.
  unfold Ray.at_, Vec3.add, Vec3.scale. cbn [Vec3.x Vec3.y Vec3.z].
  repeat split; apply add_zero_r; try assumption; apply mul_zero_r; (reflexivity || assumption).
Qed.

(** X5, witness: the ray of the examples, from [(0, 0, 5)]. *)
Lemma at_zero_is_origin_witness :
  (Vec3.x (Ray.at_ axisRay 0) =? 0) = true /\
  (Vec3.y (Ray.at_ axisRay 0) =? 0) = true /\
  (Vec3.z (Ray.at_ axisRay 0) =? 5) = true.
Proof.
  exact (at_zero_is_origin axisRay eq_refl eq_refl eq_refl eq_refl).
Defined.

End VecProps.

(** *** Rays with a zero direction, and scenes that grow *)
Module DegenerateFacts.
Import FloatOrder FloatFacts FloatClass FloatAlgebra FloatSigns VecFacts Quadratic SphereFacts.

(** The quadratic of a ray whose direction is the zero vector: [a] is
    [0], the other coefficients are zeros or NaN, and both roots are NaN. *)
Lemma zero_direction_roots s o :
  let ray := Ray.mk o (Vec3.mk 0 0 0) in
  (discriminant s ray <? 0) = false /\
  is_nan (t0 s ray) = true /\ is_nan (t1 s ray) = true.
Proof.
  intros ray.
  assert (zero_or_nan (b s ray) = true) as Hb.
  { unfold b, Vec3.dot. apply zn_mul_r. repeat apply zn_add; apply zn_mul_r; reflexivity. }
  assert (zero_or_nan (discriminant s ray) = true) as Hd.
  { unfold discriminant. apply zn_sub; [now apply zn_mul_l|].
    apply zn_mul_l. reflexivity. }
  split; [now apply zn_not_neg|].
  unfold t0, t1. split; apply zn_div_zero; try reflexivity.
  - apply zn_sub; [now apply zn_opp|now apply zn_sqrt].
  - apply zn_add; [now apply zn_opp|now apply zn_sqrt].
Qed.

Lemma zero_direction_miss s o tMin tMax :
  Sphere.intersect s (Ray.mk o (Vec3.mk 0 0 0)) tMin tMax = None.
Proof.
  destruct (zero_direction_roots s o) as (Hd & H0 & H1).
  rewrite intersect_unfold, Hd. unfold in_range.
  now rewrite (nan_not_geb _ tMin H0), (nan_not_geb _ tMin H1).
Qed.

(** A ray that misses every sphere under every bound leaves the loop of
    [Scene::intersect] where it started. *)
Lemma loop_all_miss ray tMin ss : forall i tC idx,
  (forall s tMax, Sphere.intersect s ray tMin tMax = None) ->
  Scene.intersect_loop ray tMin ss i tC idx = (tC, idx).
Proof.
  induction ss as [|s ss IH]; intros i tC idx H; simpl; [reflexivity|].
  rewrite H. now apply IH.
Qed.

Lemma zero_direction_new o d :
  gtb (Vec3.length d) 0 = false -> Ray.new o d = Ray.mk o (Vec3.mk 0 0 0).
Proof. intros H. unfold Ray.new, Vec3.normalize. cbv zeta. now rewrite H. Qed.

End DegenerateFacts.

Module SceneLoopFacts.
Import FloatOrder FloatFacts Quadratic SphereFacts SceneFacts SceneTheorems.

Lemma intersect_loop_app ray tMin ss1 : forall ss2 i tC idx,
  Scene.intersect_loop ray tMin (ss1 ++ ss2) i tC idx
  = let '(tC', idx') := Scene.intersect_loop ray tMin ss1 i tC idx in
    Scene.intersect_loop ray tMin ss2 (i + List.length ss1)%nat tC' idx'.
Proof.
  induction ss1 as [|s ss1 IH]; intros ss2 i tC idx; simpl.
  - now rewrite Nat.add_0_r.
  - destruct (Sphere.intersect s ray tMin tC) as [t|]; rewrite IH;
      now replace (S i + List.length ss1)%nat with (i + S (List.length ss1))%nat by lia.
Qed.

(** [Scene::intersect] after [addSphere]: the spheres already there are
    tested first, with the same result, then the new one. *)
Lemma intersect_after_addSphere sc s ray tMin hit t idx :
  (Z.of_nat (List.length (Scene.spheres sc)) < 2 ^ 31)%Z ->
  Scene.intersect sc ray tMin = (hit, t, idx) ->
  Scene.intersect (Scene.addSphere sc s) ray tMin
  = match Sphere.intersect s ray tMin t with
    | Some t' => (true, t', Z.of_nat (List.length (Scene.spheres sc)))
    | None => (hit, t, idx)
    end.
Proof.
  intros Hlen. unfold Scene.intersect, Scene.addSphere. simpl.
  rewrite intersect_loop_app.
  destruct (Scene.intersect_loop ray tMin (Scene.spheres sc) 0 infinity (-1)) as [tC i].
  intros [= <- <- <-]. simpl.
  destruct (Sphere.intersect s ray tMin tC) as [t'|]; [|reflexivity].
  rewrite int_of_size_t_small by assumption.
  f_equal. f_equal. lia.
Qed.

Lemma intersect_addSphere_closer sc s ray tMin hit t idx hit' t' idx' :
  (Z.of_nat (List.length (Scene.spheres sc)) < 2 ^ 31)%Z ->
  Scene.intersect sc ray tMin = (hit, t, idx) ->
  Scene.intersect (Scene.addSphere sc s) ray tMin = (hit', t', idx') ->
  (hit = true -> hit' = true) /\ (t' <=? t) = true.
Proof.
  intros Hlen Hres.
  rewrite (intersect_after_addSphere sc s ray tMin hit t idx Hlen Hres).
  destruct (intersect_state sc ray tMin Hlen) as (hit0 & t0' & idx0 & Hres0 & Hflag & Hst).
  rewrite Hres in Hres0. injection Hres0 as <- <- <-.
  pose proof (state_not_nan _ _ _ _ _ Hst) as Hnan.
  destruct (Sphere.intersect s ray tMin t) as [t1|] eqn:E.
  - intros [= <- <- <-]. split; [reflexivity|].
    now destruct (intersect_in_range _ _ _ _ _ E).
  - intros [= <- <- <-]. split; [auto|now apply leb_refl].
Qed.

End SceneLoopFacts.

Module SphereProps.
Import FloatOrder FloatFacts FloatClass FloatAlgebra FloatSigns VecFacts Quadratic SphereFacts.
Import DegenerateFacts Examples.

(** X6.  A distance returned by [Sphere::intersect] lies in [[tMin, tMax]]
    and is not NaN; when [tMin <= tMax] is false (an empty range, or a NaN
    bound) the call reports a miss for every ray. *)
Theorem intersect_within_bounds (s : Sphere.t) (ray : Ray.t) (tMin tMax : float) :
  (forall t, Sphere.intersect s ray tMin tMax = Some t ->
     (tMin <=? t) = true /\ (t <=? tMax) = true /\ is_nan t = false /\
     (tMin <=? tMax) = true) /\
  ((tMin <=? tMax) = false -> Sphere.intersect s ray tMin tMax = None).
Proof.
  assert (forall t, Sphere.intersect s ray tMin tMax = Some t ->
     (tMin <=? t) = true /\ (t <=? tMax) = true /\ is_nan t = false /\
     (tMin <=? tMax) = true) as H.
  { intros t Ht. destruct (intersect_in_range _ _ _ _ _ Ht) as [H1 H2].
    split; [assumption|]. split; [assumption|].
    split; [eapply leb_not_nan_r; eauto|eapply leb_trans; eauto]. }
  split; [exact H|].
  intros Hb. destruct (Sphere.intersect s ray tMin tMax) as [t|] eqn:E; [|reflexivity].
  destruct (H t eq_refl) as (_ & _ & _ & Hc). congruence.
Qed.

(** X7.  The upper bound only filters: a hit of [Sphere::intersect] at
    distance [t] under the bound [tMax] is returned unchanged under any
    other bound [tMax'] with [t <= tMax']. *)
Theorem intersect_tMax_independent (s : Sphere.t) (ray : Ray.t) (tMin tMax tMax' t : float) :
  Sphere.intersect s ray tMin tMax = Some t ->
  (t <=? tMax') = true ->
  Sphere.intersect s ray tMin tMax' = Some t.
Proof.
  intros Ht Hle.
  pose proof (intersect_bounded_eq _ _ _ _ _ Ht) as Hh.
  destruct (intersect_in_range _ _ _ _ _ Ht) as [Hge _].
  unfold hitDistance, Sphere.default_tMax in Hh. revert Hh.
  rewrite !intersect_unfold.
  destruct (discriminant s ray <? 0); [discriminate|].
  rewrite !in_range_infinity. unfold in_range, geb.
  destruct (tMin <=? t0 s ray) eqn:F0.
  - intros [= <-]. now rewrite Hle.
  - simpl. destruct (tMin <=? t1 s ray) eqn:F1; [|discriminate].
    intros [= <-]. now rewrite Hle.
Qed.

(** X7, witness: the hit at distance 4 found with [tMax = 4] is the hit
    found with no upper bound. *)
Lemma intersect_tMax_independent_witness :
  Sphere.intersect unitSphere axisRay 0.001 4 = Some 4 /\
  Sphere.intersect unitSphere axisRay 0.001 infinity = Some 4.
Proof.
  assert (Sphere.intersect unitSphere axisRay 0.001 4 = Some 4) as H
    by (vm_compute; reflexivity).
  split; [exact H|].
  apply (intersect_tMax_independent unitSphere axisRay 0.001 4 infinity 4 H).
  vm_compute; reflexivity.
Defined.

(** X8.  A ray constructed from a direction whose length is not positive
    (the zero vector, or a vector whose length is NaN) has the zero
    direction, misses every sphere for all bounds, and [Scene::intersect]
    reports no hit for it, with distance [+infinity] and index [-1]. *)
Theorem degenerate_ray_misses (sc : Scene.t) (o d : Vec3.t) (tMin : float) :
  gtb (Vec3.length d) 0 = false ->
  Ray.direction (Ray.new o d) = Vec3.mk 0 0 0 /\
  (forall s tMax, Sphere.intersect s (Ray.new o d) tMin tMax = None) /\
  Scene.intersect sc (Ray.new o d) tMin = (false, infinity, (-1)%Z).
Proof.
  intros H. rewrite (zero_direction_new o d H).
  split; [reflexivity|].
  split; [intros; apply zero_direction_miss|].
  unfold Scene.intersect. rewrite loop_all_miss; [reflexivity|].
  intros; apply zero_direction_miss.
Qed.

(** X8, witness: a ray with the zero vector as raw direction, in the
    scene of [main]. *)
Lemma degenerate_ray_misses_witness :
  gtb (Vec3.length (Vec3.mk 0 0 0)) 0 = false /\
  Scene.intersect Main.scene (Ray.new (Vec3.mk 0 0 0) (Vec3.mk 0 0 0)) 0.001
  = (false, infinity, (-1)%Z).
Proof.
  split; [reflexivity|].
  exact (proj2 (proj2 (degenerate_ray_misses Main.scene (Vec3.mk 0 0 0) (Vec3.mk 0 0 0)
                         0.001 eq_refl))).
Defined.
End SphereProps.

Module SceneProps.
Import FloatOrder FloatFacts FloatClass FloatAlgebra FloatSigns VecFacts Quadratic SphereFacts.
Import SceneFacts SceneTheorems DegenerateFacts SceneLoopFacts Examples.

(** X9.  [Scene::isInShadow(p, p)] is false in every scene and for every
    point [p]: a light placed at the point itself is never occluded. *)
Theorem isInShadow_self (sc : Scene.t) (p : Vec3.t) : Scene.isInShadow sc p p = false.
Proof.
  unfold Scene.isInShadow.
  rewrite (zero_direction_new p (p - p)%vec3)
    by (apply zn_not_pos, zn_length, zn_sub_self_vec).
  unfold Scene.intersect. rewrite loop_all_miss; [reflexivity|].
  intros; apply zero_direction_miss.
Qed.

(** X10.  [Scene::intersect] after [addSphere]: the result is that of the
    scene before, followed by one test of the new sphere against the closest
    distance found so far; if the new sphere is hit within that distance the
    result is this hit, with the former number of spheres as index,
    otherwise it is unchanged.  So a hit stays a hit and the closest
    distance does not grow. *)
Theorem intersect_addSphere (sc : Scene.t) (s : Sphere.t) (ray : Ray.t) (tMin : float)
    (hit : bool) (t : float) (idx : Z) :
  (Z.of_nat (List.length (Scene.spheres sc)) < 2 ^ 31)%Z ->
  Scene.intersect sc ray tMin = (hit, t, idx) ->
  Scene.intersect (Scene.addSphere sc s) ray tMin
  = match Sphere.intersect s ray tMin t with
    | Some t' => (true, t', Z.of_nat (List.length (Scene.spheres sc)))
    | None => (hit, t, idx)
    end /\
  (forall hit' t' idx',
     Scene.intersect (Scene.addSphere sc s) ray tMin = (hit', t', idx') ->
     (hit = true -> hit' = true) /\ (t' <=? t) = true).
Proof.
  intros Hlen Hres. split.
  - now apply intersect_after_addSphere.
  - intros hit' t' idx' E'. exact (intersect_addSphere_closer _ _ _ _ _ _ _ _ _ _ Hlen Hres E').
Qed.

(** X10, witness: [unitSphere] added to a scene holding [wideSphere]; both
    are hit at distance 4, and the sphere added last is returned. *)
Lemma intersect_addSphere_witness :
  (Z.of_nat (List.length (Scene.spheres (sceneOf [wideSphere]))) < 2 ^ 31)%Z /\
  Scene.intersect (sceneOf [wideSphere]) axisRay 0.001 = (true, 4, 0%Z) /\
  Scene.intersect (Scene.addSphere (sceneOf [wideSphere]) unitSphere) axisRay 0.001
  = (true, 4, 1%Z).
Proof.
  assert (Z.of_nat (List.length (Scene.spheres (sceneOf [wideSphere]))) < 2 ^ 31)%Z as Hlen
    by (vm_compute; reflexivity).
  assert (Scene.intersect (sceneOf [wideSphere]) axisRay 0.001 = (true, 4, 0%Z)) as Hres
    by (vm_compute; reflexivity).
  split; [exact Hlen|]. split; [exact Hres|].
  rewrite (proj1 (intersect_addSphere (sceneOf [wideSphere]) unitSphere axisRay 0.001
                    true 4 0%Z Hlen Hres)).
  vm_compute; reflexivity.
Defined.

(** X11.  Adding a sphere never removes a shadow: a point that is in shadow
    for a light stays in shadow after [addSphere]. *)
Theorem isInShadow_addSphere (sc : Scene.t) (s : Sphere.t) (point lightPos : Vec3.t) :
  (Z.of_nat (List.length (Scene.spheres sc)) < 2 ^ 31)%Z ->
  Scene.isInShadow sc point lightPos = true ->
  Scene.isInShadow (Scene.addSphere sc s) point lightPos = true.
Proof.
  intros Hlen. unfold Scene.isInShadow.
  destruct (Scene.intersect sc (Ray.new point (lightPos - point)%vec3) 0.001)
    as [[hit t] idx] eqn:E.
  destruct (Scene.intersect (Scene.addSphere sc s) _ 0.001) as [[hit' t'] idx'] eqn:E'.
  destruct (intersect_addSphere_closer _ _ _ _ _ _ _ _ _ _ Hlen E E') as [Hh Hle].
  destruct hit; [|discriminate]. rewrite (Hh eq_refl).
  intros Hlt. eapply leb_ltb_trans; eauto.
Qed.

(** X11, witness: a light behind [unitSphere], before and after
    [wideSphere] is added. *)
Lemma isInShadow_addSphere_witness :
  (Z.of_nat (List.length (Scene.spheres (sceneOf [unitSphere]))) < 2 ^ 31)%Z /\
  Scene.isInShadow (sceneOf [unitSphere]) (Vec3.mk 0 0 5) (Vec3.mk 0 0 (-5)) = true /\
  Scene.isInShadow (Scene.addSphere (sceneOf [unitSphere]) wideSphere)
    (Vec3.mk 0 0 5) (Vec3.mk 0 0 (-5)) = true.
Proof.
  assert (Z.of_nat (List.length (Scene.spheres (sceneOf [unitSphere]))) < 2 ^ 31)%Z as Hlen
    by (vm_compute; reflexivity).
  assert (Scene.isInShadow (sceneOf [unitSphere]) (Vec3.mk 0 0 5) (Vec3.mk 0 0 (-5)) = true)
    as H by (vm_compute; reflexivity).
  split; [exact Hlen|]. split; [exact H|].
  exact (isInShadow_addSphere (sceneOf [unitSphere]) wideSphere _ _ Hlen H).
Defined.
End SceneProps.

(** *** Image *)
Module ImageProps.
Import Paint ImageFacts.

(** X12.  [Image::setPixel] keeps the dimensions and the size of the buffer;
    inside the image it changes the pixel [(x, y)] read by [getPixel] to the
    new color, and no other pixel; outside the image it leaves the image
    as it is, and [getPixel] returns black there. *)
Theorem setPixel_writes_one_pixel (img : Image.t) (x y : Z) (c : Vec3.t) :
  Image.wf img ->
  Image.wf (Image.setPixel img x y c) /\
  Image.width (Image.setPixel img x y c) = Image.width img /\
  Image.height (Image.setPixel img x y c) = Image.height img /\
  (Image.in_bounds img x y = true ->
   forall x' y',
     Image.getPixel (Image.setPixel img x y c) x' y'
     = if ((x' =? x) && (y' =? y))%Z then c else Image.getPixel img x' y') /\
  (Image.in_bounds img x y = false -> Image.setPixel img x y c = img) /\
  (Image.in_bounds img x y = false -> Image.getPixel img x y = Vec3.mk 0 0 0).
Proof.
  intros Hwf.
  split; [now apply setPixel_wf|].
  split; [apply setPixel_width|]. split; [apply setPixel_height|].
  split; [intros Hb x' y'; now apply getPixel_setPixel|].
  unfold Image.setPixel, Image.getPixel. split; now intros ->.
Qed.

(** X12, witness: a 2x2 image written at [(1, 0)] and at [(2, 0)], which is
    outside. *)
Lemma setPixel_writes_one_pixel_witness :
  Image.wf (Image.new 2 2) /\
  Image.getPixel (Image.setPixel (Image.new 2 2) 1 0 (Vec3.mk 1 2 3)) 1 0 = Vec3.mk 1 2 3 /\
  Image.getPixel (Image.setPixel (Image.new 2 2) 1 0 (Vec3.mk 1 2 3)) 0 1 = Vec3.mk 0 0 0 /\
  Image.setPixel (Image.new 2 2) 2 0 (Vec3.mk 1 2 3) = Image.new 2 2.
Proof.
  assert (Image.wf (Image.new 2 2)) as Hwf by (apply new_wf; lia).
  split; [exact Hwf|].
  destruct (setPixel_writes_one_pixel (Image.new 2 2) 1 0 (Vec3.mk 1 2 3) Hwf)
    as (_ & _ & _ & Hin & _).
  split; [exact (Hin eq_refl 1%Z 0%Z)|].
  split; [exact (Hin eq_refl 0%Z 1%Z)|].
  exact (proj1 (proj2 (proj2 (proj2 (proj2
           (setPixel_writes_one_pixel (Image.new 2 2) 2 0 (Vec3.mk 1 2 3) Hwf))))) eq_refl).
Defined.

(** X13.  An image constructed with dimensions whose product fits an [int]
    has these dimensions, a buffer of [width * height] pixels, and is black:
    [getPixel] returns [(0, 0, 0)] at all coordinates. *)
Theorem new_image_is_black (width height : Z) :
  (0 <= width < 2 ^ 31)%Z -> (0 <= height < 2 ^ 31)%Z -> (width * height < 2 ^ 31)%Z ->
  Image.wf (Image.new width height) /\
  Image.width (Image.new width height) = width /\
  Image.height (Image.new width height) = height /\
  forall x y, Image.getPixel (Image.new width height) x y = Vec3.mk 0 0 0.
Proof.
  intros Hw Hh Hp. split; [now apply new_wf|].
  split; [reflexivity|]. split; [reflexivity|].
  intros x y. unfold Image.getPixel, Image.new. simpl.
  destruct (Image.in_bounds _ x y); [|reflexivity].
  destruct (replicate _ _ !! _) as [v|] eqn:E; [|reflexivity].
  apply lookup_replicate in E as [-> _]. reflexivity.
Qed.

(** X13, witness: the 800x600 image of [main]. *)
Lemma new_image_is_black_witness :
  Image.wf (Image.new 800 600) /\
  forall x y, Image.getPixel (Image.new 800 600) x y = Vec3.mk 0 0 0.
Proof.
  destruct (new_image_is_black 800 600 ltac:(lia) ltac:(lia) ltac:(lia))
    as (H1 & _ & _ & H2).
  split; assumption.
Defined.

(** X14.  For coordinates inside the image, the index [y * width + x] used by
    [setPixel] and [getPixel] is computed without overflow of [int], lies
    within the buffer, and is the index of no other pixel of the image. *)
Theorem pixel_index_in_buffer (img : Image.t) (x y : Z) :
  Image.wf img -> Image.in_bounds img x y = true ->
  (0 <= y * Image.width img < 2 ^ 31)%Z /\
  (0 <= y * Image.width img + x < 2 ^ 31)%Z /\
  (Z.to_nat (y * Image.width img + x) < List.length (Image.pixels img))%nat /\
  (forall x' y', Image.in_bounds img x' y' = true ->
     Z.to_nat (y' * Image.width img + x') = Z.to_nat (y * Image.width img + x) ->
     x' = x /\ y' = y).
Proof.
  intros Hwf Hb.
  destruct (index_in_int img x y Hwf Hb) as [H1 H2].
  split; [exact H1|]. split; [exact H2|]. split; [now apply index_lt|].
  intros x' y' Hb' Heq. now apply (index_inj img x' y' x y).
Qed.

(** X14, witness: the last pixel of the 800x600 image of [main]. *)
Lemma pixel_index_in_buffer_witness :
  (0 <= 599 * 800 + 799 < 2 ^ 31)%Z /\
  (Z.to_nat (599 * 800 + 799) < List.length (Image.pixels (Image.new 800 600)))%nat.
Proof.
  assert (Image.wf (Image.new 800 600)) as Hwf by (apply new_wf; lia).
  destruct (pixel_index_in_buffer (Image.new 800 600) 799 599 Hwf eq_refl)
    as (_ & H2 & H3 & _).
  split; [exact H2|exact H3].
Defined.

(** Two images of the same dimensions that hold the same pixels are the same. *)
Lemma image_ext img1 img2 :
  Image.wf img1 -> Image.wf img2 ->
  Image.width img2 = Image.width img1 -> Image.height img2 = Image.height img1 ->
  (forall x y, Image.in_bounds img1 x y = true ->
     Image.getPixel img1 x y = Image.getPixel img2 x y) ->
  img1 = img2.
Proof.
  destruct img1 as [w h px1], img2 as [w2 h2 px2]. simpl.
  intros Hwf1 Hwf2 -> -> Hpix. f_equal.
  destruct Hwf1 as (Hw & Hh & Hp & Hl1), Hwf2 as (_ & _ & _ & Hl2). simpl in *.
  apply list_eq. intros i.
  destruct (Z_lt_le_dec (Z.of_nat i) (w * h)) as [Hlt|Hge].
  - assert (0 < w)%Z as Hwpos by nia.
    pose proof (Z.div_mod (Z.of_nat i) w ltac:(lia)) as Hdm.
    pose proof (Z.mod_pos_bound (Z.of_nat i) w Hwpos) as Hm.
    assert (0 <= Z.of_nat i / w < h)%Z as Hq.
    { split; [apply Z.div_pos; lia|]. apply Z.div_lt_upper_bound; lia. }
    specialize (Hpix (Z.of_nat i mod w) (Z.of_nat i / w))%Z.
    unfold Image.getPixel, Image.in_bounds in Hpix. simpl in Hpix.
    replace (Z.to_nat (Z.of_nat i / w * w + Z.of_nat i mod w)) with i in Hpix by lia.
    destruct (lookup_lt_is_Some_2 px1 i ltac:(lia)) as [v1 E1].
    destruct (lookup_lt_is_Some_2 px2 i ltac:(lia)) as [v2 E2].
    rewrite E1, E2 in *. simpl in Hpix.
    f_equal.
    destruct ((0 <=? Z.of_nat i mod w)%Z && (Z.of_nat i mod w <? w)%Z
              && (0 <=? Z.of_nat i / w)%Z && (Z.of_nat i / w <? h)%Z) eqn:B; [|lia].
    now apply Hpix.
  - rewrite !lookup_ge_None_2 by lia. reflexivity.
Qed.

End ImageProps.

(** *** The render modes *)
Module RenderExtFacts.
Import FloatOrder FloatFacts FloatClass FloatAlgebra VecFacts DegenerateFacts.
Import Paint Shading ImageFacts PaintFacts RenderFacts ShadingFacts ImageProps.

(** The pixel loop gives the same image from two buffers of the same
    dimensions. *)
Lemma paint_ext shade img img' :
  Image.wf img -> Image.wf img' ->
  Image.width img' = Image.width img -> Image.height img' = Image.height img ->
  (forall x y, is_Some (shade x y)) ->
  Paint.image shade img' = Paint.image shade img.
Proof.
  intros Hwf Hwf' Hw Hh Hshade.
  destruct (image_spec shade img Hwf) as (r & Hr & (Hrw & Hrh & Hrwf) & Hpix); [eauto|].
  destruct (image_spec shade img' Hwf') as (r' & Hr' & (Hrw' & Hrh' & Hrwf') & Hpix'); [eauto|].
  rewrite Hr, Hr'. f_equal. apply image_ext; try assumption; try congruence.
  intros x y Hb.
  assert (Image.in_bounds img' x y = true) as Hb'.
  { unfold Image.in_bounds in *. rewrite Hrw', Hrh' in Hb. exact Hb. }
  assert (Image.in_bounds img x y = true) as Hb0.
  { unfold Image.in_bounds in *. rewrite Hw, Hh in Hb'. exact Hb'. }
  specialize (Hpix x y Hb0). specialize (Hpix' x y Hb'). congruence.
Qed.

(** The ray of a camera that looks at its own position. *)
Lemma getRay_on_target tan (c : Camera.t) u v width height :
  Camera.lookAt c = Camera.position c ->
  Camera.getRay tan c u v width height = Ray.mk (Camera.position c) (Vec3.mk 0 0 0).
Proof.
  intros Heq. unfold Camera.getRay. cbv zeta. rewrite Heq.
  rewrite (zn_normalize _ (zn_sub_self_vec (Camera.position c))).
  cbn [Vec3.x Vec3.y Vec3.z].
  match goal with
  | |- context [Vec3.normalize (Vec3.mk ?a ?b ?c)] =>
      rewrite (zn_normalize (Vec3.mk a b c))
  end.
  2:{ unfold zeroOrNanVec. cbn [Vec3.x Vec3.y Vec3.z].
      rewrite !andb_true_iff. repeat split; apply zn_sub; apply zn_mul_l; reflexivity. }
  cbn [Vec3.x Vec3.y Vec3.z].
  match goal with
  | |- Ray.new _ (Vec3.normalize ?w) = _ => rewrite (zn_normalize w)
  end.
  - reflexivity.
  - unfold zeroOrNanVec, Vec3.add, Vec3.scale. cbn [Vec3.x Vec3.y Vec3.z].
    rewrite !andb_true_iff.
    repeat split; repeat apply zn_add; try reflexivity; apply zn_mul_l;
      vm_compute; reflexivity.
Qed.

End RenderExtFacts.

Module RenderProps.
Import FloatOrder FloatFacts FloatClass FloatAlgebra VecFacts DegenerateFacts.
Import Paint Shading ImageFacts PaintFacts RenderFacts ShadingFacts ImageProps RenderExtFacts.
Import Examples.

(** X15.  The four render modes overwrite every pixel: the image they
    produce depends on the dimensions of the image they are given, not on
    the colors it held. *)
Theorem render_ignores_old_pixels (tan : float -> float) (img img' : Image.t)
    (camera : Camera.t) (scene : Scene.t) :
  Image.wf img -> Image.wf img' ->
  Image.width img' = Image.width img -> Image.height img' = Image.height img ->
  (Z.of_nat (List.length (Scene.spheres scene)) < 2 ^ 31)%Z ->
  Renderer.renderDistance tan img' camera scene = Renderer.renderDistance tan img camera scene /\
  Renderer.renderMaterials tan img' camera scene = Renderer.renderMaterials tan img camera scene /\
  Renderer.renderDiffuse tan img' camera scene = Renderer.renderDiffuse tan img camera scene /\
  Renderer.renderWithShadows tan img' camera scene
  = Renderer.renderWithShadows tan img camera scene.
Proof.
  intros Hwf Hwf' Hw Hh Hlen.
  rewrite !renderDistance_paint, !renderMaterials_paint, !renderDiffuse_paint,
    !renderWithShadows_paint, Hw, Hh.
  repeat split; apply paint_ext; try assumption; intros x y;
    first [apply distancePixel_Some | now apply spherePixel_Some].
Qed.

(** X15, witness: the scene of [main] rendered on a 2x2 image, black or
    with a white pixel. *)
Lemma render_ignores_old_pixels_witness :
  Renderer.renderMaterials tan_fov60
    (Image.setPixel (Image.new 2 2) 0 0 (Vec3.mk 1 1 1)) Main.camera Main.scene
  = Renderer.renderMaterials tan_fov60 (Image.new 2 2) Main.camera Main.scene.
Proof.
  assert (Image.wf (Image.new 2 2)) as Hwf by (apply new_wf; lia).
  apply (render_ignores_old_pixels tan_fov60 (Image.new 2 2)
           (Image.setPixel (Image.new 2 2) 0 0 (Vec3.mk 1 1 1)) Main.camera Main.scene).
  - exact Hwf.
  - now apply setPixel_wf.
  - reflexivity.
  - reflexivity.
  - vm_compute; reflexivity.
Defined.

(** X16.  [renderMaterials] completes; a pixel whose ray hits is painted with
    the material color of the sphere at the returned index; every pixel of
    the result is the background color or the material color of a sphere
    of the scene. *)
Theorem materials_pixel_color (tan : float -> float) (img : Image.t) (camera : Camera.t)
    (scene : Scene.t) :
  Image.wf img ->
  (Z.of_nat (List.length (Scene.spheres scene)) < 2 ^ 31)%Z ->
  exists imgC : Image.t,
    Renderer.renderMaterials tan img camera scene = Some imgC /\
    (forall (x y : Z) (t : float) (idx : Z),
       Image.in_bounds img x y = true ->
       Scene.intersect scene
         (pixelRay tan camera (Image.width img) (Image.height img) x y)
         Scene.default_tMin = (true, t, idx) ->
       exists sphere : Sphere.t,
         Scene.spheres scene !! size_t_of_int idx = Some sphere /\
         Image.getPixel imgC x y = Material.color (Sphere.material sphere)) /\
    (forall x y : Z,
       Image.in_bounds img x y = true ->
       Image.getPixel imgC x y = Vec3.mk 0.5 0.7 1.0 \/
       exists sphere : Sphere.t,
         sphere ∈ Scene.spheres scene /\
         Image.getPixel imgC x y = Material.color (Sphere.material sphere)).
Proof.
  intros Hwf Hlen. rewrite renderMaterials_paint.
  destruct (paint_pixels (materialsPixel tan camera scene (Image.width img) (Image.height img))
              img Hwf) as (imgC & HC & Hp);
    [intros; now apply spherePixel_Some|].
  exists imgC. split; [assumption|]. split.
  - intros x y t idx Hb Hres. specialize (Hp x y Hb).
    unfold materialsPixel, spherePixel in Hp. rewrite Hres in Hp.
    destruct (hit_lookup _ _ _ _ _ Hlen Hres) as [s Hs]. rewrite Hs in Hp.
    exists s. split; [assumption|congruence].
  - intros x y Hb. specialize (Hp x y Hb).
    unfold materialsPixel, spherePixel in Hp.
    destruct (Scene.intersect scene _ Scene.default_tMin) as [[[] t] idx] eqn:Hres.
    + destruct (hit_lookup _ _ _ _ _ Hlen Hres) as [s Hs]. rewrite Hs in Hp.
      right. exists s. split; [eapply list_elem_of_lookup_2; eauto|congruence].
    + left. congruence.
Qed.

(** X16, witness: the scene of [main] on a 2x2 image; the ray through
    pixel [(1, 1)] hits the red sphere. *)
Lemma materials_pixel_color_witness :
  exists imgC : Image.t,
    Renderer.renderMaterials tan_fov60 (Image.new 2 2) Main.camera Main.scene = Some imgC /\
    Image.getPixel imgC 1 1 = Vec3.mk 1.0 0.3 0.3.
Proof.
  assert (Image.wf (Image.new 2 2)) as Hwf by (apply new_wf; lia).
  assert (Z.of_nat (List.length (Scene.spheres Main.scene)) < 2 ^ 31)%Z as Hlen
    by (vm_compute; reflexivity).
  destruct (materials_pixel_color tan_fov60 (Image.new 2 2) Main.camera Main.scene Hwf Hlen)
    as (imgC & HC & Hhit & _).
  exists imgC. split; [exact HC|].
  destruct (Hhit 1%Z 1%Z 4 0%Z eq_refl ltac:(vm_compute; reflexivity)) as (s & Hs & Hc).
  rewrite Hc. vm_compute in Hs. injection Hs as <-. reflexivity.
Defined.

(** X17.  A camera whose [lookAt] is its [position] sends, through every
    pixel, a ray with the zero direction; the four render modes then paint
    every pixel with the background color, whatever the scene. *)
Theorem camera_on_target_sees_background (tan : float -> float) (img : Image.t)
    (camera : Camera.t) (scene : Scene.t) :
  Camera.lookAt camera = Camera.position camera ->
  Image.wf img ->
  (forall u v width height,
     Camera.getRay tan camera u v width height
     = Ray.mk (Camera.position camera) (Vec3.mk 0 0 0)) /\
  exists imgB imgC imgD imgE : Image.t,
    Renderer.renderDistance tan img camera scene = Some imgB /\
    Renderer.renderMaterials tan img camera scene = Some imgC /\
    Renderer.renderDiffuse tan img camera scene = Some imgD /\
    Renderer.renderWithShadows tan img camera scene = Some imgE /\
    forall x y : Z,
      Image.in_bounds img x y = true ->
      Image.getPixel imgB x y = Vec3.mk 0.5 0.7 1.0 /\
      Image.getPixel imgC x y = Vec3.mk 0.5 0.7 1.0 /\
      Image.getPixel imgD x y = Vec3.mk 0.5 0.7 1.0 /\
      Image.getPixel imgE x y = Vec3.mk 0.5 0.7 1.0.
Proof.
  intros Heq Hwf.
  split; [intros; now apply getRay_on_target|].
  assert (forall w h x y,
            Scene.intersect scene (pixelRay tan camera w h x y) Scene.default_tMin
            = (false, infinity, (-1)%Z)) as Hmiss.
  { intros w h x y. unfold pixelRay. rewrite getRay_on_target by assumption.
    unfold Scene.intersect. rewrite loop_all_miss; [reflexivity|].
    intros; apply zero_direction_miss. }
  rewrite renderDistance_paint, renderMaterials_paint, renderDiffuse_paint,
    renderWithShadows_paint.
  destruct (paint_pixels (distancePixel tan camera scene (Image.width img) (Image.height img))
              img Hwf) as (imgB & HB & HpB);
    [intros; apply distancePixel_Some|].
  assert (forall color x y,
            spherePixel color tan camera scene (Image.width img) (Image.height img) x y
            = Some (Vec3.mk 0.5 0.7 1.0)) as Hsp
    by (intros; unfold spherePixel; now rewrite Hmiss).
  destruct (paint_pixels (materialsPixel tan camera scene (Image.width img) (Image.height img))
              img Hwf) as (imgC & HC & HpC);
    [intros; unfold materialsPixel; rewrite Hsp; eauto|].
  destruct (paint_pixels (diffusePixel tan camera scene (Image.width img) (Image.height img))
              img Hwf) as (imgD & HD & HpD);
    [intros; unfold diffusePixel; rewrite Hsp; eauto|].
  destruct (paint_pixels (shadowPixel tan camera scene (Image.width img) (Image.height img))
              img Hwf) as (imgE & HE & HpE);
    [intros; unfold shadowPixel; rewrite Hsp; eauto|].
  exists imgB, imgC, imgD, imgE. repeat (split; [assumption|]).
  intros x y Hb.
  specialize (HpB x y Hb). specialize (HpC x y Hb).
  specialize (HpD x y Hb). specialize (HpE x y Hb).
  unfold distancePixel in HpB. rewrite Hmiss in HpB.
  unfold materialsPixel in HpC. unfold diffusePixel in HpD. unfold shadowPixel in HpE.
  rewrite Hsp in HpC, HpD, HpE.
  repeat split; congruence.
Qed.

(** X17, witness: a camera at [(0, 0, 5)] that looks at [(0, 0, 5)]. *)
Lemma camera_on_target_sees_background_witness :
  Camera.getRay tan_fov60 (Camera.mk (Vec3.mk 0 0 5) (Vec3.mk 0 0 5) (Vec3.mk 0 1 0) 60)
    400 300 800 600
  = Ray.mk (Vec3.mk 0 0 5) (Vec3.mk 0 0 0).
Proof.
  assert (Image.wf (Image.new 2 2)) as Hwf by (apply new_wf; lia).
  exact (proj1 (camera_on_target_sees_background tan_fov60 (Image.new 2 2)
                  (Camera.mk (Vec3.mk 0 0 5) (Vec3.mk 0 0 5) (Vec3.mk 0 1 0) 60)
                  Main.scene eq_refl Hwf) 400 300 800%Z 600%Z).
Defined.

(** X18.  [renderDiffuse] after [addLight]: a pixel whose ray misses is
    unchanged; a pixel whose ray hits holds the color it had without the
    light, plus the diffuse term of the new light at the hit point (the
    intersections do not depend on the lights). *)
Theorem addLight_adds_one_term (tan : float -> float) (img : Image.t) (camera : Camera.t)
    (scene : Scene.t) (light : Light.t) :
  Image.wf img ->
  (Z.of_nat (List.length (Scene.spheres scene)) < 2 ^ 31)%Z ->
  exists imgD imgD' : Image.t,
    Renderer.renderDiffuse tan img camera scene = Some imgD /\
    Renderer.renderDiffuse tan img camera (Scene.addLight scene light) = Some imgD' /\
    forall (x y : Z) (hit : bool) (t : float) (idx : Z),
      Image.in_bounds img x y = true ->
      Scene.intersect scene
        (pixelRay tan camera (Image.width img) (Image.height img) x y)
        Scene.default_tMin = (hit, t, idx) ->
      (hit = false -> Image.getPixel imgD' x y = Image.getPixel imgD x y) /\
      (hit = true ->
       exists sphere : Sphere.t,
         Scene.spheres scene !! size_t_of_int idx = Some sphere /\
         Image.getPixel imgD' x y
         = (Image.getPixel imgD x y
            + diffuseTerm (Material.color (Sphere.material sphere))
                (Sphere.getNormal sphere
                   (Ray.at_ (pixelRay tan camera (Image.width img) (Image.height img) x y) t))
                (Ray.at_ (pixelRay tan camera (Image.width img) (Image.height img) x y) t)
                light)%vec3).
Proof.
  intros Hwf Hlen. rewrite !renderDiffuse_paint.
  destruct (paint_pixels (diffusePixel tan camera scene (Image.width img) (Image.height img))
              img Hwf) as (imgD & HD & Hp);
    [intros; now apply spherePixel_Some|].
  destruct (paint_pixels (diffusePixel tan camera (Scene.addLight scene light)
                            (Image.width img) (Image.height img))
              img Hwf) as (imgD' & HD' & Hp');
    [intros; now apply spherePixel_Some|].
  exists imgD, imgD'. split; [assumption|]. split; [assumption|].
  intros x y hit t idx Hb Hres.
  specialize (Hp x y Hb). specialize (Hp' x y Hb).
  unfold diffusePixel, spherePixel in Hp, Hp'.
  change (Scene.intersect (Scene.addLight scene light)) with (Scene.intersect scene) in Hp'.
  rewrite Hres in Hp, Hp'. split.
  - intros ->. congruence.
  - intros ->. destruct (hit_lookup _ _ _ _ _ Hlen Hres) as [s Hs].
    change (Scene.spheres (Scene.addLight scene light)) with (Scene.spheres scene) in Hp'.
    rewrite Hs in Hp, Hp'. exists s. split; [assumption|].
    injection Hp as Hp. injection Hp' as Hp'. rewrite <- Hp, <- Hp'.
    unfold diffuseColor, Scene.addLight. simpl.
    now rewrite fold_left_app.
Qed.

(** X18, witness: one light added to a scene holding [unitSphere] and no
    light; pixel [(0, 0)] misses and pixel [(1, 1)] hits. *)
Lemma addLight_adds_one_term_witness :
  exists imgD imgD' : Image.t,
    Renderer.renderDiffuse tan_fov60 (Image.new 2 2) Main.camera (sceneOf [unitSphere])
    = Some imgD /\
    Renderer.renderDiffuse tan_fov60 (Image.new 2 2) Main.camera
      (Scene.addLight (sceneOf [unitSphere]) (Light.mk (Vec3.mk 5 5 5) (Vec3.mk 1 1 1) 0.8))
    = Some imgD' /\
    Image.getPixel imgD' 0 0 = Image.getPixel imgD 0 0 /\
    Image.getPixel imgD' 1 1
    = (Image.getPixel imgD 1 1 + Vec3.mk 0.39389277113386473 0 0)%vec3.
Proof.
  assert (Image.wf (Image.new 2 2)) as Hwf by (apply new_wf; lia).
  assert (Z.of_nat (List.length (Scene.spheres (sceneOf [unitSphere]))) < 2 ^ 31)%Z as Hlen
    by (vm_compute; reflexivity).
  destruct (addLight_adds_one_term tan_fov60 (Image.new 2 2) Main.camera
              (sceneOf [unitSphere]) (Light.mk (Vec3.mk 5 5 5) (Vec3.mk 1 1 1) 0.8) Hwf Hlen)
    as (imgD & imgD' & HD & HD' & H).
  exists imgD, imgD'. split; [exact HD|]. split; [exact HD'|]. split.
  - apply (proj1 (H 0%Z 0%Z false infinity (-1)%Z eq_refl ltac:(vm_compute; reflexivity))).
    reflexivity.
  - destruct (proj2 (H 1%Z 1%Z true 4 0%Z eq_refl ltac:(vm_compute; reflexivity)) eq_refl)
      as (s & Hs & Hc).
    rewrite Hc. vm_compute in Hs. injection Hs as <-.
    f_equal; vm_compute; reflexivity.
Defined.

End RenderProps.

(** *** The gray level of the distance mode *)
Module Exact.
Import FloatKey Rounding Digits Shift Round Mono Signs Addition Division Roots.
Local Open Scope Z_scope.

(** Rounding the mantissa of a double, given at a lower exponent, gives the
    double back. *)
Lemma result_exact m e k :
  0 < m -> 0 <= k -> fexp (dig m + e) = e -> e <= 971 ->
  result false (recl (m * 2 ^ k) loc_Exact) (e - k)
  = match m with Zpos p => S754_finite false p e | _ => S754_nan end.
Proof.
  intros Hm Hk Hc Hb.
  pose proof (pow2_pos k Hk) as Hp.
  assert (dig (m * 2 ^ k) + (e - k) = dig m + e) as Hd
    by (rewrite dig_mul_pow2 by lia; lia).
  rewrite (result_shift false _ (e - k) k);
    [|rewrite shr_m_recl; nia|assumption|rewrite shr_m_recl, Hd, Hc; lia].
  replace (e - k + k) with e by lia.
  assert (shrn (Z.to_nat k) (recl (m * 2 ^ k) loc_Exact) = recl m loc_Exact) as ->.
  { unfold recl. cbn [shr_record_of_loc].
    replace (m * 2 ^ k) with (m * 2 ^ Z.of_nat (Z.to_nat k)) by (now rewrite Z2Nat.id).
    apply shrn_exact. lia. }
  unfold result, rounded. rewrite shr_m_recl, Hc, Z.sub_diag. cbn [Z.to_nat shrn Nat.iter].
  assert (rnd (shrn (Z.to_nat 0) (recl m loc_Exact)) = m) as -> by reflexivity.
  assert (dig m <= 53) as Hd53 by (rewrite fexp_spec in Hc; lia).
  destruct (Z.leb_spec (dig m) 53); [|lia].
  destruct m as [|p|p]; try lia. unfold finish. change (emax - prec) with 971.
  destruct (Z.leb_spec e 971); [reflexivity|lia].
Qed.

Lemma binary_normalize_exact p e k :
  0 <= k -> fexp (dig (Zpos p) + e) = e -> e <= 971 ->
  binary_normalize prec emax (Zpos p * 2 ^ k) (e - k) false = S754_finite false p e.
Proof.
  intros Hk Hc Hb. pose proof (pow2_pos k Hk) as Hp.
  destruct (Zpos p * 2 ^ k) as [|q|q] eqn:E; try lia.
  unfold binary_normalize.
  assert (dig (Zpos q) + (e - k) = dig (Zpos p) + e) as Hd
    by (rewrite <- E, dig_mul_pow2 by lia; lia).
  rewrite (binary_round_at q (e - k) (e - k)) by (rewrite ?Hd, ?Hc; lia).
  rewrite Z.sub_diag, Z.mul_1_r, <- E.
  now rewrite (result_exact (Zpos p) e k).
Qed.

(** [binary_normalize] of an integer that is not below zero is not NaN. *)
Lemma binary_normalize_nonneg m e :
  0 <= m -> key_nonneg (key (binary_normalize prec emax m e false)).
Proof.
  intros Hm. destruct m as [|p|p]; [apply key_nonneg_zero|apply binary_round_nonneg|lia].
Qed.

End Exact.

Module UnitInterval.
Import FloatKey Rounding Digits Shift Round Mono Signs Addition Division Roots Exact.
Import FloatOrder FloatFacts FloatSigns.
Local Open Scope float_scope.

(** The two facts [ord] gives once NaN is excluded. *)
Lemma ord_leb (x y : float) :
  ord (Prim2SF x) (Prim2SF y) -> is_nan x = false -> is_nan y = false ->
  (x <=? y) = true.
Proof.
  intros H Nx Ny. apply ord_key_le in H. fold (fkey x) in H. fold (fkey y) in H.
  revert Nx Ny. unfold is_nan. rewrite !eqb_key, leb_key.
  destruct (fkey x) as [[[a1 b1] c1]|], (fkey y) as [[[a2 b2] c2]|];
    try discriminate. intros _ _. unfold key_ltb, key_eqb. lia.
Qed.

Lemma leb_ord (x y : float) : (x <=? y) = true -> ord (Prim2SF x) (Prim2SF y).
Proof.
  rewrite leb_key. unfold ord, fkey.
  destruct (key (Prim2SF x)) as [[[a1 b1] c1]|], (key (Prim2SF y)) as [[[a2 b2] c2]|];
    try discriminate; auto.
  unfold key_ltb, key_eqb. intros H. apply key_le_intro. lia.
Qed.

Lemma key_nonneg_not_nan (x : float) : key_nonneg (fkey x) -> is_nan x = false.
Proof.
  intros (a & b & c & H & _). unfold is_nan. rewrite eqb_key, H.
  unfold key_eqb. lia.
Qed.

Lemma key_nonneg_leb (x : float) : key_nonneg (fkey x) -> (0 <=? x) = true.
Proof.
  intros (a & b & c & H & Hk). rewrite leb_key, H, fkey_zero.
  unfold key_ltb, key_eqb. destruct Hk as [Hk|[= -> -> ->]]; lia.
Qed.

(** The subtraction [1.0 - m] for [m] between [0] and [1]. *)
Lemma one_minus_unit (m : float) :
  (0 <=? m) = true -> (m <=? 1) = true ->
  (0 <=? 1 - m) = true /\ (1 - m <=? 1) = true.
Proof.
  intros H0 H1.
  assert (key_nonneg (fkey (1 - m)) /\ ord (Prim2SF (1 - m)) (Prim2SF 1)) as [Hn Ho].
  { unfold fkey. rewrite sub_spec.
    pose proof (Prim2SF_valid m) as Hv.
    pose proof (proj1 (not_nan_spec m) (leb_not_nan_r _ _ H0)) as Hnn.
    apply leb_ord in H0, H1. apply ord_key_le in H0, H1.
    change (Prim2SF 1) with (S754_finite false 4503599627370496 (-52)) in *.
    change (Prim2SF 0) with (S754_zero false) in *.
    destruct (Prim2SF m) as [s|[]| |[] mm em] eqn:E; simpl in H0, H1; try lia;
      try congruence.
    - (* m is a zero *)
      split; [|apply ord_refl]. eexists _, _, _; split; [reflexivity|left; lia].
    - (* m is finite and above zero *)
      apply valid_canonical in Hv.
      unfold SF64sub, SFsub. cbv zeta. cbn [cond_Zopp].
      set (ez := Z.min (-52) em).
      rewrite !shl_align_le by lia. cbn [fst].
      pose proof (pow2_pos (-52 - ez)%Z ltac:(lia)) as Hp1.
      pose proof (pow2_pos (em - ez)%Z ltac:(lia)) as Hp2.
      rewrite !Z2Pos.id by nia.
      pose proof (canonical_value_le (Zpos mm) em 4503599627370496 (-52) ez
                    ltac:(lia) ltac:(lia) Hv eq_refl ltac:(lia) ltac:(lia)) as Hle.
      split.
      + apply binary_normalize_nonneg. lia.
      + replace (S754_finite false 4503599627370496 (-52))
          with (binary_normalize prec emax (4503599627370496 * 2 ^ (-52 - ez))%Z ez false).
        * apply binary_normalize_mono. nia.
        * replace ez with (-52 - (-52 - ez))%Z at 2 by lia.
          apply binary_normalize_exact; [lia|reflexivity|lia]. }
  split; [now apply key_nonneg_leb|].
  apply ord_leb; [assumption|now apply key_nonneg_not_nan|reflexivity].
Qed.

(** A double at or above [0.001] divided by [20.0] is at or above zero. *)
Lemma div20_nonneg (t : float) : (0.001 <=? t) = true -> (0 <=? t / 20.0) = true.
Proof.
  intros H. apply key_nonneg_leb. unfold fkey. rewrite div_spec.
  pose proof (proj1 (not_nan_spec t) (leb_not_nan_r _ _ H)) as Hnn.
  apply leb_ord in H. apply ord_key_le in H.
  change (Prim2SF 20.0) with (S754_finite false 5629499534213120 (-48)).
  change (Prim2SF 0.001) with (S754_finite false 4611686018427388 (-62)) in H.
  destruct (Prim2SF t) as [s|[]| |[] mt et] eqn:E; simpl in H; try lia; try congruence.
  - eexists _, _, _; split; [reflexivity|left; lia].
  - unfold SF64div, SFdiv. cbn [xorb]. apply div_nonneg; lia.
Qed.

Lemma fmin_unit (q : float) :
  (0 <=? q) = true -> (0 <=? fmin 1.0 q) = true /\ (fmin 1.0 q <=? 1) = true.
Proof.
  intros H. unfold fmin. destruct (q <? 1.0) eqn:E.
  - split; [assumption|now apply ltb_leb].
  - split; reflexivity.
Qed.

End UnitInterval.

Module Brightness.
Import FloatKey Rounding Digits Shift Round Mono Signs Addition Division Roots Exact.
Import FloatOrder FloatFacts FloatSigns UnitInterval.
Local Open Scope Z_scope.

(** An integer multiple of [2^e] rounds the same way written at a lower
    exponent. *)
Lemma binary_round_shift p e k :
  0 <= k ->
  binary_round prec emax false (Z.to_pos (Zpos p * 2 ^ k)) (e - k)
  = binary_round prec emax false p e.
Proof.
  intros Hk. pose proof (pow2_pos k Hk) as Hp.
  set (c := Z.min (e - k) (fexp (dig (Zpos p) + e))).
  assert (dig (Zpos p * 2 ^ k) + (e - k) = dig (Zpos p) + e) as Hd
    by (rewrite dig_mul_pow2 by lia; lia).
  rewrite (binary_round_at p e c) by lia.
  rewrite (binary_round_at _ (e - k) c) by (rewrite ?Z2Pos.id by nia; rewrite ?Hd; lia).
  rewrite Z2Pos.id by nia. f_equal. f_equal.
  rewrite <- Z.mul_assoc, <- Z.pow_add_r by lia. f_equal. f_equal. lia.
Qed.

Lemma binary_normalize_shift m e k :
  0 <= k ->
  binary_normalize prec emax (m * 2 ^ k) (e - k) false = binary_normalize prec emax m e false.
Proof.
  intros Hk. pose proof (pow2_pos k Hk) as Hp.
  destruct m as [|p|p].
  - reflexivity.
  - destruct (Zpos p * 2 ^ k) as [|q|q] eqn:E; try lia.
    unfold binary_normalize. rewrite <- (binary_round_shift p e k Hk), E. reflexivity.
  - destruct (Zneg p * 2 ^ k) as [|q|q] eqn:E; try lia.
    unfold binary_normalize. rewrite !binary_round_opp.
    rewrite <- (binary_round_shift p e k Hk). f_equal. f_equal. f_equal. lia.
Qed.

Local Open Scope float_scope.

(** Subtracting more from [1.0] gives no more. *)
Lemma one_minus_antitone (m m' : float) :
  (0 <=? m) = true -> (m <=? m') = true -> (m' <=? 1) = true ->
  (1 - m' <=? 1 - m) = true.
Proof.
  intros H0 Hmm H1.
  assert ((m <=? 1) = true) as H1m by (eapply leb_trans; eauto).
  assert ((0 <=? m') = true) as H0m by (eapply leb_trans; eauto).
  destruct (one_minus_unit m H0 H1m) as [Hd0 Hd1].
  destruct (one_minus_unit m' H0m H1) as [Hd0' Hd1'].
  apply ord_leb; [|eapply leb_not_nan_r; eauto|eapply leb_not_nan_r; eauto].
  rewrite !sub_spec.
  pose proof (Prim2SF_valid m) as Hv. pose proof (Prim2SF_valid m') as Hv'.
  pose proof (proj1 (not_nan_spec m) (leb_not_nan_r _ _ H0)) as Hnn.
  pose proof (proj1 (not_nan_spec m') (leb_not_nan_r _ _ H0m)) as Hnn'.
  pose proof (leb_ord _ _ Hd1') as Hone. rewrite sub_spec in Hone.
  apply leb_ord in H0, Hmm, H1, H1m, H0m. apply ord_key_le in H0, Hmm, H1, H1m, H0m.
  change (Prim2SF 1) with (S754_finite false 4503599627370496 (-52)) in *.
  change (Prim2SF 0) with (S754_zero false) in *.
  destruct (Prim2SF m) as [s|[]| |[] mm em] eqn:E; simpl in H0, H1m; try lia;
    try congruence.
  - (* m is a zero: [1 - m] is [1] *)
    exact Hone.
  - destruct (Prim2SF m') as [s'|[]| |[] mm' em'] eqn:E'; simpl in H0m, H1, Hmm; try lia;
      try congruence.
    apply valid_canonical in Hv, Hv'.
    unfold SF64sub, SFsub. cbv zeta. cbn [cond_Zopp].
    set (ez := Z.min (-52) em). set (ez' := Z.min (-52) em').
    rewrite !shl_align_le by lia. cbn [fst].
    pose proof (pow2_pos (-52 - ez)%Z ltac:(lia)) as Hp1.
    pose proof (pow2_pos (em - ez)%Z ltac:(lia)) as Hp2.
    pose proof (pow2_pos (-52 - ez')%Z ltac:(lia)) as Hp3.
    pose proof (pow2_pos (em' - ez')%Z ltac:(lia)) as Hp4.
    rewrite !Z2Pos.id by nia.
    assert (em <= em')%Z as Hee by lia.
    assert (ez <= ez')%Z as Hez by lia.
    rewrite <- (binary_normalize_shift _ ez' (ez' - ez)) by lia.
    replace (ez' - (ez' - ez))%Z with ez by lia.
    apply binary_normalize_mono.
    pose proof (canonical_value_le (Zpos mm) em (Zpos mm') em' ez
                  ltac:(lia) ltac:(lia) Hv Hv' ltac:(lia) ltac:(lia)) as Hle.
    rewrite Z.mul_sub_distr_r, <- !Z.mul_assoc, <- !Z.pow_add_r by lia.
    replace (-52 - ez' + (ez' - ez))%Z with (-52 - ez)%Z by lia.
    replace (em' - ez' + (ez' - ez))%Z with (em' - ez)%Z by lia.
    lia.
Qed.

Lemma fmin_monotone (q q' : float) :
  (q <=? q') = true -> (fmin 1.0 q <=? fmin 1.0 q') = true.
Proof.
  intros H. unfold fmin.
  destruct (q <? 1.0) eqn:E, (q' <? 1.0) eqn:E'; try assumption.
  - now apply ltb_leb.
  - exfalso. assert ((q <? 1.0) = true) by (eapply leb_ltb_trans; eauto). congruence.
  - reflexivity.
Qed.

Lemma div20_monotone (t t' : float) :
  (0.001 <=? t) = true -> (t <=? t') = true -> (t / 20.0 <=? t' / 20.0) = true.
Proof.
  intros H0 H.
  assert ((0.001 <=? t') = true) as H0' by (eapply leb_trans; eauto).
  apply ord_leb.
  - rewrite !div_spec. apply SFdiv_mono; try apply Prim2SF_valid; [reflexivity|].
    now apply leb_ord.
  - eapply leb_not_nan_r. apply div20_nonneg. exact H0.
  - eapply leb_not_nan_r. apply div20_nonneg. exact H0'.
Qed.

(** The gray level of distance mode: within [[0, 1]], and not brighter
    farther away. *)
Lemma gray_level_unit (t : float) :
  (0.001 <=? t) = true ->
  let d := 1.0 - fmin 1.0 (t / 20.0) in (0 <=? d) = true /\ (d <=? 1) = true.
Proof.
  intros H. pose proof (div20_nonneg t H) as Hq.
  destruct (fmin_unit _ Hq) as [Hm0 Hm1]. now apply one_minus_unit.
Qed.

Lemma gray_level_antitone (t t' : float) :
  (0.001 <=? t) = true -> (t <=? t') = true ->
  (1.0 - fmin 1.0 (t' / 20.0) <=? 1.0 - fmin 1.0 (t / 20.0)) = true.
Proof.
  intros H0 H.
  assert ((0.001 <=? t') = true) as H0' by (eapply leb_trans; eauto).
  apply one_minus_antitone.
  - apply fmin_unit. now apply div20_nonneg.
  - apply fmin_monotone. now apply div20_monotone.
  - apply fmin_unit. now apply div20_nonneg.
Qed.

(** At distance [20.0] or more the gray level is [0]. *)
Lemma gray_level_far (t : float) :
  (20.0 <=? t) = true -> 1.0 - fmin 1.0 (t / 20.0) = 0.
Proof.
  intros H.
  assert ((0.001 <=? 20.0) = true) as H20 by reflexivity.
  pose proof (div20_monotone 20.0 t H20 H) as Hq.
  change (20.0 / 20.0) with 1.0 in Hq.
  unfold fmin.
  destruct (t / 20.0 <? 1.0) eqn:E; [|reflexivity].
  exfalso. apply leb_not_ltb in Hq. congruence.
Qed.

End Brightness.

Module DistanceProps.
Import FloatOrder FloatFacts Quadratic SphereFacts SceneFacts SceneTheorems.
Import Paint Shading ImageFacts PaintFacts RenderFacts ShadingFacts Brightness Examples.
Local Open Scope float_scope.

Lemma hit_distance_ge_tMin scene ray tMin t idx :
  (Z.of_nat (List.length (Scene.spheres scene)) < 2 ^ 31)%Z ->
  Scene.intersect scene ray tMin = (true, t, idx) -> (tMin <=? t) = true.
Proof.
  intros Hlen Hres.
  destruct (intersect_state scene ray tMin Hlen) as (hit0 & t0' & idx0 & Hres0 & Hflag & Hst).
  rewrite Hres in Hres0. injection Hres0 as <- <- <-. symmetry in Hflag.
  destruct (state_hit _ _ _ _ _ Hst Hflag) as (k & s & _ & _ & HM & _).
  now destruct (intersect_in_range _ _ _ _ _ HM).
Qed.

(** X19.  [renderDistance] completes; a pixel whose ray hits at distance [t]
    is the gray [(d, d, d)] with [d = 1.0 - min(1.0, t / 20.0)], where
    [0 <= d <= 1]; it is black when [t >= 20]; and of two pixels that hit,
    the one with the smaller distance is not darker. *)
Theorem distance_pixel_gray (tan : float -> float) (img : Image.t) (camera : Camera.t)
    (scene : Scene.t) :
  Image.wf img ->
  (Z.of_nat (List.length (Scene.spheres scene)) < 2 ^ 31)%Z ->
  exists imgB : Image.t,
    Renderer.renderDistance tan img camera scene = Some imgB /\
    (forall (x y : Z) (t : float) (idx : Z),
       Image.in_bounds img x y = true ->
       Scene.intersect scene
         (pixelRay tan camera (Image.width img) (Image.height img) x y)
         Scene.default_tMin = (true, t, idx) ->
       let d := 1.0 - fmin 1.0 (t / 20.0) in
       Image.getPixel imgB x y = Vec3.mk d d d /\
       (0 <=? d) = true /\ (d <=? 1) = true /\
       ((20.0 <=? t) = true -> Image.getPixel imgB x y = Vec3.mk 0 0 0)) /\
    (forall (x y x' y' : Z) (t t' : float) (idx idx' : Z),
       Image.in_bounds img x y = true -> Image.in_bounds img x' y' = true ->
       Scene.intersect scene
         (pixelRay tan camera (Image.width img) (Image.height img) x y)
         Scene.default_tMin = (true, t, idx) ->
       Scene.intersect scene
         (pixelRay tan camera (Image.width img) (Image.height img) x' y')
         Scene.default_tMin = (true, t', idx') ->
       (t <=? t') = true ->
       (Vec3.x (Image.getPixel imgB x' y') <=? Vec3.x (Image.getPixel imgB x y)) = true).
Proof.
  intros Hwf Hlen. rewrite renderDistance_paint.
  destruct (paint_pixels (distancePixel tan camera scene (Image.width img) (Image.height img))
              img Hwf) as (imgB & HB & Hp);
    [intros; apply distancePixel_Some|].
  exists imgB. split; [assumption|].
  assert (forall (x y : Z) (t : float) (idx : Z),
       Image.in_bounds img x y = true ->
       Scene.intersect scene
         (pixelRay tan camera (Image.width img) (Image.height img) x y)
         Scene.default_tMin = (true, t, idx) ->
       Image.getPixel imgB x y = distanceColor t /\ (0.001 <=? t) = true) as Hhit.
  { intros x y t idx Hb Hres. specialize (Hp x y Hb).
    unfold distancePixel in Hp. rewrite Hres in Hp.
    split; [congruence|]. exact (hit_distance_ge_tMin _ _ _ _ _ Hlen Hres). }
  split.
  - intros x y t idx Hb Hres d.
    destruct (Hhit x y t idx Hb Hres) as [Hpix Hge].
    split; [exact Hpix|].
    destruct (gray_level_unit t Hge) as [Hd0 Hd1].
    split; [exact Hd0|]. split; [exact Hd1|].
    intros Hfar. rewrite Hpix. unfold distanceColor. cbv zeta.
    now rewrite (gray_level_far t Hfar).
  - intros x y x' y' t t' idx idx' Hb Hb' Hres Hres' Hle.
    destruct (Hhit x y t idx Hb Hres) as [-> Hge].
    destruct (Hhit x' y' t' idx' Hb' Hres') as [-> Hge'].
    unfold distanceColor. cbn [Vec3.x]. now apply gray_level_antitone.
Qed.

(** X19, witness: the scene of [main] on a 2x2 image; the ray through
    pixel [(1, 1)] hits at distance 4, and [1 - 4 / 20] is [0.8]. *)
Lemma distance_pixel_gray_witness :
  exists imgB : Image.t,
    Renderer.renderDistance tan_fov60 (Image.new 2 2) Main.camera Main.scene = Some imgB /\
    Image.getPixel imgB 1 1 = Vec3.mk 0.8 0.8 0.8.
Proof.
  assert (Image.wf (Image.new 2 2)) as Hwf by (apply new_wf; lia).
  assert (Z.of_nat (List.length (Scene.spheres Main.scene)) < 2 ^ 31)%Z as Hlen
    by (vm_compute; reflexivity).
  destruct (distance_pixel_gray tan_fov60 (Image.new 2 2) Main.camera Main.scene Hwf Hlen)
    as (imgB & HB & Hhit & _).
  exists imgB. split; [exact HB|].
  destruct (Hhit 1%Z 1%Z 4 0%Z eq_refl ltac:(vm_compute; reflexivity)) as (Hc & _).
  rewrite Hc. vm_compute. reflexivity.
Defined.
End DistanceProps.

(** *** Image::savePPM *)
Module Product.
Import FloatKey Rounding Digits Shift Round Mono Signs Addition Division Roots Exact.
Local Open Scope Z_scope.

(** The exponent of a product of two doubles is not above its canonical
    exponent. *)
Lemma mul_canonical_exp mx ex mz ez :
  0 < mx -> 0 < mz ->
  fexp (dig mx + ex) = ex -> fexp (dig mz + ez) = ez ->
  ex + ez <= fexp (dig (mx * mz) + (ex + ez)).
Proof.
  intros Hx Hz Cx Cz. rewrite fexp_spec in *.
  destruct (Z.eq_dec (dig mx) 53) as [E|E].
  - pose proof (dig_mono mx (mx * mz) ltac:(nia)). lia.
  - destruct (Z.eq_dec (dig mz) 53) as [E'|E'].
    + pose proof (dig_mono mz (mx * mz) ltac:(nia)). lia.
    + lia.
Qed.

(** The product of two doubles above zero, as a rounding. *)
Lemma mul_result mx ex mz ez :
  fexp (dig (Zpos mx) + ex) = ex -> fexp (dig (Zpos mz) + ez) = ez ->
  SFmul prec emax (S754_finite false mx ex) (S754_finite false mz ez)
  = result false (recl (Zpos mx * Zpos mz) loc_Exact) (ex + ez).
Proof.
  intros Cx Cz. unfold SFmul. cbn [xorb]. rewrite Pos2Z.inj_mul.
  rewrite binary_round_aux_result; [reflexivity|lia|].
  apply mul_canonical_exp; (assumption || lia).
Qed.

(** Multiplication by a double above zero is monotone on the doubles above
    zero. *)
Lemma SFmul_mono_pos mx ex my ey mz ez :
  fexp (dig (Zpos mx) + ex) = ex -> fexp (dig (Zpos my) + ey) = ey ->
  fexp (dig (Zpos mz) + ez) = ez ->
  ex < ey \/ (ex = ey /\ Zpos mx <= Zpos my) ->
  ord (SFmul prec emax (S754_finite false mx ex) (S754_finite false mz ez))
      (SFmul prec emax (S754_finite false my ey) (S754_finite false mz ez)).
Proof.
  intros Cx Cy Cz Hle. rewrite !mul_result by assumption.
  assert (ex <= ey) as Hee by lia.
  pose proof (pow2_pos (ey - ex) ltac:(lia)) as Hp.
  pose proof (mul_canonical_exp (Zpos mx) ex (Zpos mz) ez ltac:(lia) ltac:(lia) Cx Cz) as Hcx.
  pose proof (mul_canonical_exp (Zpos my) ey (Zpos mz) ez ltac:(lia) ltac:(lia) Cy Cz) as Hcy.
  assert (result false (recl (Zpos my * Zpos mz) loc_Exact) (ey + ez)
          = result false (recl (Zpos my * Zpos mz * 2 ^ (ey - ex)) loc_Exact) (ex + ez)) as ->.
  { rewrite (result_shift false (recl (Zpos my * Zpos mz * 2 ^ (ey - ex)) loc_Exact)
               (ex + ez) (ey - ex)).
    - replace (ex + ez + (ey - ex)) with (ey + ez) by lia. f_equal.
      unfold recl. cbn [shr_record_of_loc].
      replace (Zpos my * Zpos mz * 2 ^ (ey - ex))
        with (Zpos my * Zpos mz * 2 ^ Z.of_nat (Z.to_nat (ey - ex)))
        by (now rewrite Z2Nat.id by lia).
      now rewrite shrn_exact by lia.
    - rewrite shr_m_recl. nia.
    - lia.
    - rewrite shr_m_recl, dig_mul_pow2 by lia.
      replace (dig (Zpos my * Zpos mz) + (ey - ex) + (ex + ez))
        with (dig (Zpos my * Zpos mz) + (ey + ez)) by lia. lia. }
  pose proof (canonical_value_le (Zpos mx) ex (Zpos my) ey ex
                ltac:(lia) ltac:(lia) Cx Cy Hle ltac:(lia)) as Hv.
  rewrite Z.sub_diag, Z.mul_1_r in Hv.
  apply result_mono.
  - rewrite shr_m_recl. lia.
  - unfold rle, recl. cbn [shr_record_of_loc shr_m rank shr_r shr_s].
    destruct (Z.eq_dec (Zpos mx * Zpos mz) (Zpos my * Zpos mz * 2 ^ (ey - ex))) as [E|E];
      [right; split; [assumption|lia]|left; nia].
  - rewrite shr_m_recl. assumption.
Qed.

Lemma mul_nonneg mx ex mz ez :
  fexp (dig (Zpos mx) + ex) = ex -> fexp (dig (Zpos mz) + ez) = ez ->
  key_nonneg (key (SFmul prec emax (S754_finite false mx ex) (S754_finite false mz ez))).
Proof.
  intros Cx Cz. rewrite mul_result by assumption.
  apply key_result_nonneg; rewrite shr_m_recl; [lia|].
  apply mul_canonical_exp; (assumption || lia).
Qed.

End Product.

Module ChannelFacts.
Import FloatKey Rounding Digits Round Mono Signs Division Roots Exact Product.
Import FloatOrder FloatFacts FloatSigns UnitInterval.
Local Open Scope float_scope.

(** A component in [[0, 1]] times [255] is in [[0, 255]]. *)
Lemma scale_unit (c : float) :
  (0 <=? c) = true -> (c <=? 1) = true ->
  (0 <=? c * 255) = true /\ (c * 255 <=? 255) = true.
Proof.
  intros H0 H1.
  assert (key_nonneg (fkey (c * 255)) /\ ord (Prim2SF (c * 255)) (Prim2SF 255)) as [Hn Ho].
  { unfold fkey. rewrite mul_spec.
    pose proof (Prim2SF_valid c) as Hv.
    pose proof (proj1 (not_nan_spec c) (leb_not_nan_r _ _ H0)) as Hnn.
    apply leb_ord in H0, H1. apply ord_key_le in H0, H1.
    change (Prim2SF 1) with (S754_finite false 4503599627370496 (-52)) in *.
    change (Prim2SF 0) with (S754_zero false) in *.
    change (Prim2SF 255) with (S754_finite false 8972014882652160 (-45)) in *.
    destruct (Prim2SF c) as [s|[]| |[] mc ec] eqn:E; simpl in H0, H1; try lia;
      try congruence.
    - (* c is a zero *)
      split; [apply key_nonneg_zero|].
      unfold ord. simpl. left. unfold key_lt. lia.
    - apply valid_canonical in Hv. split.
      + apply mul_nonneg; [assumption|reflexivity].
      + replace (S754_finite false 8972014882652160 (-45))
          with (SFmul prec emax (S754_finite false 4503599627370496 (-52))
                  (S754_finite false 8972014882652160 (-45)))
          by (vm_compute; reflexivity).
        apply SFmul_mono_pos; try reflexivity; [assumption|lia]. }
  split; [now apply key_nonneg_leb|].
  apply ord_leb; [assumption|now apply key_nonneg_not_nan|reflexivity].
Qed.

(** The conversion to [int] of a double in [[0, 255]]. *)
Lemma int_of_double_byte (r : float) :
  (0 <=? r) = true -> (r <=? 255) = true ->
  exists v, PPM.int_of_double r = Some v /\ (0 <= v <= 255)%Z.
Proof.
  intros H0 H1. unfold PPM.int_of_double.
  pose proof (Prim2SF_valid r) as Hv.
  pose proof (proj1 (not_nan_spec r) (leb_not_nan_r _ _ H0)) as Hnn.
  apply leb_ord in H0, H1. apply ord_key_le in H0, H1.
  change (Prim2SF 0) with (S754_zero false) in *.
  change (Prim2SF 255) with (S754_finite false 8972014882652160 (-45)) in *.
  destruct (Prim2SF r) as [s|[]| |[] m e] eqn:E; simpl in H0, H1; try lia;
    try congruence.
  - exists 0%Z. split; [reflexivity|lia].
  - apply valid_canonical in Hv. cbv zeta.
    pose proof (canonical_value_le (Zpos m) e 8972014882652160 (-45) (Z.min e (-45))
                  ltac:(lia) ltac:(lia) Hv eq_refl ltac:(lia) ltac:(lia)) as Hle.
    assert (0 <= Z.shiftl (Zpos m) e <= 255)%Z as Hb.
    { destruct (Z_le_gt_dec 0 e) as [He|He].
      - rewrite Z.shiftl_mul_pow2 by lia.
        replace (Z.min e (-45)) with (-45)%Z in Hle by lia.
        pose proof (pow2_pos e He) as Hp.
        replace (e - -45)%Z with (e + 45)%Z in Hle by lia.
        rewrite Z.pow_add_r in Hle by lia.
        change (2 ^ (-45 - -45))%Z with 1%Z in Hle.
        change (2 ^ 45)%Z with 35184372088832%Z in Hle. nia.
      - rewrite Z.shiftl_div_pow2 by lia.
        pose proof (pow2_pos (- e)%Z ltac:(lia)) as Hp.
        split; [apply Z.div_pos; lia|].
        apply Z.div_le_upper_bound; [lia|].
        destruct (Z_le_gt_dec e (-45)) as [He'|He'].
        + replace (Z.min e (-45)) with e in Hle by lia.
          rewrite Z.sub_diag, Z.mul_1_r in Hle.
          assert (2 ^ (- e) = 2 ^ 45 * 2 ^ (-45 - e))%Z as ->
            by (rewrite <- Z.pow_add_r by lia; f_equal; lia).
          change (2 ^ 45)%Z with 35184372088832%Z. nia.
        + replace (Z.min e (-45)) with (-45)%Z in Hle by lia.
          change (2 ^ (-45 - -45))%Z with 1%Z in Hle.
          assert (2 ^ 45 = 2 ^ (- e) * 2 ^ (e - -45))%Z as Hsplit
            by (rewrite <- Z.pow_add_r by lia; f_equal; lia).
          change (2 ^ 45)%Z with 35184372088832%Z in Hsplit.
          pose proof (pow2_pos (e - -45)%Z ltac:(lia)) as Hp'.
          nia. }
    exists (Z.shiftl (Zpos m) e). split; [|assumption].
    destruct ((- 2 ^ 31 <=? Z.shiftl (Zpos m) e) && (Z.shiftl (Zpos m) e <? 2 ^ 31))%Z eqn:B;
      [reflexivity|lia].
Qed.

Lemma channel_unit (c : float) :
  (0 <=? c) = true -> (c <=? 1) = true ->
  exists v, PPM.channel c = Some v /\ PPM.int_of_double (c * 255) = Some v /\
            (0 <= v <= 255)%Z.
Proof.
  intros H0 H1. destruct (scale_unit c H0 H1) as [Hs0 Hs1].
  destruct (int_of_double_byte _ Hs0 Hs1) as (v & Hv & Hb).
  exists v. unfold PPM.channel. rewrite Hv. split; [f_equal; lia|]. split; [reflexivity|lia].
Qed.

(** A component that is NaN or infinite has no conversion. *)
Lemma channel_not_finite (c : float) : is_finite c = false -> PPM.channel c = None.
Proof.
  unfold is_finite, is_nan, is_infinity, PPM.channel, PPM.int_of_double.
  rewrite !FloatAxioms.eqb_spec, abs_spec, mul_spec. unfold SFeqb.
  change (Prim2SF 255) with (S754_finite false 8972014882652160 (-45)).
  destruct (Prim2SF c) as [s|[]| |s m e]; simpl; intros H; try discriminate; try reflexivity.
  change (PosDef.Pos.compare_cont Eq m m) with (Pos.compare m m) in H.
  rewrite Z.compare_refl, Pos.compare_refl in H. destruct s; discriminate.
Qed.

End ChannelFacts.

Module PPMFacts.
Import Paint ImageFacts LoopFacts PPMText ChannelFacts.

Lemma append_assoc (a b c : string) : (a +:+ b) +:+ c = a +:+ (b +:+ c).
Proof.
  induction a as [|ch a IH]; [reflexivity|].
  change (String ch ((a +:+ b) +:+ c) = String ch (a +:+ (b +:+ c))). now rewrite IH.
Qed.

Lemma append_empty_r (a : string) : a +:+ "" = a.
Proof.
  induction a as [|ch a IH]; [reflexivity|].
  change (String ch (a +:+ "") = String ch a). now rewrite IH.
Qed.

(** A loop whose body never fails is a fold over its indices. *)
Lemma for_loop_fold {St : Type} (body : Z -> St -> option St) (f : Z -> St -> St) n :
  forall i s,
  (forall j s, (i <= j < i + Z.of_nat n)%Z -> body j s = Some (f j s)) ->
  Renderer.for_loop n i body s
  = Some (fold_left (fun s j => f j s) (seqZ i (Z.of_nat n)) s).
Proof.
  induction n as [|n IH]; intros i s H.
  - reflexivity.
  - cbn [Renderer.for_loop]. rewrite H by lia.
    rewrite seqZ_cons by lia. cbn [fold_left].
    rewrite IH by (intros; apply H; lia).
    do 3 f_equal; lia.
Qed.

Lemma for_int_fold {St : Type} (body : Z -> St -> option St) (f : Z -> St -> St) hi s :
  (forall j s, (0 <= j < hi)%Z -> body j s = Some (f j s)) ->
  Renderer.for_int 0 hi body s = Some (fold_left (fun s j => f j s) (seqZ 0 hi) s).
Proof.
  intros H. unfold Renderer.for_int.
  rewrite (for_loop_fold body f) by (intros; apply H; lia).
  destruct (Z_le_gt_dec 0 hi).
  - do 3 f_equal. lia.
  - rewrite !seqZ_nil by lia. reflexivity.
Qed.

(** A loop that ends has run its body at every index. *)
Lemma for_loop_Some {St : Type} (body : Z -> St -> option St) n :
  forall i s r,
  Renderer.for_loop n i body s = Some r ->
  forall j, (i <= j < i + Z.of_nat n)%Z -> exists s', is_Some (body j s').
Proof.
  induction n as [|n IH]; intros i s r Hrun j Hj; [lia|].
  cbn [Renderer.for_loop] in Hrun.
  destruct (body i s) as [s1|] eqn:E; [|discriminate].
  destruct (Z.eq_dec j i) as [->|Hne]; [exists s; rewrite E; eauto|].
  apply (IH (i + 1)%Z s1 r Hrun). lia.
Qed.

(** The body of the inner loop of [savePPM] writes the three numbers of
    the pixel, or fails. *)
Lemma pixel_step img x y (file : string) :
  match PPM.channel (Vec3.x (Image.getPixel img x y)) with
  | Some r =>
      match PPM.channel (Vec3.y (Image.getPixel img x y)) with
      | Some g =>
          match PPM.channel (Vec3.z (Image.getPixel img x y)) with
          | Some b => Some (PPM.write_pixel file r g b)
          | None => None
          end
      | None => None
      end
  | None => None
  end
  = match sample img x y with
    | Some s => Some (file +:+ pixel s)
    | None => None
    end.
Proof.
  unfold sample.
  destruct (PPM.channel (Vec3.x _)) as [r|]; [|reflexivity].
  destruct (PPM.channel (Vec3.y _)) as [g|]; [|reflexivity].
  destruct (PPM.channel (Vec3.z _)) as [b|]; reflexivity.
Qed.

Lemma savePPM_text_of img samples :
  (forall x y, Image.in_bounds img x y = true -> sample img x y = Some (samples x y)) ->
  PPM.savePPM img = Some (text samples (Image.width img) (Image.height img)).
Proof.
  intros Hs. unfold PPM.savePPM, text. cbv zeta.
  apply (for_int_fold _ (fun y file => row samples (Image.width img) y file)).
  intros y file Hy.
  rewrite (for_int_fold _ (fun x file => file +:+ pixel (samples x y))); [reflexivity|].
  intros x file' Hx. cbv zeta. rewrite pixel_step, Hs; [reflexivity|].
  apply in_bounds_iff. lia.
Qed.

Lemma savePPM_Some_samples img file :
  PPM.savePPM img = Some file ->
  forall x y, Image.in_bounds img x y = true -> is_Some (sample img x y).
Proof.
  unfold PPM.savePPM, Renderer.for_int. cbv zeta. intros Hrun x y Hb.
  apply in_bounds_iff in Hb.
  destruct (for_loop_Some _ _ _ _ _ Hrun y ltac:(lia)) as (f1 & f2 & Hrow).
  destruct (Renderer.for_loop (Z.to_nat (Image.width img - 0)) 0 _ f1) as [f3|] eqn:E;
    [|discriminate].
  destruct (for_loop_Some _ _ _ _ _ E x ltac:(lia)) as (f4 & f5 & Hpix).
  cbv zeta in Hpix. rewrite pixel_step in Hpix.
  destruct (sample img x y); [eauto|discriminate].
Qed.

(** The lines are appended to what the file holds. *)
Lemma row_append samples width y (a b : string) :
  row samples width y (a +:+ b) = a +:+ row samples width y b.
Proof.
  unfold row. rewrite <- append_assoc. f_equal.
  revert b. induction (seqZ 0 width) as [|x l IH]; intros b; cbn [fold_left]; [reflexivity|].
  now rewrite append_assoc, IH.
Qed.

Lemma text_header samples width height :
  exists rest, text samples width height = header width height +:+ rest.
Proof.
  unfold text.
  assert (forall l a b,
            fold_left (fun file y => row samples width y file) l (a +:+ b)
            = a +:+ fold_left (fun file y => row samples width y file) l b) as H.
  { induction l as [|y l IH]; intros a b; cbn [fold_left]; [reflexivity|].
    now rewrite row_append, IH. }
  exists (fold_left (fun file y => row samples width y file) (seqZ 0 height) "").
  rewrite <- H. now rewrite append_empty_r.
Qed.

Lemma savePPM_defined img :
  (forall x y, Image.in_bounds img x y = true -> is_Some (sample img x y)) ->
  is_Some (PPM.savePPM img).
Proof.
  intros Hs.
  rewrite (savePPM_text_of img (fun x y => default (0, 0, 0)%Z (sample img x y))); [eauto|].
  intros x y Hb. destruct (Hs x y Hb) as [s ->]. reflexivity.
Qed.

Lemma channel_range c v : PPM.channel c = Some v -> (0 <= v <= 255)%Z.
Proof.
  unfold PPM.channel. destruct (PPM.int_of_double (c * 255)); [|discriminate].
  intros [= <-]. lia.
Qed.

Lemma sample_unit img x y :
  unitVec (Image.getPixel img x y) = true -> is_Some (sample img x y).
Proof.
  unfold unitVec, sample. rewrite !andb_true_iff.
  intros [[[[[Hx0 Hx1] Hy0] Hy1] Hz0] Hz1].
  destruct (channel_unit _ Hx0 Hx1) as (r & -> & _).
  destruct (channel_unit _ Hy0 Hy1) as (g & -> & _).
  destruct (channel_unit _ Hz0 Hz1) as (b & -> & _). eauto.
Qed.

End PPMFacts.

Module PPMProps.
Import FloatOrder FloatFacts Paint Shading ImageFacts LoopFacts PaintFacts RenderFacts.
Import ShadingFacts PPMText ChannelFacts PPMFacts Brightness DistanceProps Examples.

(** X20.  The number [std::min(255, std::max(0, (int)(c * 255)))] written by
    [savePPM] for a color component [c]: whenever the conversion to [int] is
    defined it lies between 0 and 255; for [0 <= c <= 1] the conversion is
    defined and the clamp changes nothing; for an infinite or NaN [c] the
    conversion is undefined. *)
Theorem channel_conversion (c : float) :
  (forall v, PPM.channel c = Some v -> (0 <= v <= 255)%Z) /\
  ((0 <=? c) = true -> (c <=? 1) = true ->
   exists v, PPM.channel c = Some v /\ PPM.int_of_double (c * 255) = Some v) /\
  (is_finite c = false -> PPM.channel c = None).
Proof.
  split; [intros v; apply channel_range|]. split.
  - intros H0 H1. destruct (channel_unit c H0 H1) as (v & Hv & Hi & _). eauto.
  - apply channel_not_finite.
Qed.

(** X21.  The text written by [savePPM]: all conversions to [int] are defined
    exactly when they are for the three components of every pixel of the
    image; the text is then the header [P3], width and height, [255],
    followed, row by row from the top and pixel by pixel from the left, by
    the three numbers of each pixel, each followed by a space, and a line
    feed after each row; every number lies between 0 and 255. *)
Theorem savePPM_text (img : Image.t) :
  Image.wf img ->
  (is_Some (PPM.savePPM img) <->
   forall x y, Image.in_bounds img x y = true -> is_Some (sample img x y)) /\
  (forall samples : Z -> Z -> Z * Z * Z,
     (forall x y, Image.in_bounds img x y = true -> sample img x y = Some (samples x y)) ->
     PPM.savePPM img = Some (text samples (Image.width img) (Image.height img)) /\
     (exists rest,
        text samples (Image.width img) (Image.height img)
        = header (Image.width img) (Image.height img) +:+ rest) /\
     forall x y, Image.in_bounds img x y = true ->
       let '(r, g, b) := samples x y in
       (0 <= r <= 255)%Z /\ (0 <= g <= 255)%Z /\ (0 <= b <= 255)%Z).
Proof.
  intros Hwf. split; [split|].
  - intros [file Hf]. now apply (savePPM_Some_samples img file).
  - apply savePPM_defined.
  - intros samples Hs. split; [now apply savePPM_text_of|].
    split; [apply text_header|].
    intros x y Hb. specialize (Hs x y Hb). unfold sample in Hs.
    destruct (PPM.channel (Vec3.x _)) as [r|] eqn:Er; [|discriminate].
    destruct (PPM.channel (Vec3.y _)) as [g|] eqn:Eg; [|discriminate].
    destruct (PPM.channel (Vec3.z _)) as [b|] eqn:Eb; [|discriminate].
    injection Hs as <-. cbv beta iota.
    split; [|split]; eapply channel_range; eassumption.
Qed.

(** X21, witness: the black image of width 2 and height 1. *)
Lemma savePPM_text_witness :
  Image.wf (Image.new 2 1) /\ is_Some (PPM.savePPM (Image.new 2 1)).
Proof.
  assert (Image.wf (Image.new 2 1)) as Hwf by (apply new_wf; lia).
  split; [exact Hwf|].
  apply (proj2 (proj1 (savePPM_text (Image.new 2 1) Hwf))).
  intros x y Hb. apply sample_unit.
  unfold Image.in_bounds in Hb. simpl in Hb.
  assert (y = 0%Z) as -> by lia.
  assert (x = 0%Z \/ x = 1%Z) as [-> | ->] by lia; reflexivity.
Defined.

(** X22.  Every color component of an image produced by [renderDistance] lies
    in [[0, 1]], so [savePPM] writes it with every conversion to [int]
    defined. *)
Theorem distance_image_can_be_saved (tan : float -> float) (img : Image.t)
    (camera : Camera.t) (scene : Scene.t) :
  Image.wf img ->
  (Z.of_nat (List.length (Scene.spheres scene)) < 2 ^ 31)%Z ->
  exists (imgB : Image.t) (file : string),
    Renderer.renderDistance tan img camera scene = Some imgB /\
    PPM.savePPM imgB = Some file /\
    forall x y, Image.in_bounds imgB x y = true -> unitVec (Image.getPixel imgB x y) = true.
Proof.
  intros Hwf Hlen. rewrite renderDistance_paint.
  destruct (image_spec (distancePixel tan camera scene (Image.width img) (Image.height img))
              img Hwf) as (imgB & HB & (Hw & Hh & Hwf') & Hp);
    [intros; apply distancePixel_Some|].
  assert (forall x y, Image.in_bounds imgB x y = true ->
            unitVec (Image.getPixel imgB x y) = true) as Hunit.
  { intros x y Hb.
    assert (Image.in_bounds img x y = true) as Hb0
      by (unfold Image.in_bounds in *; now rewrite Hw, Hh in Hb).
    specialize (Hp x y Hb0). unfold distancePixel in Hp.
    destruct (Scene.intersect scene _ Scene.default_tMin) as [[[] t] idx] eqn:Hres;
      injection Hp as Hp; rewrite <- Hp; [|reflexivity].
    pose proof (hit_distance_ge_tMin _ _ _ _ _ Hlen Hres) as Hge.
    destruct (gray_level_unit t Hge) as [H0 H1]. cbv zeta in H0, H1.
    unfold unitVec, distanceColor. cbn [Vec3.x Vec3.y Vec3.z].
    now rewrite H0, H1. }
  destruct (savePPM_defined imgB) as [file Hf].
  { intros x y Hb. apply sample_unit. now apply Hunit. }
  exists imgB, file. auto.
Qed.

(** X22, witness: the scene of [main] on a 2x2 image. *)
Lemma distance_image_can_be_saved_witness :
  exists (imgB : Image.t) (file : string),
    Renderer.renderDistance tan_fov60 (Image.new 2 2) Main.camera Main.scene = Some imgB /\
    PPM.savePPM imgB = Some file.
Proof.
  assert (Image.wf (Image.new 2 2)) as Hwf by (apply new_wf; lia).
  assert (Z.of_nat (List.length (Scene.spheres Main.scene)) < 2 ^ 31)%Z as Hlen
    by (vm_compute; reflexivity).
  destruct (distance_image_can_be_saved tan_fov60 (Image.new 2 2) Main.camera Main.scene
              Hwf Hlen) as (imgB & file & HB & Hf & _).
  exists imgB, file. split; assumption.
Defined.

(** X23.  When the material color of every sphere of the scene has its
    components in [[0, 1]], [savePPM] writes the image produced by
    [renderMaterials] with every conversion to [int] defined. *)
Theorem materials_image_can_be_saved (tan : float -> float) (img : Image.t)
    (camera : Camera.t) (scene : Scene.t) :
  Image.wf img ->
  (Z.of_nat (List.length (Scene.spheres scene)) < 2 ^ 31)%Z ->
  (forall sphere, sphere ∈ Scene.spheres scene ->
     unitVec (Material.color (Sphere.material sphere)) = true) ->
  exists (imgC : Image.t) (file : string),
    Renderer.renderMaterials tan img camera scene = Some imgC /\
    PPM.savePPM imgC = Some file.
Proof.
  intros Hwf Hlen Hunit. rewrite renderMaterials_paint.
  destruct (image_spec (materialsPixel tan camera scene (Image.width img) (Image.height img))
              img Hwf) as (imgC & HC & (Hw & Hh & Hwf') & Hp);
    [intros; now apply spherePixel_Some|].
  destruct (savePPM_defined imgC) as [file Hf].
  { intros x y Hb. apply sample_unit.
    assert (Image.in_bounds img x y = true) as Hb0
      by (unfold Image.in_bounds in *; now rewrite Hw, Hh in Hb).
    specialize (Hp x y Hb0). unfold materialsPixel, spherePixel in Hp.
    destruct (Scene.intersect scene _ Scene.default_tMin) as [[[] t] idx] eqn:Hres.
    - destruct (hit_lookup _ _ _ _ _ Hlen Hres) as [s Hs]. rewrite Hs in Hp.
      injection Hp as Hp. rewrite <- Hp. apply Hunit.
      eapply list_elem_of_lookup_2; eauto.
    - injection Hp as Hp. rewrite <- Hp. reflexivity. }
  exists imgC, file. auto.
Qed.

(** X23, witness: the scene of [main] on a 2x2 image. *)
Lemma materials_image_can_be_saved_witness :
  exists (imgC : Image.t) (file : string),
    Renderer.renderMaterials tan_fov60 (Image.new 2 2) Main.camera Main.scene = Some imgC /\
    PPM.savePPM imgC = Some file.
Proof.
  apply (materials_image_can_be_saved tan_fov60 (Image.new 2 2) Main.camera Main.scene).
  - apply new_wf; lia.
  - vm_compute; reflexivity.
  - intros s Hs.
    change (Scene.spheres Main.scene) with
      [Sphere.mk (Vec3.mk 0 0 0) 1.0 (Material.mk (Vec3.mk 1.0 0.3 0.3));
       Sphere.mk (Vec3.mk (-2.5) 0 (-1)) 1.0 (Material.mk (Vec3.mk 0.3 1.0 0.3));
       Sphere.mk (Vec3.mk 2.5 0 (-1)) 1.0 (Material.mk (Vec3.mk 0.3 0.3 1.0));
       Sphere.mk (Vec3.mk 0 (-101) 0) 100 (Material.mk (Vec3.mk 0.8 0.8 0.8))] in Hs.
    repeat (apply elem_of_cons in Hs as [->|Hs]; [reflexivity|]).
    now apply elem_of_nil in Hs.
Defined.

End PPMProps.

(** *** Shadows only darken *)
Module Sums.
Import Operations.
Import FloatKey Rounding Digits Shift Round Mono Signs Addition Division Roots Exact.
Import FloatOrder FloatFacts FloatAlgebra FloatSigns UnitInterval Brightness.
Local Open Scope Z_scope.

Lemma key_nonneg_infinity : key_nonneg (key (S754_infinity false)).
Proof. eexists _, _, _; split; [reflexivity|left; lia]. Qed.

Lemma key_nonneg_finite m e : key_nonneg (key (S754_finite false m e)).
Proof. eexists _, _, _; split; [reflexivity|left; lia]. Qed.

Lemma key_nonneg_cases f :
  key_nonneg (key f) ->
  (exists s, f = S754_zero s) \/ f = S754_infinity false \/
  exists m e, f = S754_finite false m e.
Proof.
  intros (a & b & c & Hk & Ha).
  destruct f as [s|[]| |[] m e]; simpl in Hk; try discriminate;
    injection Hk as <- <- <-;
    try (destruct Ha as [Ha|Ha]; [lia|discriminate]); eauto.
Qed.

(** Adding a double that is not below zero to two doubles in order, none
    below zero, gives two doubles in order, none below zero. *)
Lemma SFadd_mono_nonneg A B T :
  valid_binary A = true -> valid_binary B = true -> valid_binary T = true ->
  key_nonneg (key A) -> key_nonneg (key B) -> key_nonneg (key T) -> ord A B ->
  key_nonneg (key (SFadd prec emax A T)) /\
  key_nonneg (key (SFadd prec emax B T)) /\
  ord (SFadd prec emax A T) (SFadd prec emax B T).
Proof.
  intros VA VB VT HA HB HT Hord.
  pose proof (ord_key_le _ _ Hord) as Hk.
  destruct (key_nonneg_cases T HT) as [[st ->]|[->|(mt & et & ->)]];
  destruct (key_nonneg_cases A HA) as [[sa ->]|[->|(ma & ea & ->)]];
  destruct (key_nonneg_cases B HB) as [[sb ->]|[->|(mb & eb & ->)]];
  simpl in Hk; try lia.
  all: try (cbn [SFadd]; repeat split;
            first [apply key_nonneg_infinity | apply key_nonneg_finite | apply key_nonneg_zero
                  | apply ord_pos_infinity | apply ord_refl | apply ord_zeros ]).
  - destruct sa, sb, st; cbn [SFadd Bool.eqb]; repeat split;
      first [apply key_nonneg_zero | apply ord_zeros].
  - destruct sa, st; cbn [SFadd Bool.eqb]; repeat split;
      first [apply key_nonneg_zero | apply key_nonneg_infinity | apply ord_pos_infinity].
  - destruct sa, st; cbn [SFadd Bool.eqb]; repeat split;
      first [apply key_nonneg_zero | apply key_nonneg_finite | exact Hord].
  - cbn [SFadd]. repeat split; first [apply key_nonneg_finite | exact Hord].
  - (* zero + t against b + t *)
    pose proof (valid_bounded _ _ _ VT) as Hbt.
    apply valid_canonical in VB, VT.
    unfold SFadd. cbv zeta. cbn [cond_Zopp].
    set (ez := Z.min eb et).
    rewrite !shl_align_le by lia. cbn [fst].
    pose proof (pow2_pos (eb - ez) ltac:(lia)) as Hp1.
    pose proof (pow2_pos (et - ez) ltac:(lia)) as Hp2.
    rewrite !Z2Pos.id by nia.
    split; [apply key_nonneg_finite|]. split; [apply binary_normalize_nonneg; nia|].
    rewrite <- (binary_normalize_exact mt et (et - ez)) by lia.
    replace (et - (et - ez)) with ez by lia.
    apply binary_normalize_mono. nia.
  - (* a + t against infinity *)
    split; [|split; [apply key_nonneg_infinity|apply ord_pos_infinity]].
    unfold SFadd. cbv zeta. cbn [cond_Zopp].
    apply binary_normalize_nonneg. lia.
  - (* a + t against b + t *)
    apply valid_canonical in VA, VB, VT.
    unfold SFadd. cbv zeta. cbn [cond_Zopp].
    set (ez := Z.min ea et). set (ez' := Z.min eb et).
    rewrite !shl_align_le by lia. cbn [fst].
    pose proof (pow2_pos (ea - ez) ltac:(lia)) as Hp1.
    pose proof (pow2_pos (et - ez) ltac:(lia)) as Hp2.
    pose proof (pow2_pos (eb - ez') ltac:(lia)) as Hp3.
    pose proof (pow2_pos (et - ez') ltac:(lia)) as Hp4.
    rewrite !Z2Pos.id by nia.
    split; [apply binary_normalize_nonneg; nia|].
    split; [apply binary_normalize_nonneg; nia|].
    assert (ez <= ez') as Hez by lia.
    rewrite <- (binary_normalize_shift _ ez' (ez' - ez)) by lia.
    replace (ez' - (ez' - ez)) with ez by lia.
    apply binary_normalize_mono.
    pose proof (canonical_value_le (Zpos ma) ea (Zpos mb) eb ez
                  ltac:(lia) ltac:(lia) VA VB ltac:(lia) ltac:(lia)) as Hle.
    rewrite Z.mul_add_distr_r, <- !Z.mul_assoc, <- !Z.pow_add_r by lia.
    replace (eb - ez' + (ez' - ez)) with (eb - ez) by lia.
    replace (et - ez' + (ez' - ez)) with (et - ez) by lia.
    lia.
Qed.

Local Open Scope float_scope.

Lemma leb_key_nonneg x : (0 <=? x) = true -> key_nonneg (fkey x).
Proof.
  intros H. pose proof (proj1 (not_nan_spec x) (leb_not_nan_r _ _ H)) as Hnn.
  apply leb_ord, ord_key_le in H. unfold fkey.
  change (Prim2SF 0) with (S754_zero false) in H.
  destruct (Prim2SF x) as [s|[]| |[] m e]; simpl in H; try lia; try congruence.
  - apply key_nonneg_zero.
  - apply key_nonneg_infinity.
  - apply key_nonneg_finite.
Qed.

(** [a + t] and [b + t] for [0 <= a <= b] and [0 <= t]. *)
Lemma add_mono (a b t : float) :
  (0 <=? a) = true -> (a <=? b) = true -> (0 <=? t) = true ->
  (0 <=? a + t) = true /\ (a + t <=? b + t) = true.
Proof.
  intros H0 Hab Ht.
  pose proof (leb_trans _ _ _ H0 Hab) as Hb.
  destruct (SFadd_mono_nonneg (Prim2SF a) (Prim2SF b) (Prim2SF t)
              (Prim2SF_valid a) (Prim2SF_valid b) (Prim2SF_valid t)
              (leb_key_nonneg a H0) (leb_key_nonneg b Hb) (leb_key_nonneg t Ht)
              (leb_ord _ _ Hab)) as (Ka & Kb & Ho).
  change (SFadd prec emax (Prim2SF a) (Prim2SF t)) with (SF64add (Prim2SF a) (Prim2SF t)) in Ka, Ho.
  change (SFadd prec emax (Prim2SF b) (Prim2SF t)) with (SF64add (Prim2SF b) (Prim2SF t)) in Kb, Ho.
  rewrite <- (add_spec a t) in Ka, Ho. rewrite <- (add_spec b t) in Kb, Ho.
  split; [now apply key_nonneg_leb|].
  apply ord_leb; [assumption|apply key_nonneg_not_nan; exact Ka|apply key_nonneg_not_nan; exact Kb].
Qed.

(** Adding a double that is not below zero does not decrease a double that
    is not below zero. *)
Lemma add_increases (a t : float) :
  (0 <=? a) = true -> (0 <=? t) = true -> (a <=? a + t) = true.
Proof.
  intros Ha Ht.
  destruct (add_mono 0 t a eq_refl Ht Ha) as [_ H].
  rewrite (add_comm t a), (add_comm 0 a) in H.
  eapply leb_trans; [|exact H].
  apply eqb_leb. rewrite eqb_sym.
  apply ShadingFacts.add_zero_r; [eapply leb_not_nan_r; eauto|reflexivity].
Qed.

End Sums.

Module ColorFacts.
Import FloatOrder FloatFacts Sums ColorOrder Shading.

Lemma nonnegVec_spec u :
  nonnegVec u = true <->
  (0 <=? Vec3.x u) = true /\ (0 <=? Vec3.y u) = true /\ (0 <=? Vec3.z u) = true.
Proof. unfold nonnegVec. rewrite !andb_true_iff. tauto. Qed.

Lemma leVec_spec u v :
  leVec u v = true <->
  (Vec3.x u <=? Vec3.x v) = true /\ (Vec3.y u <=? Vec3.y v) = true /\
  (Vec3.z u <=? Vec3.z v) = true.
Proof. unfold leVec. rewrite !andb_true_iff. tauto. Qed.

Lemma leVec_refl u : nonnegVec u = true -> leVec u u = true.
Proof.
  rewrite nonnegVec_spec, leVec_spec. intros (Hx & Hy & Hz).
  repeat split; apply leb_refl; eapply leb_not_nan_r; eauto.
Qed.

(** One step of the two accumulations: the light adds its term to both. *)
Lemma add_both u v w :
  nonnegVec u = true -> leVec u v = true -> nonnegVec w = true ->
  nonnegVec (u + w)%vec3 = true /\ leVec (u + w)%vec3 (v + w)%vec3 = true.
Proof.
  rewrite !nonnegVec_spec, !leVec_spec. unfold Vec3.add. cbn [Vec3.x Vec3.y Vec3.z].
  intros (Hx & Hy & Hz) (Lx & Ly & Lz) (Wx & Wy & Wz).
  destruct (add_mono _ _ _ Hx Lx Wx), (add_mono _ _ _ Hy Ly Wy), (add_mono _ _ _ Hz Lz Wz).
  tauto.
Qed.

(** The light adds its term to the second accumulation only. *)
Lemma add_right u v w :
  nonnegVec u = true -> leVec u v = true -> nonnegVec w = true ->
  leVec u (v + w)%vec3 = true.
Proof.
  rewrite !nonnegVec_spec, !leVec_spec. unfold Vec3.add. cbn [Vec3.x Vec3.y Vec3.z].
  intros (Hx & Hy & Hz) (Lx & Ly & Lz) (Wx & Wy & Wz).
  pose proof (leb_trans _ _ _ Hx Lx). pose proof (leb_trans _ _ _ Hy Ly).
  pose proof (leb_trans _ _ _ Hz Lz).
  split; [|split].
  - apply (leb_trans _ _ _ Lx). now apply add_increases.
  - apply (leb_trans _ _ _ Ly). now apply add_increases.
  - apply (leb_trans _ _ _ Lz). now apply add_increases.
Qed.

Lemma fold_skipping_le (lights : list Light.t) (term : Light.t -> Vec3.t)
    (skip : Light.t -> bool) :
  (forall light, light ∈ lights -> nonnegVec (term light) = true) ->
  forall accS accD,
    nonnegVec accS = true -> leVec accS accD = true ->
    nonnegVec (fold_left (fun c l => if negb (skip l) then (c + term l)%vec3 else c)
                 lights accS) = true /\
    leVec (fold_left (fun c l => if negb (skip l) then (c + term l)%vec3 else c)
             lights accS)
          (fold_left (fun c l => (c + term l)%vec3) lights accD) = true.
Proof.
  induction lights as [|l lights IH]; intros Hterm accS accD Hn Hle; [now split|].
  cbn [fold_left].
  assert (nonnegVec (term l) = true) as Hl by (apply Hterm; left).
  assert (forall light, light ∈ lights -> nonnegVec (term light) = true) as Hrest
    by (intros; apply Hterm; now right).
  destruct (skip l); cbn [negb].
  - apply IH; [assumption..|]. now apply add_right.
  - destruct (add_both accS accD (term l) Hn Hle Hl). now apply IH.
Qed.

End ColorFacts.

Module ShadowProps.
Import FloatOrder FloatFacts Paint Shading ImageFacts PaintFacts RenderFacts ShadingFacts.
Import ColorOrder ColorFacts Examples.

(** X24.  Shadows only darken.  At a pixel whose ray hits, when no component
    of the ambient term and of the diffuse term of each light is below zero
    or NaN, no component of the pixel painted by [renderWithShadows] is
    below zero or above the same component of the pixel painted by
    [renderDiffuse]. *)
Theorem shadows_only_darken (tan : float -> float) (img : Image.t) (camera : Camera.t)
    (scene : Scene.t) :
  Image.wf img ->
  (Z.of_nat (List.length (Scene.spheres scene)) < 2 ^ 31)%Z ->
  exists imgD imgE : Image.t,
    Renderer.renderDiffuse tan img camera scene = Some imgD /\
    Renderer.renderWithShadows tan img camera scene = Some imgE /\
    forall (x y : Z) (t : float) (idx : Z),
      Image.in_bounds img x y = true ->
      Scene.intersect scene
        (pixelRay tan camera (Image.width img) (Image.height img) x y)
        Scene.default_tMin = (true, t, idx) ->
      exists sphere : Sphere.t,
        Scene.spheres scene !! size_t_of_int idx = Some sphere /\
        let hitPoint :=
          Ray.at_ (pixelRay tan camera (Image.width img) (Image.height img) x y) t in
        let materialColor := Material.color (Sphere.material sphere) in
        (nonnegVec (Scene.ambientLight scene * materialColor)%vec3 = true ->
         (forall light, light ∈ Scene.lights scene ->
            nonnegVec (diffuseTerm materialColor (Sphere.getNormal sphere hitPoint)
                         hitPoint light) = true) ->
         nonnegVec (Image.getPixel imgE x y) = true /\
         leVec (Image.getPixel imgE x y) (Image.getPixel imgD x y) = true).
Proof.
  intros Hwf Hlen. rewrite renderDiffuse_paint, renderWithShadows_paint.
  destruct (paint_pixels (diffusePixel tan camera scene (Image.width img) (Image.height img))
              img Hwf) as (imgD & HD & HpD);
    [intros; now apply spherePixel_Some|].
  destruct (paint_pixels (shadowPixel tan camera scene (Image.width img) (Image.height img))
              img Hwf) as (imgE & HE & HpE);
    [intros; now apply spherePixel_Some|].
  exists imgD, imgE. split; [assumption|]. split; [assumption|].
  intros x y t idx Hb Hres.
  specialize (HpD x y Hb). specialize (HpE x y Hb).
  unfold diffusePixel, shadowPixel, spherePixel in HpD, HpE.
  rewrite Hres in HpD, HpE.
  destruct (hit_lookup _ _ _ _ _ Hlen Hres) as [s Hs]. rewrite Hs in HpD, HpE.
  exists s. split; [assumption|]. cbv zeta. intros Hamb Hterms.
  injection HpD as HpD. injection HpE as HpE. rewrite <- HpD, <- HpE.
  unfold diffuseColor, shadowColor. cbv zeta.
  apply (fold_skipping_le (Scene.lights scene)
           (diffuseTerm (Material.color (Sphere.material s)) (Sphere.getNormal s _) _)
           (fun light => Scene.isInShadow scene _ (Light.position light)));
    [assumption|assumption|now apply leVec_refl].
Qed.

(** X24, witness: the scene of [main] on a 4x4 image; pixel [(3, 2)] sees the
    blue sphere at a point in the shadow of both lights. *)
Lemma shadows_only_darken_witness :
  exists imgD imgE : Image.t,
    Renderer.renderDiffuse tan_fov60 (Image.new 4 4) Main.camera Main.scene = Some imgD /\
    Renderer.renderWithShadows tan_fov60 (Image.new 4 4) Main.camera Main.scene = Some imgE /\
    leVec (Image.getPixel imgE 3 2) (Image.getPixel imgD 3 2) = true.
Proof.
  assert (Image.wf (Image.new 4 4)) as Hwf by (apply new_wf; lia).
  assert (Z.of_nat (List.length (Scene.spheres Main.scene)) < 2 ^ 31)%Z as Hlen
    by (vm_compute; reflexivity).
  destruct (shadows_only_darken tan_fov60 (Image.new 4 4) Main.camera Main.scene Hwf Hlen)
    as (imgD & imgE & HD & HE & Hpix).
  exists imgD, imgE. split; [exact HD|]. split; [exact HE|].
  assert (Scene.intersect Main.scene (pixelRay tan_fov60 Main.camera 4 4 3 2)
            Scene.default_tMin = (true, 5.7829931438666531, 2%Z)) as Hres
    by (vm_compute; reflexivity).
  destruct (Hpix 3%Z 2%Z _ _ eq_refl Hres) as (sphere & Hs & Hle).
  vm_compute in Hs. injection Hs as <-.
  apply Hle; [vm_compute; reflexivity|].
  intros light Hl.
  change (Scene.lights Main.scene)
    with [Light.mk (Vec3.mk 5 5 5) (Vec3.mk 1 1 1) 0.8;
          Light.mk (Vec3.mk (-5) 3 3) (Vec3.mk 1 0.9 0.8) 0.4] in Hl.
  apply elem_of_cons in Hl as [-> | Hl]; [vm_compute; reflexivity|].
  apply elem_of_cons in Hl as [-> | Hl]; [vm_compute; reflexivity|].
  now apply elem_of_nil in Hl.
Defined.

End ShadowProps.
